(** * AniChart Filter: a shallow embedding of [anichart-filter.user.js]

    The user script keeps a set of selected highlight colours, watches the
    host page for mutations, and re-applies a visibility filter to every
    card.  This development embeds the script's functions as Rocq
    definitions, one per source function, and states the properties of the
    specification over them.

    Layout: definitions first (strings, JSON and the persisted selection,
    the colour pattern and the visibility expression, the refresh pass, the
    debounce timer, the mutation watcher, the control surface and the
    orchestrator), then the lemmas and theorems. *)

From Stdlib Require Import ZArith NArith Lia Bool List.
From Stdlib Require Import Strings.String Strings.Ascii.
From stdpp Require Import base option list gmap.
Import ListNotations.

Set Warnings "-register-all".
Local Open Scope N_scope.

(* ===================================================================== *)
(** ** JavaScript strings *)
(* ===================================================================== *)

(** A JavaScript string is a sequence of UTF-16 code units. *)
Abbreviation jsstring := (list N).

(** [lit s] is the JavaScript string whose code units are the characters of
    the (ASCII) literal [s]. *)
Definition lit (s : string) : jsstring :=
  List.map N_of_ascii (list_ascii_of_string s).

(** [strip_prefix p s]: [Some rest] when [s = p ++ rest]. *)
Fixpoint strip_prefix (p s : jsstring) : option jsstring :=
  match p, s with
  | [], _ => Some s
  | _ :: _, [] => None
  | a :: p', b :: s' => if a =? b then strip_prefix p' s' else None
  end.

(** [String.prototype.includes]: [needle] occurs somewhere in [hay]. *)
Fixpoint includes (hay needle : jsstring) : bool :=
  match strip_prefix needle hay with
  | Some _ => true
  | None => match hay with
            | [] => false
            | _ :: hay' => includes hay' needle
            end
  end.

(** The longest prefix of [s] whose units satisfy [p], and what follows. *)
Fixpoint span (p : N -> bool) (s : jsstring) : jsstring * jsstring :=
  match s with
  | [] => ([], [])
  | c :: s' => if p c then let '(a, b) := span p s' in (c :: a, b)
               else ([], s)
  end.

(** JavaScript truthiness of a value that is [null] or a string: [null] and
    the empty string are falsy. *)
Definition truthy (v : option jsstring) : bool :=
  match v with
  | Some (_ :: _) => true
  | _ => false
  end.

(* ===================================================================== *)
(** ** Exceptions *)
(* ===================================================================== *)

Inductive error : Type :=
| SyntaxError
| TypeError.

(** The outcome of evaluating a JavaScript expression or statement. *)
Inductive completion (A : Type) : Type :=
| Normal (a : A)
| Throw (e : error).
Arguments Normal {A} a.
Arguments Throw {A} e.

(* ===================================================================== *)
(** ** [JSON.parse] *)
(* ===================================================================== *)

(** Parsed JSON values.  A number keeps its lexeme: the script never looks
    at the numeric value.  An object keeps its members in source order. *)
Inductive json : Type :=
| JNull
| JBool (b : bool)
| JNum (lexeme : jsstring)
| JStr (s : jsstring)
| JArr (elements : list json)
| JObj (members : list (jsstring * json)).

Definition is_ws (c : N) : bool :=
  (c =? 9) || (c =? 10) || (c =? 13) || (c =? 32).

Fixpoint skip_ws (s : jsstring) : jsstring :=
  match s with
  | c :: s' => if is_ws c then skip_ws s' else s
  | [] => []
  end.

Definition is_digit (c : N) : bool := (48 <=? c) && (c <=? 57).

Definition hex_value (c : N) : option N :=
  if is_digit c then Some (c - 48)
  else if (97 <=? c) && (c <=? 102) then Some (c - 87)
  else if (65 <=? c) && (c <=? 70) then Some (c - 55)
  else None.

Definition hex4 (a b c d : N) : option N :=
  match hex_value a, hex_value b, hex_value c, hex_value d with
  | Some x, Some y, Some z, Some w => Some (((x * 16 + y) * 16 + z) * 16 + w)
  | _, _, _, _ => None
  end.

(** The code unit denoted by the escape [\e], for the single-character
    escapes of the JSON grammar. *)
Definition simple_escape (e : N) : option N :=
  if e =? 34 then Some 34            (* quotation mark *)
  else if e =? 92 then Some 92       (* reverse solidus *)
  else if e =? 47 then Some 47       (* solidus *)
  else if e =? 98 then Some 8        (* b: backspace *)
  else if e =? 102 then Some 12      (* f: form feed *)
  else if e =? 110 then Some 10      (* n: line feed *)
  else if e =? 114 then Some 13      (* r: carriage return *)
  else if e =? 116 then Some 9       (* t: tab *)
  else None.

(** The characters of a JSON string after its opening quote, up to and
    including the closing quote; returns the string value and the rest. *)
Fixpoint parse_string (s : jsstring) : option (jsstring * jsstring) :=
  match s with
  | [] => None
  | c :: r =>
      if c =? 34 then Some ([], r)
      else if c =? 92 then
        match r with
        | [] => None
        | e :: r1 =>
            if e =? 117 then
              match r1 with
              | h1 :: h2 :: h3 :: h4 :: r2 =>
                  match hex4 h1 h2 h3 h4 with
                  | Some u =>
                      match parse_string r2 with
                      | Some (v, rest) => Some (u :: v, rest)
                      | None => None
                      end
                  | None => None
                  end
              | _ => None
              end
            else
              match simple_escape e with
              | Some u =>
                  match parse_string r1 with
                  | Some (v, rest) => Some (u :: v, rest)
                  | None => None
                  end
              | None => None
              end
        end
      else if c <? 32 then None
      else
        match parse_string r with
        | Some (v, rest) => Some (c :: v, rest)
        | None => None
        end
  end.

(** A non-empty run of digits. *)
Definition parse_digits (s : jsstring) : option (jsstring * jsstring) :=
  match span is_digit s with
  | ([], _) => None
  | (ds, rest) => Some (ds, rest)
  end.

(** [int]: a single [0], or a digit [1-9] followed by digits. *)
Definition parse_int (s : jsstring) : option (jsstring * jsstring) :=
  match s with
  | c :: r =>
      if c =? 48 then Some ([c], r)
      else if is_digit c then let '(ds, rest) := span is_digit r in Some (c :: ds, rest)
      else None
  | [] => None
  end.

Definition parse_frac (s : jsstring) : option (jsstring * jsstring) :=
  match s with
  | c :: r =>
      if c =? 46 then
        match parse_digits r with
        | Some (ds, rest) => Some (c :: ds, rest)
        | None => None
        end
      else Some ([], s)
  | [] => Some ([], s)
  end.

Definition parse_exp (s : jsstring) : option (jsstring * jsstring) :=
  match s with
  | c :: r =>
      if (c =? 101) || (c =? 69) then
        let '(sign, r1) :=
          match r with
          | d :: r' => if (d =? 43) || (d =? 45) then ([d], r') else ([], r)
          | [] => ([], r)
          end in
        match parse_digits r1 with
        | Some (ds, rest) => Some (c :: sign ++ ds, rest)
        | None => None
        end
      else Some ([], s)
  | [] => Some ([], s)
  end.

(** [number]: optional minus, int, optional fraction, optional exponent. *)
Definition parse_number (s : jsstring) : option (jsstring * jsstring) :=
  let '(minus, r0) :=
    match s with
    | c :: r => if c =? 45 then ([c], r) else ([], s)
    | [] => ([], s)
    end in
  match parse_int r0 with
  | Some (i, r1) =>
      match parse_frac r1 with
      | Some (f, r2) =>
          match parse_exp r2 with
          | Some (e, r3) => Some (minus ++ i ++ f ++ e, r3)
          | None => None
          end
      | None => None
      end
  | None => None
  end.

Definition parse_literal (s : jsstring) : option (json * jsstring) :=
  match strip_prefix (lit "true") s with
  | Some r => Some (JBool true, r)
  | None =>
      match strip_prefix (lit "false") s with
      | Some r => Some (JBool false, r)
      | None =>
          match strip_prefix (lit "null") s with
          | Some r => Some (JNull, r)
          | None => None
          end
      end
  end.

(** Recursive descent over the JSON grammar.  [parse_value] reads one value
    (leading white space allowed); [parse_elements] reads the elements of a
    non-empty array up to and including the closing bracket;
    [parse_members] reads the members of a non-empty object up to and
    including the closing brace.  The fuel bounds the recursion; see
    [JSON_parse] for the amount given and [parse_value_fuel] for why it is
    always enough. *)
Fixpoint parse_value (fuel : nat) (s : jsstring) : option (json * jsstring) :=
  match fuel with
  | O => None
  | S fuel' =>
      match skip_ws s with
      | [] => None
      | c :: r =>
          if c =? 91 then                                  (* [ *)
            match skip_ws r with
            | d :: r' =>
                if d =? 93 then Some (JArr [], r')
                else
                  match parse_elements fuel' r with
                  | Some (vs, rest) => Some (JArr vs, rest)
                  | None => None
                  end
            | [] => None
            end
          else if c =? 123 then                            (* { *)
            match skip_ws r with
            | d :: r' =>
                if d =? 125 then Some (JObj [], r')
                else
                  match parse_members fuel' r with
                  | Some (ms, rest) => Some (JObj ms, rest)
                  | None => None
                  end
            | [] => None
            end
          else if c =? 34 then                             (* string *)
            match parse_string r with
            | Some (v, rest) => Some (JStr v, rest)
            | None => None
            end
          else if (c =? 45) || is_digit c then
            match parse_number (c :: r) with
            | Some (n, rest) => Some (JNum n, rest)
            | None => None
            end
          else parse_literal (c :: r)
      end
  end
with parse_elements (fuel : nat) (s : jsstring) : option (list json * jsstring) :=
  match fuel with
  | O => None
  | S fuel' =>
      match parse_value fuel' s with
      | Some (v, r) =>
          match skip_ws r with
          | c :: r' =>
              if c =? 44 then
                match parse_elements fuel' r' with
                | Some (vs, rest) => Some (v :: vs, rest)
                | None => None
                end
              else if c =? 93 then Some ([v], r')
              else None
          | [] => None
          end
      | None => None
      end
  end
with parse_members (fuel : nat) (s : jsstring)
  : option (list (jsstring * json) * jsstring) :=
  match fuel with
  | O => None
  | S fuel' =>
      match skip_ws s with
      | q :: r0 =>
          if q =? 34 then
            match parse_string r0 with
            | Some (k, r1) =>
                match skip_ws r1 with
                | colon :: r2 =>
                    if colon =? 58 then
                      match parse_value fuel' r2 with
                      | Some (v, r3) =>
                          match skip_ws r3 with
                          | c :: r4 =>
                              if c =? 44 then
                                match parse_members fuel' r4 with
                                | Some (ms, rest) => Some ((k, v) :: ms, rest)
                                | None => None
                                end
                              else if c =? 125 then Some ([(k, v)], r4)
                              else None
                          | [] => None
                          end
                      | None => None
                      end
                    else None
                | [] => None
                end
            | None => None
            end
          else None
      | [] => None
      end
  end.

(** Fuel that is enough for a text of the given length: every recursive
    call but the one from [parse_elements]/[parse_members] into
    [parse_value] happens after at least one character was consumed. *)
Definition parse_fuel (s : jsstring) : nat := 2 * length s + 2.

(** [JSON.parse(text)]: [None] stands for the [SyntaxError] it throws. *)
Definition JSON_parse (text : jsstring) : option json :=
  match parse_value (parse_fuel text) text with
  | Some (v, rest) =>
      match skip_ws rest with
      | [] => Some v
      | _ :: _ => None
      end
  | None => None
  end.

(* ===================================================================== *)
(** ** The selection set [SELECTED_COLORS] *)
(* ===================================================================== *)

(** The functions embedded here observe the [Set] only through
    [size === 0] and [has] with a string argument.  A member that is not a
    string (possible when the persisted array holds numbers, [null],
    arrays or objects) is never equal to a string, so the model keeps the
    string members exactly and records only whether any other member is
    present. *)
Record ColorSet : Type := {
  string_members : gset jsstring;
  other_members : bool
}.

Definition Set_empty : ColorSet :=
  {| string_members := ∅; other_members := false |}.

(** [set.size === 0] *)
Definition Set_size_is_zero (s : ColorSet) : bool :=
  bool_decide (string_members s = ∅) && negb (other_members s).

(** [set.has(v)] for a string [v] *)
Definition Set_has (s : ColorSet) (v : jsstring) : bool :=
  bool_decide (v ∈ string_members s).

(** [set.add(v)] for a string [v] *)
Definition Set_add (s : ColorSet) (v : jsstring) : ColorSet :=
  {| string_members := {[ v ]} ∪ string_members s;
     other_members := other_members s |}.

Definition is_lead_surrogate (c : N) : bool := (55296 <=? c) && (c <=? 56319).
Definition is_trail_surrogate (c : N) : bool := (56320 <=? c) && (c <=? 57343).

(** The string iterator yields code points: a surrogate pair comes out as
    one two-unit string, every other unit as a one-unit string. *)
Fixpoint code_points (s : jsstring) : list jsstring :=
  match s with
  | [] => []
  | c :: r =>
      match r with
      | d :: r' =>
          if is_lead_surrogate c && is_trail_surrogate d
          then [c; d] :: code_points r'
          else [c] :: code_points r
      | [] => [[c]]
      end
  end.

Definition json_strings (l : list json) : list jsstring :=
  omap (fun v => match v with JStr s => Some s | _ => None end) l.

Definition json_is_string (v : json) : bool :=
  match v with JStr _ => true | _ => false end.

(** [new Set(iterable)] applied to a parsed JSON value: [null] gives the
    empty set, a string is iterated by code point, an array by element;
    numbers, booleans and plain objects are not iterable. *)
Definition new_Set (iterable : json) : completion ColorSet :=
  match iterable with
  | JNull => Normal Set_empty
  | JStr s =>
      Normal {| string_members := list_to_set (code_points s);
                other_members := false |}
  | JArr l =>
      Normal {| string_members := list_to_set (json_strings l);
                other_members := existsb (fun v => negb (json_is_string v)) l |}
  | JBool _ | JNum _ | JObj _ => Throw TypeError
  end.

Definition STORAGE_KEY : jsstring := lit "anichart-selected-filters".
Definition REFRESH_DEBOUNCE_MS : Z := 180.
Definition KNOWN_COLORS : list jsstring :=
  [lit "green"; lit "yellow"; lit "red"; lit "gray"].

(** [a || b] where [a] is [null] or a string. *)
Definition or_else (a : option jsstring) (b : jsstring) : jsstring :=
  match a with
  | Some (c :: r) => c :: r
  | _ => b
  end.

(** The initialiser of [SELECTED_COLORS], run once when the script starts:
    [new Set(JSON.parse(localStorage.getItem(STORAGE_KEY) || "[]"))].
    [localStorage] is a finite map from keys to strings and [getItem] is
    its lookup. *)
Definition SELECTED_COLORS_init (localStorage : gmap jsstring jsstring)
  : completion ColorSet :=
  match JSON_parse (or_else (localStorage !! STORAGE_KEY) (lit "[]")) with
  | None => Throw SyntaxError
  | Some v => new_Set v
  end.

(* ===================================================================== *)
(** ** [COLOR_RE] and the visibility expression *)
(* ===================================================================== *)

(** Case folding of the [i] flag (without [u]): a code unit is compared
    through its upper-case form, and a unit outside ASCII never folds to an
    ASCII one, so against the ASCII pattern only ASCII letters fold. *)
Definition canonicalize (c : N) : N :=
  if (97 <=? c) && (c <=? 122) then c - 32 else c.

(** The class [[a-z]] under the [i] flag. *)
Definition is_letter (c : N) : bool :=
  let u := canonicalize c in (65 <=? u) && (u <=? 90).

(** [s] starts with the literal [p], compared case-insensitively. *)
Fixpoint strip_prefix_ci (p s : jsstring) : option jsstring :=
  match p, s with
  | [], _ => Some s
  | _ :: _, [] => None
  | a :: p', b :: s' =>
      if canonicalize a =? canonicalize b then strip_prefix_ci p' s' else None
  end.

(** An attempt to match [/--color-([a-z]+)/i] at the start of [s]; the
    result is capture group 1.  The group is greedy and nothing follows it,
    so it takes the whole run of letters. *)
Definition COLOR_RE_at (s : jsstring) : option jsstring :=
  match strip_prefix_ci (lit "--color-") s with
  | Some rest =>
      match span is_letter rest with
      | ([], _) => None
      | (name, _) => Some name
      end
  | None => None
  end.

(** [COLOR_RE.exec(s)], reduced to what the script reads from it:
    [Some m] when there is a match, [m] being [match[1]], and [None] when
    [exec] returns [null].  The match is the leftmost one. *)
Fixpoint COLOR_RE_exec (s : jsstring) : option jsstring :=
  match COLOR_RE_at s with
  | Some m => Some m
  | None =>
      match s with
      | [] => None
      | _ :: s' => COLOR_RE_exec s'
      end
  end.

(** The expression bound to [show] in [refresh]:
    [noFilters || (colorInCard && SELECTED_COLORS.has(colorInCard)) ||
     (!colorInCard && SELECTED_COLORS.has("gray"))], as a boolean. *)
Definition show (noFilters : bool) (colorInCard : option jsstring)
    (SELECTED_COLORS : ColorSet) : bool :=
  noFilters
  || (truthy colorInCard
      && match colorInCard with
         | Some c => Set_has SELECTED_COLORS c
         | None => false
         end)
  || (negb (truthy colorInCard) && Set_has SELECTED_COLORS (lit "gray")).

(** The value [refresh] computes for [show] on a card whose highlighter
    has the style text [cssText]: [match] is [COLOR_RE.exec(cssText)],
    [colorInCard] is [match ? match[1] : null], [noFilters] is
    [SELECTED_COLORS.size === 0]. *)
Definition show_card (cssText : jsstring) (SELECTED_COLORS : ColorSet) : bool :=
  show (Set_size_is_zero SELECTED_COLORS) (COLOR_RE_exec cssText) SELECTED_COLORS.

(* ===================================================================== *)
(** ** [refresh]: the pass over the cards *)
(* ===================================================================== *)

(** [DOMTokenList]: an ordered set of class names. *)
Definition classList_contains (l : list jsstring) (x : jsstring) : bool :=
  bool_decide (x ∈ l).

Definition classList_add (l : list jsstring) (x : jsstring) : list jsstring :=
  if classList_contains l x then l else l ++ [x].

Definition classList_remove (l : list jsstring) (x : jsstring) : list jsstring :=
  filter (fun y => y ≠ x) l.

Definition AIRED_CLASS : jsstring := lit "anichart-filter-card-aired".

(** A card as the loop body of [refresh] sees it.  An iteration writes
    only the class list and [style.display] of its own card, and reads only
    descendants of that card, which come after every card already visited
    in document order; so nothing an iteration writes is read later in the
    same pass, and a card is represented by what its iteration reads and
    writes.

    - [classList]: the tokens of [card.classList];
    - [episode]: [None] when [getElementsByClassName("episode")[0]] is
      [undefined], else its [textContent];
    - [highlighter]: [None] when there is no [.highlighter] descendant;
      [Some None] when that element has no [style] property (a plain
      [Element], such as one created in a foreign XML namespace, has
      none); [Some (Some t)] when [style.cssText] is [t];
    - [display]: [None] when the card has no [style] property, else the
      value of [style.display]. *)
Record card : Type := {
  classList : list jsstring;
  episode : option jsstring;
  highlighter : option (option jsstring);
  display : option jsstring
}.

Definition set_classList (c : card) (l : list jsstring) : card :=
  {| classList := l; episode := episode c;
     highlighter := highlighter c; display := display c |}.

Definition set_display (c : card) (d : jsstring) : card :=
  {| classList := classList c; episode := episode c;
     highlighter := highlighter c; display := Some d |}.

(** The test [episode && episode.textContent.includes("aired")]. *)
Definition has_aired (c : card) : bool :=
  match episode c with
  | Some text => includes text (lit "aired")
  | None => false
  end.

(** The first statement of the loop body: add or remove the marker class. *)
Definition mark_aired (c : card) : card :=
  if has_aired c
  then set_classList c (classList_add (classList c) AIRED_CLASS)
  else set_classList c (classList_remove (classList c) AIRED_CLASS).

(** One iteration of the [for] loop: the card as the iteration leaves it,
    and how the iteration completes.  Reading [.cssText] of an undefined
    [style], or assigning [.display] on one, throws a [TypeError]; the
    writes made before the throw stay. *)
Definition loop_body (SELECTED_COLORS : ColorSet) (noFilters : bool) (c : card)
  : card * completion unit :=
  let c := mark_aired c in
  match highlighter c with
  | None => (c, Normal tt)                              (* continue *)
  | Some None => (c, Throw TypeError)
  | Some (Some cssText) =>
      let colorInCard := COLOR_RE_exec cssText in
      let sh := show noFilters colorInCard SELECTED_COLORS in
      match display c with
      | None => (c, Throw TypeError)
      | Some _ => (set_display c (if sh then [] else lit "none"), Normal tt)
      end
  end.

(** The [for] loop over the node list: the cards after the loop, how it
    completed, and the number of iterations it started. *)
Fixpoint for_cards (SELECTED_COLORS : ColorSet) (noFilters : bool)
    (cards : list card) : list card * completion unit * nat :=
  match cards with
  | [] => ([], Normal tt, O)
  | c :: rest =>
      match loop_body SELECTED_COLORS noFilters c with
      | (c', Throw e) => (c' :: rest, Throw e, 1%nat)
      | (c', Normal _) =>
          let '(rest', r, n) := for_cards SELECTED_COLORS noFilters rest in
          (c' :: rest', r, S n)
      end
  end.

(** What [refresh] touches: the cards that
    [querySelectorAll('.media-card, .airing-card')] returns, in document
    order, the number of [resize] events dispatched on the window, and the
    errors written to the console. *)
Record page : Type := {
  cards : list card;
  resize_events : nat;
  console_errors : list error
}.

(** The body of the [try] block. *)
Definition refresh_try (SELECTED_COLORS : ColorSet) (p : page)
  : page * completion unit * nat :=
  let resized := S (resize_events p) in
  match cards p with
  | [] =>
      ({| cards := []; resize_events := resized;
          console_errors := console_errors p |}, Normal tt, O)
  | _ :: _ =>
      let noFilters := Set_size_is_zero SELECTED_COLORS in
      let '(cs, r, n) := for_cards SELECTED_COLORS noFilters (cards p) in
      ({| cards := cs; resize_events := resized;
          console_errors := console_errors p |}, r, n)
  end.

(** [console.error("anichart refresh error:", err)] *)
Definition console_error (e : error) (p : page) : page :=
  {| cards := cards p; resize_events := resize_events p;
     console_errors := console_errors p ++ [e] |}.

(** [refresh()]: the [try] block with its [catch] handler. *)
Definition refresh (SELECTED_COLORS : ColorSet) (p : page)
  : page * completion unit :=
  match refresh_try SELECTED_COLORS p with
  | (p', Normal _, _) => (p', Normal tt)
  | (p', Throw e, _) => (console_error e p', Normal tt)
  end.

(** The number of cards the loop of this pass iterates over. *)
Definition cards_enumerated (SELECTED_COLORS : ColorSet) (p : page) : nat :=
  snd (refresh_try SELECTED_COLORS p).

(** The page after [refresh()]. *)
Definition refreshed (SELECTED_COLORS : ColorSet) (p : page) : page :=
  fst (refresh SELECTED_COLORS p).

(* ===================================================================== *)
(** ** [debounceRefresh]: the timer *)
(* ===================================================================== *)

Local Open Scope Z_scope.

(** The timer side of the event loop, on a logical clock.
    - [scheduled]: the pending timeouts as (handle, due time);
    - [next_handle]: the handle the next [setTimeout] returns (handles are
      positive integers);
    - [refreshTimer]: the script's variable, [None] for [null];
    - [refresh_runs]: the times at which the timer callback ran
      [refresh()], oldest first. *)
Record timers : Type := {
  now : Z;
  next_handle : Z;
  scheduled : list (Z * Z);
  refreshTimer : option Z;
  refresh_runs : list Z
}.

Definition timers_start (t0 : Z) : timers :=
  {| now := t0; next_handle := 1; scheduled := [];
     refreshTimer := None; refresh_runs := [] |}.

(** [clearTimeout(h)] *)
Definition clearTimeout (h : Z) (t : timers) : timers :=
  {| now := now t; next_handle := next_handle t;
     scheduled := filter (fun e => fst e ≠ h) (scheduled t);
     refreshTimer := refreshTimer t; refresh_runs := refresh_runs t |}.

(** [setTimeout(callback, delay)]: the handle and the new state. *)
Definition setTimeout (delay : Z) (t : timers) : Z * timers :=
  (next_handle t,
   {| now := now t; next_handle := next_handle t + 1;
      scheduled := scheduled t ++ [(next_handle t, now t + delay)];
      refreshTimer := refreshTimer t; refresh_runs := refresh_runs t |}).

(** [debounceRefresh()].  The test [if (refreshTimer)] is the truthiness
    of [null] or a number. *)
Definition debounceRefresh (t : timers) : timers :=
  let t1 :=
    match refreshTimer t with
    | Some h => if h =? 0 then t else clearTimeout h t
    | None => t
    end in
  let '(h, t2) := setTimeout REFRESH_DEBOUNCE_MS t1 in
  {| now := now t2; next_handle := next_handle t2;
     scheduled := scheduled t2;
     refreshTimer := Some h; refresh_runs := refresh_runs t2 |}.

(** The timeout with handle [h] fires at time [due]: it leaves the queue
    and its callback runs [refresh(); refreshTimer = null]. *)
Definition fire (h due : Z) (t : timers) : timers :=
  {| now := Z.max (now t) due; next_handle := next_handle t;
     scheduled := filter (fun e => fst e ≠ h) (scheduled t);
     refreshTimer := None;
     refresh_runs := refresh_runs t ++ [due] |}.

(** The timeout to run next among those due by [target]: the earliest due
    time, the earlier scheduled one among equals. *)
Fixpoint next_due (target : Z) (l : list (Z * Z)) : option (Z * Z) :=
  match l with
  | [] => None
  | (h, due) :: l' =>
      match next_due target l' with
      | Some (h', due') =>
          if (due <=? target) && (due <=? due') then Some (h, due)
          else Some (h', due')
      | None => if due <=? target then Some (h, due) else None
      end
  end.

Fixpoint run_due (fuel : nat) (target : Z) (t : timers) : timers :=
  match fuel with
  | O => t
  | S fuel' =>
      match next_due target (scheduled t) with
      | Some (h, due) => run_due fuel' target (fire h due t)
      | None => t
      end
  end.

(** Time passes until [target]: every timeout due by then fires, in order
    of due time.  A callback schedules nothing, so one round per pending
    timeout is enough (see [advance_none_due]). *)
Definition advance (target : Z) (t : timers) : timers :=
  let t' := run_due (length (scheduled t)) target t in
  {| now := Z.max (now t') target; next_handle := next_handle t';
     scheduled := scheduled t'; refreshTimer := refreshTimer t';
     refresh_runs := refresh_runs t' |}.

(** What happens to the timer state: time passes, or the script calls
    [debounceRefresh()]. *)
Inductive timer_event : Type :=
| Elapse (until : Z)
| Request.

Definition timer_step (t : timers) (e : timer_event) : timers :=
  match e with
  | Elapse target => advance target t
  | Request => debounceRefresh t
  end.

Definition timer_run (es : list timer_event) (t : timers) : timers :=
  fold_left timer_step es t.

(** Calls of [debounceRefresh()] at the given times. *)
Definition requests_at (times : list Z) : list timer_event :=
  flat_map (fun c => [Elapse c; Request]) times.

(** Consecutive call times: never going back, less than the debounce
    interval apart. *)
Fixpoint burst (first : Z) (later : list Z) : Prop :=
  match later with
  | [] => True
  | c :: later' => first <= c < first + REFRESH_DEBOUNCE_MS /\ burst c later'
  end.

Local Close Scope Z_scope.

(* ===================================================================== *)
(** ** The document *)
(* ===================================================================== *)

(** The document is a tree of elements and text nodes.  The script finds
    an element with [getElementById] or [getElementsByClassName(...)[0]],
    that is, the first match in tree order, and then mutates it in place;
    here the tree is a value, and mutating the element found is replacing
    it by its image ([update_first]).  A node other than an element (a
    comment, say) behaves like a text node for the script. *)

(** The listener functions the script registers. *)
Inductive handler : Type :=
| onCheckboxClicked.

#[global] Instance handler_eq_dec : EqDecision handler.
Proof. solve_decision. Defined.

(** An element, with the attributes and properties the script reads or
    writes.  [anichart_listening] is the expando [_anichart_listening];
    [listeners] is the element's event listener list as (event type,
    callback). *)
Record element : Type := {
  localName : jsstring;
  id : jsstring;
  className : list jsstring;
  attributes : list (jsstring * jsstring);
  value : jsstring;
  checked : bool;
  anichart_listening : bool;
  listeners : list (jsstring * handler)
}.

Inductive node : Type :=
| Element (e : element) (childNodes : list node)
| Text (data : jsstring).

(** [node.nodeType]: 1 for an element, 3 for a text node. *)
Definition nodeType (n : node) : N :=
  match n with
  | Element _ _ => 1
  | Text _ => 3
  end.

Definition has_class (c : jsstring) (e : element) : bool :=
  bool_decide (c ∈ className e).

Definition has_id (i : jsstring) (e : element) : bool :=
  bool_decide (id e = i).

Definition has_localName (t : jsstring) (e : element) : bool :=
  bool_decide (localName e = t).

(** Some element of the subtree rooted at [n], [n] included, satisfies
    [p]. *)
Fixpoint subtree_any (p : element -> bool) (n : node) : bool :=
  match n with
  | Element e ch => p e || existsb (subtree_any p) ch
  | Text _ => false
  end.

(** [n.querySelector(sel)] finds something, for a selector [sel] that
    tests the element alone: some proper descendant satisfies [p]. *)
Definition querySelector_any (p : element -> bool) (n : node) : bool :=
  match n with
  | Element _ ch => existsb (subtree_any p) ch
  | Text _ => false
  end.

(** The first match in tree order is replaced by its image under [f];
    [None] when nothing in the subtree matches. *)
Fixpoint update_first (p : element -> bool) (f : node -> node) (n : node)
  : option node :=
  match n with
  | Text _ => None
  | Element e ch =>
      if p e then Some (f n)
      else
        option_map (Element e)
          ((fix in_forest (l : list node) : option (list node) :=
              match l with
              | [] => None
              | c :: l' =>
                  match update_first p f c with
                  | Some c' => Some (c' :: l')
                  | None => option_map (cons c) (in_forest l')
                  end
              end) ch)
  end.

Fixpoint update_first_in (p : element -> bool) (f : node -> node)
    (l : list node) : option (list node) :=
  match l with
  | [] => None
  | c :: l' =>
      match update_first p f c with
      | Some c' => Some (c' :: l')
      | None => option_map (cons c) (update_first_in p f l')
      end
  end.

(** Every proper descendant element satisfying [p] is replaced by its
    image under [g] (which keeps the children). *)
Fixpoint map_descendants (p : element -> bool) (g : element -> element)
    (n : node) : node :=
  match n with
  | Text d => Text d
  | Element e ch =>
      Element e
        (List.map (fun c =>
                     match map_descendants p g c with
                     | Element e' ch' => Element (if p e' then g e' else e') ch'
                     | Text d => Text d
                     end) ch)
  end.

(** The document: the children of [document.head] and of
    [document.body], in tree order.  The [html], [head] and [body]
    elements themselves are left out: they are taken to carry none of the
    ids and classes the script looks for. *)
Record Document : Type := {
  head_nodes : list node;
  body_nodes : list node
}.

Definition document_any (p : element -> bool) (d : Document) : bool :=
  existsb (subtree_any p) (head_nodes d) || existsb (subtree_any p) (body_nodes d).

Definition update_first_document (p : element -> bool) (f : node -> node)
    (d : Document) : option Document :=
  match update_first_in p f (head_nodes d) with
  | Some h => Some {| head_nodes := h; body_nodes := body_nodes d |}
  | None =>
      match update_first_in p f (body_nodes d) with
      | Some b => Some {| head_nodes := head_nodes d; body_nodes := b |}
      | None => None
      end
  end.

Definition new_element (name ident : jsstring) (classes : list jsstring)
    (attrs : list (jsstring * jsstring)) (val : jsstring) : element :=
  {| localName := name; id := ident; className := classes;
     attributes := attrs; value := val; checked := false;
     anichart_listening := false; listeners := [] |}.

(* ===================================================================== *)
(** ** [initializeCss] *)
(* ===================================================================== *)

Definition CSS_ID : jsstring := lit "anichart-filter-css".

Definition css_textContent : jsstring :=
  lit "
      .anichart-filter-html {
        display: inline-block;
        height: 25px;
        vertical-align: middle;
      }
      .anichart-filter-checkbox {
        width: 25px;
        height: 25px;
        display: inline-block;
        position: relative;
        cursor: pointer;
        user-select: none;
        margin-right: 6px;
      }
      .anichart-filter-checkbox input {
        position: absolute;
        opacity: 0;
        cursor: pointer;
        height: 0;
        width: 0;
      }
      .anichart-filter-checkmark {
        position: absolute;
        top: 0;
        left: 0;
        height: 25px;
        width: 25px;
        border-radius: 50%;
      }
      .anichart-filter-checkmark.green { background-color: #2e6017; }
      .anichart-filter-checkmark.yellow { background-color: #7b5f31; }
      .anichart-filter-checkmark.red { background-color: #742e3a; }
      .anichart-filter-checkmark.gray { background-color: #555e66; }
      .anichart-filter-checkbox input:checked ~ .anichart-filter-checkmark.green { background-color: #5DC12F; }
      .anichart-filter-checkbox input:checked ~ .anichart-filter-checkmark.red { background-color: #E85D75; }
      .anichart-filter-checkbox input:checked ~ .anichart-filter-checkmark.yellow { background-color: #F7BF63; }
      .anichart-filter-checkbox input:checked ~ .anichart-filter-checkmark.gray { background-color: #AABCCD; }
      .anichart-filter-checkmark:after {
        content: " ++ [34; 34]%N ++ lit ";
        position: absolute;
        display: none;
        box-sizing: content-box;
      }
      .anichart-filter-checkbox input:checked ~ .anichart-filter-checkmark:after {
        display: block;
      }
      .anichart-filter-checkbox .anichart-filter-checkmark:after {
        left: 9px;
        top: 6px;
        width: 5px;
        height: 8px;
        border: solid #2B2D42;
        border-width: 0 2px 2px 0;
        transform: rotate(45deg);
      }
      .anichart-filter-card-aired {
        outline: 2px dashed green;
      }".

(** The [style] element the script creates. *)
Definition css_node : node :=
  Element (new_element (lit "style") CSS_ID [] [] []) [Text css_textContent].

(** [initializeCss()] *)
Definition initializeCss (d : Document) : Document :=
  if document_any (has_id CSS_ID) d then d
  else {| head_nodes := head_nodes d ++ [css_node];
          body_nodes := body_nodes d |}.

(* ===================================================================== *)
(** ** [initializeHtml] *)
(* ===================================================================== *)

Definition HTML_ID : jsstring := lit "anichart-filter-html".

(** One [label] of the markup assigned to [root.innerHTML]. *)
Definition checkbox_label (color : jsstring) : node :=
  Element (new_element (lit "label") [] [lit "anichart-filter-checkbox"] [] [])
    [ Element (new_element (lit "input") [] []
                 [(lit "type", lit "checkbox"); (lit "value", color)] color) [];
      Element (new_element (lit "span") []
                 [lit "anichart-filter-checkmark"; color] [] []) [] ].

(** The [div] the script creates, with its markup. *)
Definition new_root : node :=
  Element (new_element (lit "div") HTML_ID [lit "anichart-filter-html"] [] [])
    (List.map checkbox_label KNOWN_COLORS).

(** [target.addEventListener(type, callback)]: a listener already in the
    list is not added again. *)
Definition addEventListener (type : jsstring) (callback : handler)
    (e : element) : element :=
  {| localName := localName e; id := id e; className := className e;
     attributes := attributes e; value := value e; checked := checked e;
     anichart_listening := anichart_listening e;
     listeners := if bool_decide ((type, callback) ∈ listeners e)
                  then listeners e
                  else listeners e ++ [(type, callback)] |}.

Definition set_listening (e : element) : element :=
  {| localName := localName e; id := id e; className := className e;
     attributes := attributes e; value := value e; checked := checked e;
     anichart_listening := true; listeners := listeners e |}.

Definition set_checked (b : bool) (e : element) : element :=
  {| localName := localName e; id := id e; className := className e;
     attributes := attributes e; value := value e; checked := b;
     anichart_listening := anichart_listening e; listeners := listeners e |}.

(** The body of the loop over the inputs of the root. *)
Definition restore_input (SELECTED_COLORS : ColorSet) (input : element)
  : element :=
  let input :=
    if negb (anichart_listening input)
    then set_listening (addEventListener (lit "change") onCheckboxClicked input)
    else input in
  set_checked (Set_has SELECTED_COLORS (value input)) input.

(** The loop over [root.getElementsByTagName("input")]. *)
Definition restore_inputs (SELECTED_COLORS : ColorSet) (root : node) : node :=
  map_descendants (has_localName (lit "input"))
    (restore_input SELECTED_COLORS) root.

(** [parent.insertBefore(child, parent.children[0] || null)]: before the
    first element child, or at the end when there is none. *)
Fixpoint insert_before_first_element (child : node) (l : list node)
  : list node :=
  match l with
  | [] => [child]
  | Element e ch :: l' => child :: Element e ch :: l'
  | Text d :: l' => Text d :: insert_before_first_element child l'
  end.

Definition insert_root (root parent : node) : node :=
  match parent with
  | Element e ch => Element e (insert_before_first_element root ch)
  | Text d => Text d
  end.

(** [initializeHtml()].  When no element has the root's id and the page
    has a [.filters] element, the root is created and inserted into the
    first of them; the inputs of the root, found or created, then get
    their listener and checked state. *)
Definition initializeHtml (SELECTED_COLORS : ColorSet) (d : Document)
  : Document :=
  match update_first_document (has_id HTML_ID)
          (restore_inputs SELECTED_COLORS) d with
  | Some d' => d'
  | None =>
      match update_first_document (has_class (lit "filters"))
              (insert_root (restore_inputs SELECTED_COLORS new_root)) d with
      | Some d' => d'
      | None => d
      end
  end.

(* ===================================================================== *)
(** ** [setupObservers]: the mutation watcher *)
(* ===================================================================== *)

(** A node named by a mutation record, as the callback finds it: its
    element ancestors at that moment (nearest first; none for a node that
    is detached) and the subtree below it. *)
Record observed : Type := {
  ancestors : list element;
  self : node
}.

(** [record.type]; [attributes_change] stands for the type written
    [attributes] in the script. *)
Inductive mutation_type : Type :=
| childList
| attributes_change
| characterData.

Record MutationRecord : Type := {
  type : mutation_type;
  addedNodes : list observed;
  removedNodes : list observed;
  target : observed
}.

(** The selector [.media-card, .airing-card] on one element. *)
Definition is_card (e : element) : bool :=
  has_class (lit "media-card") e || has_class (lit "airing-card") e.

Definition is_filters (e : element) : bool := has_class (lit "filters") e.

(** [node.matches(".media-card *, .airing-card *")]: some ancestor is a
    card. *)
Definition matches_inside_card (n : observed) : bool :=
  existsb is_card (ancestors n).

(** [target.closest?.(".media-card, .airing-card")] is truthy: the element
    or one of its ancestors is a card.  A node that is not an element has
    no [closest]. *)
Definition closest_card (n : observed) : bool :=
  match self n with
  | Element e _ => is_card e || existsb is_card (ancestors n)
  | Text _ => false
  end.

(** The two variables the callback closes over. *)
Record pending : Type := {
  pendingCardsChange : bool;
  pendingFiltersChange : bool
}.

Definition both_pending (st : pending) : bool :=
  pendingCardsChange st && pendingFiltersChange st.

(** The tests the inner loop makes on an element node. *)
Definition touches_filters (n : observed) : bool :=
  match self n with
  | Element e _ => is_filters e || querySelector_any is_filters (self n)
  | Text _ => false
  end.

Definition touches_cards (n : observed) : bool :=
  match self n with
  | Element e _ =>
      has_class (lit "media-card") e
      || has_class (lit "airing-card") e
      || matches_inside_card n
      || querySelector_any is_card (self n)
  | Text _ => false
  end.

(** The loop over [allNodes]: the flags after it and the number of nodes
    it iterated over. *)
Fixpoint for_nodes (st : pending) (allNodes : list observed) : pending * nat :=
  match allNodes with
  | [] => (st, O)
  | n :: rest =>
      if negb (nodeType (self n) =? 1)%N then
        let '(st', k) := for_nodes st rest in (st', S k)     (* continue *)
      else
        let st1 :=
          if touches_filters n
          then {| pendingCardsChange := pendingCardsChange st;
                  pendingFiltersChange := true |}
          else st in
        let st2 :=
          if touches_cards n
          then {| pendingCardsChange := true;
                  pendingFiltersChange := pendingFiltersChange st1 |}
          else st1 in
        if both_pending st2 then (st2, 1%nat)               (* break *)
        else let '(st', k) := for_nodes st2 rest in (st', S k)
  end.

(** The body of the loop over the records, after its [break] test. *)
Definition classify (st : pending) (m : MutationRecord) : pending :=
  match type m with
  | childList => fst (for_nodes st (addedNodes m ++ removedNodes m))
  | attributes_change =>
      if closest_card (target m)
      then {| pendingCardsChange := true;
              pendingFiltersChange := pendingFiltersChange st |}
      else st
  | characterData => st
  end.

(** The loop over [mutations]: the flags after it and the number of
    records whose body ran. *)
Fixpoint for_mutations (st : pending) (mutations : list MutationRecord)
  : pending * nat :=
  match mutations with
  | [] => (st, O)
  | m :: rest =>
      if both_pending st then (st, O)                       (* break *)
      else let '(st', k) := for_mutations (classify st m) rest in (st', S k)
  end.

(** The calls the callback makes. *)
Inductive call : Type :=
| call_initializeHtml
| call_debounceRefresh.

#[global] Instance call_eq_dec : EqDecision call.
Proof. solve_decision. Defined.

(** The observer callback: the flags it leaves behind and the calls it
    made, in order. *)
Definition observer_callback (st : pending) (mutations : list MutationRecord)
  : pending * list call :=
  let st := fst (for_mutations st mutations) in
  let '(st, calls1) :=
    if pendingFiltersChange st
    then ({| pendingCardsChange := pendingCardsChange st;
             pendingFiltersChange := false |}, [call_initializeHtml])
    else (st, []) in
  let '(st, calls2) :=
    if pendingCardsChange st
    then ({| pendingCardsChange := false;
             pendingFiltersChange := pendingFiltersChange st |},
          [call_debounceRefresh])
    else (st, []) in
  (st, calls1 ++ calls2).

(** The flags as [setupObservers] declares them. *)
Definition pending_init : pending :=
  {| pendingCardsChange := false; pendingFiltersChange := false |}.

(** The flags after the callback has handled the given batches in turn. *)
Definition pending_after (batches : list (list MutationRecord)) : pending :=
  fold_left (fun st b => fst (observer_callback st b)) batches pending_init.

(* ===================================================================== *)
(** ** [initialize]: the orchestrator *)
(* ===================================================================== *)

(** A registration made by [observer.observe(document.body, options)]. *)
Record observation : Type := {
  observer : nat;
  opt_childList : bool;
  opt_subtree : bool;
  opt_attributes : bool;
  opt_attributeFilter : list jsstring
}.

(** The state of one run of the script: the document, the selection, the
    timer state, the variable [mainObserver] ([None] for [null]) and the
    registrations made on [document.body]. *)
Record world : Type := {
  document : Document;
  SELECTED_COLORS : ColorSet;
  clock : timers;
  mainObserver : option nat;
  observations : list observation
}.

(** [setupObservers()] *)
Definition setupObservers (w : world) : world :=
  match mainObserver w with
  | Some _ => w
  | None =>
      let o := length (observations w) in
      {| document := document w; SELECTED_COLORS := SELECTED_COLORS w;
         clock := clock w; mainObserver := Some o;
         observations :=
           observations w ++
           [{| observer := o; opt_childList := true; opt_subtree := true;
               opt_attributes := true;
               opt_attributeFilter := [lit "style"] |}] |}
  end.

(** [initialize()] *)
Definition initialize (w : world) : world :=
  let w := {| document := initializeCss (document w);
              SELECTED_COLORS := SELECTED_COLORS w; clock := clock w;
              mainObserver := mainObserver w;
              observations := observations w |} in
  let w := {| document := initializeHtml (SELECTED_COLORS w) (document w);
              SELECTED_COLORS := SELECTED_COLORS w; clock := clock w;
              mainObserver := mainObserver w;
              observations := observations w |} in
  let w := setupObservers w in
  {| document := document w; SELECTED_COLORS := SELECTED_COLORS w;
     clock := debounceRefresh (clock w);
     mainObserver := mainObserver w; observations := observations w |}.

(** One run of the whole script on a page.  The variables of its closure
    start afresh: [SELECTED_COLORS] from the storage, [refreshTimer] and
    [mainObserver] as [null]; the document, the timer queue and the
    registrations are those of the page.  A throw in the initialiser of
    [SELECTED_COLORS] ends the run before [initialize] is called. *)
Definition script_run (localStorage : gmap jsstring jsstring) (t : timers)
    (d : Document) (obs : list observation) : completion world :=
  match SELECTED_COLORS_init localStorage with
  | Throw e => Throw e
  | Normal sel =>
      Normal (initialize
                {| document := d; SELECTED_COLORS := sel;
                   clock := {| now := now t; next_handle := next_handle t;
                               scheduled := scheduled t; refreshTimer := None;
                               refresh_runs := refresh_runs t |};
                   mainObserver := None; observations := obs |})
  end.

(** The number of elements the predicate holds of in the subtree. *)
Fixpoint count_in (p : element -> bool) (n : node) : nat :=
  match n with
  | Text _ => O
  | Element e ch =>
      ((if p e then 1 else 0) + list_sum (List.map (count_in p) ch))%nat
  end.

Definition document_count (p : element -> bool) (d : Document) : nat :=
  (list_sum (List.map (count_in p) (head_nodes d))
   + list_sum (List.map (count_in p) (body_nodes d)))%nat.

(* ===================================================================== *)
(** ** The vocabulary of the properties *)
(* ===================================================================== *)

Local Open Scope Z_scope.

(** The shape of every reachable timer state: nothing is scheduled and the
    variable is [null], or exactly one timeout is scheduled and the
    variable holds its handle. *)
Inductive timers_ok (t : timers) : Prop :=
| timers_idle :
    scheduled t = [] -> refreshTimer t = None -> 0 < next_handle t ->
    timers_ok t
| timers_pending (h due : Z) :
    scheduled t = [(h, due)] -> refreshTimer t = Some h -> 0 < h ->
    h < next_handle t -> timers_ok t.

(** The state in the middle of a burst: the last call was at time [c], its
    timeout is the only one pending, and nothing has run yet. *)
Record waiting (c : Z) (t : timers) : Prop := {
  waiting_now : now t = c;
  waiting_runs : refresh_runs t = [];
  waiting_handle : exists h, scheduled t = [(h, c + REFRESH_DEBOUNCE_MS)]
                             /\ refreshTimer t = Some h /\ 0 < h
                             /\ h < next_handle t
}.

Local Close Scope Z_scope.

(** [x] is the element of a node of the subtree rooted at the node. *)
Inductive occurs (x : element) : node -> Prop :=
| occurs_here (ch : list node) : occurs x (Element x ch)
| occurs_below (e : element) (ch : list node) (c : node) :
    c ∈ ch -> occurs x c -> occurs x (Element e ch).

(** The record reports the node as added or removed. *)
Definition adds_or_removes (m : MutationRecord) (n : observed) : Prop :=
  type m = childList /\ n ∈ addedNodes m ++ removedNodes m.

Definition card_element (e : element) : Prop :=
  lit "media-card" ∈ className e \/ lit "airing-card" ∈ className e.

Definition filters_element (e : element) : Prop :=
  lit "filters" ∈ className e.

(** The node is an element that satisfies [P] or has a descendant that
    does. *)
Definition is_or_contains (P : element -> Prop) (n : observed) : Prop :=
  exists x, occurs x (self n) /\ P x.

(** The node is an element below an element that satisfies [P]. *)
Definition is_inside (P : element -> Prop) (n : observed) : Prop :=
  (exists e ch, self n = Element e ch) /\ exists a, a ∈ ancestors n /\ P a.

(** The node is an element that satisfies [P] or is below one that does. *)
Definition is_or_inside (P : element -> Prop) (n : observed) : Prop :=
  exists e ch, self n = Element e ch /\ (P e \/ exists a, a ∈ ancestors n /\ P a).

(** What one record contributes to each flag. *)
Definition record_touches_filters (m : MutationRecord) : bool :=
  match type m with
  | childList => existsb touches_filters (addedNodes m ++ removedNodes m)
  | _ => false
  end.

Definition record_touches_cards (m : MutationRecord) : bool :=
  match type m with
  | childList => existsb touches_cards (addedNodes m ++ removedNodes m)
  | attributes_change => closest_card (target m)
  | characterData => false
  end.

(* ===================================================================== *)
(** ** Pages, batches and documents used as examples *)
(* ===================================================================== *)

(** The selection [{"gray"}] and [{"green"}]. *)
Definition only_gray : ColorSet := Set_add Set_empty (lit "gray").
Definition only_green : ColorSet := Set_add Set_empty (lit "green").

(** A card whose highlighter is not an HTML element and has no [style]. *)
Definition card_without_style : card :=
  {| classList := []; episode := None; highlighter := Some None;
     display := Some [] |}.

(** A visible card highlighted in red. *)
Definition red_card : card :=
  {| classList := []; episode := Some (lit "Ep 3 aired on Monday");
     highlighter := Some (Some (lit "--color-red: #e85d75;"));
     display := Some [] |}.

(** A card with no highlighter whose status text has the word. *)
Definition plain_aired_card : card :=
  {| classList := []; episode := Some (lit "has aired");
     highlighter := None; display := Some [] |}.

Definition page_of (cs : list card) : page :=
  {| cards := cs; resize_events := O; console_errors := [] |}.

(** A card that carries a stale marker: its status text says [airing]. *)
Definition stale_card : card :=
  {| classList := [lit "media-card"; AIRED_CLASS];
     episode := Some (lit "airing in 2 days");
     highlighter := None; display := Some [] |}.

(** A [div] with the given classes and children. *)
Definition div_with (classes : list jsstring) (ch : list node) : node :=
  Element (new_element (lit "div") [] classes [] []) ch.

(** Two mutation records: a style change on an element inside a card, and
    the insertion of an element that contains the controls container. *)
Definition style_change_in_card : MutationRecord :=
  {| type := attributes_change; addedNodes := []; removedNodes := [];
     target := {| ancestors := [new_element (lit "div") [] [lit "media-card"] [] []];
                  self := div_with [lit "cover"] [] |} |}.

Definition header_added : MutationRecord :=
  {| type := childList;
     addedNodes := [{| ancestors := [];
                       self := div_with [lit "header"]
                                 [div_with [lit "filters"] []] |}];
     removedNodes := [];
     target := {| ancestors := []; self := div_with [] [] |} |}.

(** A page with a controls container, and a script that has just
    started. *)
Definition fresh_world : world :=
  {| document := {| head_nodes := [];
                    body_nodes := [div_with [lit "filters"] [Text (lit "Filters")]] |};
     SELECTED_COLORS := only_green;
     clock := timers_start 0;
     mainObserver := None;
     observations := [] |}.


(* ===================================================================== *)
(** ** [saveState] and [JSON.stringify] *)
(* ===================================================================== *)

(** The selection while all its members are strings, as the ordered set a
    JavaScript [Set] is: the members in insertion order, none twice.  This
    is the selection of a script that started from a missing value or from
    a persisted array of strings; [onCheckboxClicked] adds and deletes
    strings only.  [[...set]] is the list itself. *)
Definition Set_add_string (v : jsstring) (members : list jsstring)
  : list jsstring :=
  if bool_decide (v ∈ members) then members else members ++ [v].

Definition Set_delete_string (v : jsstring) (members : list jsstring)
  : list jsstring :=
  filter (fun m => m ≠ v) members.

(** [new Set(array)] for an array of strings: the elements are added one
    after the other. *)
Definition Set_of_strings (array : list jsstring) : list jsstring :=
  fold_left (fun members v => Set_add_string v members) array [].

(** The selection as [refresh] and [initializeHtml] observe it. *)
Definition ColorSet_of (members : list jsstring) : ColorSet :=
  {| string_members := list_to_set members; other_members := false |}.

(** The lower-case hexadecimal digit of a value below 16. *)
Definition hex_digit (d : N) : N := if d <? 10 then 48 + d else 87 + d.

(** [UnicodeEscape]: a reverse solidus, [u], and four hexadecimal
    digits. *)
Definition unicode_escape (c : N) : jsstring :=
  [92; 117; hex_digit (c / 4096); hex_digit ((c / 256) mod 16);
   hex_digit ((c / 16) mod 16); hex_digit (c mod 16)].

(** The code units with a two-character escape in [JSON.stringify], and
    the character written after the reverse solidus. *)
Definition short_escape (c : N) : option N :=
  if c =? 8 then Some 98           (* backspace: b *)
  else if c =? 9 then Some 116     (* tab: t *)
  else if c =? 10 then Some 110    (* line feed: n *)
  else if c =? 12 then Some 102    (* form feed: f *)
  else if c =? 13 then Some 114    (* carriage return: r *)
  else if c =? 34 then Some 34     (* quotation mark *)
  else if c =? 92 then Some 92     (* reverse solidus *)
  else None.

(** [QuoteJSONString] without the enclosing quotation marks: control
    characters and lone surrogates are escaped, a surrogate pair and every
    other code unit is copied. *)
Fixpoint quote_units (s : jsstring) : jsstring :=
  match s with
  | [] => []
  | c :: r =>
      match short_escape c with
      | Some e => 92 :: e :: quote_units r
      | None =>
          if c <? 32 then unicode_escape c ++ quote_units r
          else if is_lead_surrogate c then
            match r with
            | d :: r' =>
                if is_trail_surrogate d then c :: d :: quote_units r'
                else unicode_escape c ++ quote_units r
            | [] => unicode_escape c
            end
          else if is_trail_surrogate c then unicode_escape c ++ quote_units r
          else c :: quote_units r
      end
  end.

Definition QuoteJSONString (s : jsstring) : jsstring :=
  34 :: quote_units s ++ [34].

(** The elements of an array, each quoted, separated by commas. *)
Fixpoint quoted_elements (l : list jsstring) : jsstring :=
  match l with
  | [] => []
  | [x] => QuoteJSONString x
  | x :: l' => QuoteJSONString x ++ 44 :: quoted_elements l'
  end.

(** [JSON.stringify(array)] for an array of strings. *)
Definition JSON_stringify (array : list jsstring) : jsstring :=
  91 :: quoted_elements array ++ [93].

(** [saveState()]: [localStorage.setItem], on a storage that takes the
    item, is the insertion into the map. *)
Definition saveState (members : list jsstring)
    (localStorage : gmap jsstring jsstring) : gmap jsstring jsstring :=
  <[ STORAGE_KEY := JSON_stringify members ]> localStorage.

(* ===================================================================== *)
(** ** [onCheckboxClicked] *)
(* ===================================================================== *)

(** What the listener reads and writes: the selection, the storage and
    the timer state. *)
Record script_state : Type := {
  selection : list jsstring;
  stored : gmap jsstring jsstring;
  timer_state : timers
}.

(** [onCheckboxClicked(e)], with [e.target] the check box that changed:
    its value joins or leaves the selection, the selection is saved, and
    a refresh is requested. *)
Definition onCheckboxClicked_call (target : element) (s : script_state)
  : script_state :=
  let v := value target in
  let members :=
    if checked target then Set_add_string v (selection s)
    else Set_delete_string v (selection s) in
  {| selection := members;
     stored := saveState members (stored s);
     timer_state := debounceRefresh (timer_state s) |}.

(* ===================================================================== *)
(** ** Looking elements up *)
(* ===================================================================== *)

(** The element that [getElementById] returns: the first in tree order
    that satisfies the test, with its subtree. *)
Fixpoint find_first (p : element -> bool) (n : node) : option node :=
  match n with
  | Text _ => None
  | Element e ch =>
      if p e then Some n
      else
        (fix in_forest (l : list node) : option node :=
           match l with
           | [] => None
           | c :: l' =>
               match find_first p c with
               | Some r => Some r
               | None => in_forest l'
               end
           end) ch
  end.

Fixpoint find_first_in (p : element -> bool) (l : list node) : option node :=
  match l with
  | [] => None
  | c :: l' =>
      match find_first p c with
      | Some r => Some r
      | None => find_first_in p l'
      end
  end.

(** [document.getElementById(i)] *)
Definition getElementById (i : jsstring) (d : Document) : option node :=
  match find_first_in (has_id i) (head_nodes d) with
  | Some r => Some r
  | None => find_first_in (has_id i) (body_nodes d)
  end.

(** The elements properly below a node, in tree order. *)
Fixpoint descendants (n : node) : list element :=
  match n with
  | Text _ => []
  | Element _ ch =>
      flat_map (fun c =>
                  match c with
                  | Element e _ => e :: descendants c
                  | Text _ => []
                  end) ch
  end.

(** [root.getElementsByTagName(name)] *)
Definition getElementsByTagName (name : jsstring) (root : node) : list element :=
  List.filter (has_localName name) (descendants root).

(* ===================================================================== *)
(** ** The calls of the observer callback *)
(* ===================================================================== *)

(** One of the two calls the observer callback makes, on the state of the
    run. *)
Definition run_call (c : call) (w : world) : world :=
  match c with
  | call_initializeHtml =>
      {| document := initializeHtml (SELECTED_COLORS w) (document w);
         SELECTED_COLORS := SELECTED_COLORS w; clock := clock w;
         mainObserver := mainObserver w; observations := observations w |}
  | call_debounceRefresh =>
      {| document := document w; SELECTED_COLORS := SELECTED_COLORS w;
         clock := debounceRefresh (clock w);
         mainObserver := mainObserver w; observations := observations w |}
  end.

(** The observer callback on a batch of records, with the calls it makes
    carried out in order; the document of [w] is the page as it is when
    the batch is delivered. *)
Definition observer_deliver (st : pending) (mutations : list MutationRecord)
    (w : world) : pending * world :=
  let '(st', calls) := observer_callback st mutations in
  (st', fold_left (fun w c => run_call c w) calls w).

(** The script run again on the page an earlier run left behind: the
    storage, the document, the timer queue and the registrations are the
    page's; the variables of the closure are new. *)
Definition script_rerun (localStorage : gmap jsstring jsstring)
    (r : completion world) : completion world :=
  match r with
  | Normal w =>
      script_run localStorage (clock w) (document w) (observations w)
  | Throw e => Throw e
  end.

(* ===================================================================== *)
(** ** More vocabulary *)
(* ===================================================================== *)

(** The iteration on the card throws: the card has a highlighter that has
    no [style], or a highlighter with one while the card itself has
    none. *)
Definition faults (c : card) : bool :=
  match highlighter c, display c with
  | Some None, _ => true
  | Some (Some _), None => true
  | _, _ => false
  end.

(** The loop of a pass gets to the card at index [i]: it starts the
    iteration of that card, because no card before it faults. *)
Definition pass_reaches (p : page) (i : nat) : bool :=
  forallb (fun c => negb (faults c)) (take i (cards p)).

(** Two strings that differ at most in the case of their ASCII letters. *)
Definition same_ignoring_case (p s : jsstring) : Prop :=
  List.map canonicalize p = List.map canonicalize s.

(** The text has, at its very start, the custom property prefix in some
    case followed by a letter. *)
Definition color_property_at_start (s : jsstring) : Prop :=
  exists p c rest, s = p ++ c :: rest /\
                   same_ignoring_case p (lit "--color-") /\ is_letter c = true.

Definition starts_with_letter (s : jsstring) : Prop :=
  match s with
  | c :: _ => is_letter c = true
  | [] => False
  end.

Local Open Scope Z_scope.

(** Call times that never go back. *)
Fixpoint nondecreasing (first : Z) (later : list Z) : Prop :=
  match later with
  | [] => True
  | c :: later' => first <= c /\ nondecreasing c later'
  end.

(** The calls that are followed by a full debounce interval without a
    call: those whose timeout gets to fire.  The last call is always
    one. *)
Fixpoint quiet_calls (first : Z) (later : list Z) : list Z :=
  match later with
  | [] => [first]
  | c :: later' =>
      if first + REFRESH_DEBOUNCE_MS <=? c then first :: quiet_calls c later'
      else quiet_calls c later'
  end.

(** The state after a call at time [c]: its timeout is the only one
    pending, and the refreshes [runs] have run. *)
Record waiting_since (runs : list Z) (c : Z) (t : timers) : Prop := {
  since_now : now t = c;
  since_runs : refresh_runs t = runs;
  since_handle : exists h, scheduled t = [(h, c + REFRESH_DEBOUNCE_MS)]
                           /\ refreshTimer t = Some h /\ 0 < h
                           /\ h < next_handle t
}.

(** The variable [refreshTimer] and the timer queue agree: nothing is
    pending and the variable is [null], or the variable holds the handle
    of the one pending timeout, which is not overdue and at most a
    debounce interval away. *)
Definition timers_consistent (t : timers) : Prop :=
  0 < next_handle t /\
  match scheduled t with
  | [] => refreshTimer t = None
  | [(h, due)] =>
      refreshTimer t = Some h /\ 0 < h < next_handle t /\
      now t < due <= now t + REFRESH_DEBOUNCE_MS
  | _ :: _ :: _ => False
  end.

Local Close Scope Z_scope.

(** The input of the root is restored: its box shows whether its colour is
    selected, and its listener is attached. *)
Definition input_restored (sel : ColorSet) (input : element) : Prop :=
  checked input = Set_has sel (value input) /\ anichart_listening input = true.

(* ===================================================================== *)
(** ** More examples *)
(* ===================================================================== *)


(** The record of the removal of a cover from a card: the card is the
    target, and the cover, detached by the removal, has no ancestors
    left. *)
Definition cover_removed_from_card : MutationRecord :=
  {| type := childList; addedNodes := [];
     removedNodes := [{| ancestors := []; self := div_with [lit "cover"] [] |}];
     target := {| ancestors := [];
                  self := div_with [lit "media-card"] [div_with [lit "title"] []] |} |}.

(** A selection with a quotation mark, a line feed and a lone surrogate in
    its members. *)
Definition awkward_members : list jsstring :=
  [lit "green"; [34; 92; 10]; [55357]].

(** The check box for [green], checked and unchecked. *)
Definition green_box (on : bool) : element :=
  set_checked on
    (new_element (lit "input") [] []
       [(lit "type", lit "checkbox"); (lit "value", lit "green")] (lit "green")).

(** A script that has nothing stored and nothing pending. *)
Definition idle_state (members : list jsstring) : script_state :=
  {| selection := members; stored := ∅; timer_state := timers_start 0 |}.


(** A page whose controls container has lost the root after a re-render,
    with the record of that re-render. *)
Definition rerendered_world : world :=
  {| document := {| head_nodes := [];
                    body_nodes := [div_with [lit "header"]
                                     [div_with [lit "filters"] []]] |};
     SELECTED_COLORS := only_green;
     clock := timers_start 0;
     mainObserver := Some O;
     observations := [] |}.

(* ===================================================================== *)
(** * Properties *)
(* ===================================================================== *)

(** ** Strings *)

Lemma strip_prefix_Some (p s rest : jsstring) :
  strip_prefix p s = Some rest <-> s = p ++ rest.
Proof.
  revert s; induction p as [|a p IH]; intros s; simpl.
  - split; [intros [= ->]; reflexivity | intros ->; reflexivity].
  - destruct s as [|b s]; [split; discriminate|].
    destruct (N.eqb_spec a b) as [->|Hne].
    + rewrite IH. split; [intros ->; reflexivity | intros [= ->]; reflexivity].
    + split; [discriminate | intros [= E _]; congruence].
Qed.

(** [includes] decides the substring relation. *)
Lemma includes_spec (hay needle : jsstring) :
  includes hay needle = true <-> exists a b, hay = a ++ needle ++ b.
Proof.
  induction hay as [|c hay IH]; simpl.
  - destruct (strip_prefix needle []) as [r|] eqn:E.
    + apply strip_prefix_Some in E. split; [|reflexivity].
      intros _. exists [], r. exact E.
    + split; [discriminate|]. intros (a & b & H).
      destruct a; [|discriminate]. simpl in H.
      assert (strip_prefix needle [] = Some b) by (apply strip_prefix_Some; exact H).
      congruence.
  - destruct (strip_prefix needle (c :: hay)) as [r|] eqn:E.
    + apply strip_prefix_Some in E. split; [|reflexivity].
      intros _. exists [], r. exact E.
    + rewrite IH. split.
      * intros (a & b & ->). exists (c :: a), b. reflexivity.
      * intros (a & b & H). destruct a as [|x a].
        -- simpl in H.
           assert (strip_prefix needle (c :: hay) = Some b)
             by (apply strip_prefix_Some; exact H).
           congruence.
        -- injection H as _ ->. exists a, b. reflexivity.
Qed.

(** ** [JSON.parse]: the fuel is enough *)

Lemma skip_ws_length (s : jsstring) : (length (skip_ws s) <= length s)%nat.
Proof.
  induction s as [|c s IH]; simpl; [lia|].
  destruct (is_ws c); simpl; lia.
Qed.

Lemma skip_ws_cons (s r : jsstring) (c : N) :
  skip_ws s = c :: r -> (S (length r) <= length s)%nat.
Proof.
  intros H. pose proof (skip_ws_length s) as Hl. rewrite H in Hl. exact Hl.
Qed.

Lemma span_length (p : N -> bool) (s : jsstring) :
  (length (span p s).2 <= length s)%nat.
Proof.
  induction s as [|c s IH]; simpl; [lia|].
  destruct (p c); simpl; [|lia].
  destruct (span p s) as [a b]. simpl in *. lia.
Qed.

Lemma strip_prefix_length (p s r : jsstring) :
  strip_prefix p s = Some r -> length s = (length p + length r)%nat.
Proof.
  intros H. apply strip_prefix_Some in H. subst s. apply length_app.
Qed.

Lemma parse_string_shorter (s v r : jsstring) :
  parse_string s = Some (v, r) -> (length r < length s)%nat.
Proof.
  remember (length s) as n eqn:Hn. revert s v r Hn.
  induction n as [n IH] using lt_wf_ind. intros s v r Hn.
  destruct s as [|c s]; [discriminate|]. simpl in Hn. simpl.
  destruct (c =? 34); [intros [= <- <-]; lia|].
  destruct (c =? 92).
  - destruct s as [|e r1]; [discriminate|].
    destruct (e =? 117).
    + destruct r1 as [|h1 [|h2 [|h3 [|h4 r2]]]]; try discriminate.
      destruct (hex4 h1 h2 h3 h4); [|discriminate].
      destruct (parse_string r2) as [[v' rest]|] eqn:E; [|discriminate].
      intros [= <- <-]. simpl in Hn.
      pose proof (IH (length r2) ltac:(lia) r2 v' rest eq_refl E). simpl. lia.
    + destruct (simple_escape e); [|discriminate].
      destruct (parse_string r1) as [[v' rest]|] eqn:E; [|discriminate].
      intros [= <- <-]. simpl in Hn.
      pose proof (IH (length r1) ltac:(lia) r1 v' rest eq_refl E). simpl. lia.
  - destruct (c <? 32); [discriminate|].
    destruct (parse_string s) as [[v' rest]|] eqn:E; [|discriminate].
    intros [= <- <-].
    pose proof (IH (length s) ltac:(lia) s v' rest eq_refl E). lia.
Qed.

Lemma parse_digits_length (s ds r : jsstring) :
  parse_digits s = Some (ds, r) -> (length r <= length s)%nat.
Proof.
  unfold parse_digits. pose proof (span_length is_digit s) as H.
  destruct (span is_digit s) as [[|d ds'] rest]; [discriminate|].
  intros [= <- <-]. exact H.
Qed.

Lemma parse_number_shorter (s n r : jsstring) :
  parse_number s = Some (n, r) -> (length r < length s)%nat.
Proof.
  unfold parse_number.
  set (m := match s with
            | [] => ([], s)
            | c :: r0 => if c =? 45 then ([c], r0) else ([], s)
            end).
  assert (Hm : (length m.2 <= length s)%nat).
  { subst m. destruct s as [|c s]; simpl; [lia|]. destruct (c =? 45); simpl; lia. }
  destruct m as [minus r0]. simpl in Hm.
  destruct (parse_int r0) as [[i r1]|] eqn:Ei; [|discriminate].
  assert (H1 : (length r1 < length r0)%nat).
  { unfold parse_int in Ei. destruct r0 as [|c r0']; [discriminate|].
    destruct (c =? 48); [injection Ei as <- <-; simpl; lia|].
    destruct (is_digit c); [|discriminate].
    pose proof (span_length is_digit r0') as Hs.
    destruct (span is_digit r0') as [ds rest]. injection Ei as <- <-.
    simpl in *. lia. }
  destruct (parse_frac r1) as [[f r2]|] eqn:Ef; [|discriminate].
  assert (H2 : (length r2 <= length r1)%nat).
  { unfold parse_frac in Ef. destruct r1 as [|c r1']; [injection Ef as <- <-; lia|].
    destruct (c =? 46).
    - destruct (parse_digits r1') as [[ds rest]|] eqn:Ed; [|discriminate].
      apply parse_digits_length in Ed. injection Ef as <- <-. simpl. lia.
    - injection Ef as <- <-. lia. }
  destruct (parse_exp r2) as [[e r3]|] eqn:Ee; [|discriminate].
  assert (H3 : (length r3 <= length r2)%nat).
  { unfold parse_exp in Ee. destruct r2 as [|c r2']; [injection Ee as <- <-; lia|].
    destruct ((c =? 101) || (c =? 69)).
    - set (sg := match r2' with
                 | [] => ([], r2')
                 | d :: r' => if (d =? 43) || (d =? 45) then ([d], r') else ([], r2')
                 end) in Ee.
      assert (Hsg : (length sg.2 <= length r2')%nat).
      { subst sg. destruct r2' as [|d r']; simpl; [lia|].
        destruct ((d =? 43) || (d =? 45)); simpl; lia. }
      destruct sg as [sign r1']. simpl in Hsg.
      destruct (parse_digits r1') as [[ds rest]|] eqn:Ed; [|discriminate].
      apply parse_digits_length in Ed. injection Ee as <- <-. simpl. lia.
    - injection Ee as <- <-. lia. }
  intros [= <- <-]. lia.
Qed.

Lemma parse_literal_shorter (s r : jsstring) (v : json) :
  parse_literal s = Some (v, r) -> (length r < length s)%nat.
Proof.
  unfold parse_literal.
  destruct (strip_prefix (lit "true") s) as [r1|] eqn:E1.
  - intros [= <- <-]. apply strip_prefix_length in E1. simpl in E1. lia.
  - destruct (strip_prefix (lit "false") s) as [r2|] eqn:E2.
    + intros [= <- <-]. apply strip_prefix_length in E2. simpl in E2. lia.
    + destruct (strip_prefix (lit "null") s) as [r3|] eqn:E3; [|discriminate].
      intros [= <- <-]. apply strip_prefix_length in E3. simpl in E3. lia.
Qed.

(** Every parser consumes at least one character when it succeeds. *)
Lemma parse_shorter (f : nat) :
  (forall s v r, parse_value f s = Some (v, r) -> (length r < length s)%nat) /\
  (forall s vs r, parse_elements f s = Some (vs, r) -> (length r < length s)%nat) /\
  (forall s ms r, parse_members f s = Some (ms, r) -> (length r < length s)%nat).
Proof.
  induction f as [|f (IHv & IHe & IHm)]; [repeat split; discriminate|].
  split; [|split].
  - intros s v r. simpl.
    destruct (skip_ws s) as [|c r0] eqn:Es; [discriminate|].
    apply skip_ws_cons in Es.
    destruct (c =? 91).
    { destruct (skip_ws r0) as [|d r'] eqn:Er; [discriminate|].
      apply skip_ws_cons in Er.
      destruct (d =? 93); [intros [= <- <-]; lia|].
      destruct (parse_elements f r0) as [[vs rest]|] eqn:E; [|discriminate].
      apply IHe in E. intros [= <- <-]. lia. }
    destruct (c =? 123).
    { destruct (skip_ws r0) as [|d r'] eqn:Er; [discriminate|].
      apply skip_ws_cons in Er.
      destruct (d =? 125); [intros [= <- <-]; lia|].
      destruct (parse_members f r0) as [[ms rest]|] eqn:E; [|discriminate].
      apply IHm in E. intros [= <- <-]. lia. }
    destruct (c =? 34).
    { destruct (parse_string r0) as [[v' rest]|] eqn:E; [|discriminate].
      apply parse_string_shorter in E. intros [= <- <-]. lia. }
    destruct ((c =? 45) || is_digit c).
    { destruct (parse_number (c :: r0)) as [[n rest]|] eqn:E; [|discriminate].
      apply parse_number_shorter in E. intros [= <- <-]. simpl in E. lia. }
    intros E. apply parse_literal_shorter in E. simpl in E. lia.
  - intros s vs r. simpl.
    destruct (parse_value f s) as [[v r0]|] eqn:E; [|discriminate].
    apply IHv in E.
    destruct (skip_ws r0) as [|c r'] eqn:Es; [discriminate|].
    apply skip_ws_cons in Es.
    destruct (c =? 44).
    { destruct (parse_elements f r') as [[vs' rest]|] eqn:E'; [|discriminate].
      apply IHe in E'. intros [= <- <-]. lia. }
    destruct (c =? 93); [|discriminate]. intros [= <- <-]. lia.
  - intros s ms r. simpl.
    destruct (skip_ws s) as [|q r0] eqn:Es; [discriminate|].
    apply skip_ws_cons in Es.
    destruct (q =? 34); [|discriminate].
    destruct (parse_string r0) as [[k r1]|] eqn:Ek; [|discriminate].
    apply parse_string_shorter in Ek.
    destruct (skip_ws r1) as [|colon r2] eqn:E1; [discriminate|].
    apply skip_ws_cons in E1.
    destruct (colon =? 58); [|discriminate].
    destruct (parse_value f r2) as [[v r3]|] eqn:Ev; [|discriminate].
    apply IHv in Ev.
    destruct (skip_ws r3) as [|c r4] eqn:E3; [discriminate|].
    apply skip_ws_cons in E3.
    destruct (c =? 44).
    { destruct (parse_members f r4) as [[ms' rest]|] eqn:E'; [|discriminate].
      apply IHm in E'. intros [= <- <-]. lia. }
    destruct (c =? 125); [|discriminate]. intros [= <- <-]. lia.
Qed.

(** With fuel above twice the length of the text, the result no longer
    depends on the fuel. *)
Lemma parse_fuel_enough (f1 : nat) :
  (forall s f2, (2 * length s + 1 <= f1)%nat -> (2 * length s + 1 <= f2)%nat ->
                parse_value f1 s = parse_value f2 s) /\
  (forall s f2, (2 * length s + 2 <= f1)%nat -> (2 * length s + 2 <= f2)%nat ->
                parse_elements f1 s = parse_elements f2 s) /\
  (forall s f2, (2 * length s + 2 <= f1)%nat -> (2 * length s + 2 <= f2)%nat ->
                parse_members f1 s = parse_members f2 s).
Proof.
  induction f1 as [|f1 (IHv & IHe & IHm)]; [repeat split; intros; lia|].
  split; [|split].
  - intros s [|f2] H1 H2; [lia|]. simpl.
    destruct (skip_ws s) as [|c r0] eqn:Es; [reflexivity|].
    apply skip_ws_cons in Es.
    rewrite (IHe r0 f2) by lia. rewrite (IHm r0 f2) by lia. reflexivity.
  - intros s [|f2] H1 H2; [lia|]. simpl.
    rewrite (IHv s f2) by lia.
    destruct (parse_value f2 s) as [[v r0]|] eqn:E; [|reflexivity].
    apply (proj1 (parse_shorter f2)) in E.
    destruct (skip_ws r0) as [|c r'] eqn:Es; [reflexivity|].
    apply skip_ws_cons in Es.
    rewrite (IHe r' f2) by lia. reflexivity.
  - intros s [|f2] H1 H2; [lia|]. simpl.
    destruct (skip_ws s) as [|q r0] eqn:Es; [reflexivity|].
    apply skip_ws_cons in Es.
    destruct (q =? 34); [|reflexivity].
    destruct (parse_string r0) as [[k r1]|] eqn:Ek; [|reflexivity].
    apply parse_string_shorter in Ek.
    destruct (skip_ws r1) as [|colon r2] eqn:E1; [reflexivity|].
    apply skip_ws_cons in E1.
    destruct (colon =? 58); [|reflexivity].
    rewrite (IHv r2 f2) by lia.
    destruct (parse_value f2 r2) as [[v r3]|] eqn:Ev; [|reflexivity].
    apply (proj1 (parse_shorter f2)) in Ev.
    destruct (skip_ws r3) as [|c r4] eqn:E3; [reflexivity|].
    apply skip_ws_cons in E3.
    rewrite (IHm r4 f2) by lia. reflexivity.
Qed.

(** [JSON_parse] gives the result of the parser run with any larger amount
    of fuel: its answer is not an artefact of the bound. *)
Lemma parse_value_fuel (s : jsstring) (f : nat) :
  (parse_fuel s <= f)%nat -> parse_value f s = parse_value (parse_fuel s) s.
Proof.
  intros H. unfold parse_fuel in *.
  apply (proj1 (parse_fuel_enough f)); lia.
Qed.

(** ** The persisted selection *)

Lemma JSON_parse_empty : JSON_parse [] = None.
Proof. reflexivity. Qed.

Lemma or_else_nonempty (s d : jsstring) : s <> [] -> or_else (Some s) d = s.
Proof. destruct s; [congruence | reflexivity]. Qed.

Lemma json_strings_JStr (l : list jsstring) : json_strings (List.map JStr l) = l.
Proof.
  unfold json_strings. induction l as [|x l IH]; simpl; [reflexivity|].
  f_equal. exact IH.
Qed.

Lemma no_other_member_JStr (l : list jsstring) :
  existsb (fun v => negb (json_is_string v)) (List.map JStr l) = false.
Proof. induction l as [|x l IH]; simpl; [reflexivity | exact IH]. Qed.

(** What the initialiser does with a value that is there and not empty. *)
Lemma SELECTED_COLORS_init_stored (localStorage : gmap jsstring jsstring)
    (s : jsstring) :
  localStorage !! STORAGE_KEY = Some s -> s <> [] ->
  SELECTED_COLORS_init localStorage =
    match JSON_parse s with
    | None => Throw SyntaxError
    | Some v => new_Set v
    end.
Proof.
  intros Hs Hne. unfold SELECTED_COLORS_init.
  rewrite Hs, or_else_nonempty by exact Hne. reflexivity.
Qed.

(** ** The colour pattern *)

Lemma COLOR_RE_at_nonempty (s : jsstring) : COLOR_RE_at s <> Some [].
Proof.
  unfold COLOR_RE_at. destruct (strip_prefix_ci _ s) as [rest|]; [|discriminate].
  destruct (span is_letter rest) as [[|c name] r]; discriminate.
Qed.

(** Capture group 1 of a match is never the empty string. *)
Lemma COLOR_RE_exec_nonempty (s : jsstring) : COLOR_RE_exec s <> Some [].
Proof.
  induction s as [|c s IH]; simpl.
  - pose proof (COLOR_RE_at_nonempty []) as H.
    destruct (COLOR_RE_at []); [congruence | discriminate].
  - pose proof (COLOR_RE_at_nonempty (c :: s)) as H.
    destruct (COLOR_RE_at (c :: s)); [congruence | exact IH].
Qed.

Lemma Set_has_true (S : ColorSet) (t : jsstring) :
  Set_has S t = true <-> t ∈ string_members S.
Proof. unfold Set_has. rewrite bool_decide_eq_true. reflexivity. Qed.

Lemma Set_has_false (S : ColorSet) (t : jsstring) :
  Set_has S t = false <-> t ∉ string_members S.
Proof. unfold Set_has. rewrite bool_decide_eq_false. reflexivity. Qed.

(** The visibility expression, case by case on the token. *)
Lemma show_token (nf : bool) (t : jsstring) (S : ColorSet) :
  t <> [] -> show nf (Some t) S = nf || Set_has S t.
Proof.
  intros Ht. unfold show. destruct t as [|c t]; [congruence|]. simpl.
  rewrite orb_false_r. reflexivity.
Qed.

Lemma show_absent (nf : bool) (S : ColorSet) :
  show nf None S = nf || Set_has S (lit "gray").
Proof. unfold show. simpl. rewrite orb_false_r. reflexivity. Qed.

(** ** The refresh pass *)

Section RefreshPass.

Variable sel : ColorSet.
Variable nf : bool.

(** The loop keeps the number of cards and starts at most one iteration
    per card. *)
Lemma for_cards_length (cs : list card) :
  length (for_cards sel nf cs).1.1 = length cs.
Proof.
  induction cs as [|c cs IH]; simpl; [reflexivity|].
  destruct (loop_body sel nf c) as [c' [[]|e]]; simpl; [|reflexivity].
  destruct (for_cards sel nf cs) as [[cs' r] n]. simpl in *. f_equal. exact IH.
Qed.

Lemma for_cards_enumerated_le (cs : list card) :
  ((for_cards sel nf cs).2 <= length cs)%nat.
Proof.
  induction cs as [|c cs IH]; simpl; [lia|].
  destruct (loop_body sel nf c) as [c' [[]|e]]; simpl; [|lia].
  destruct (for_cards sel nf cs) as [[cs' r] n]. simpl in *. lia.
Qed.

(** A card the loop iterated over is left as its iteration left it. *)
Lemma for_cards_lookup_lt (cs : list card) (i : nat) (c : card) :
  cs !! i = Some c -> (i < (for_cards sel nf cs).2)%nat ->
  (for_cards sel nf cs).1.1 !! i = Some (loop_body sel nf c).1.
Proof.
  revert i; induction cs as [|c0 cs IH]; intros i Hc Hi; [discriminate|].
  simpl in *.
  destruct (loop_body sel nf c0) as [c' [[]|e]] eqn:Eb; simpl in *.
  - destruct (for_cards sel nf cs) as [[cs' r] n] eqn:Ef. simpl in *.
    destruct i as [|i]; simpl in *.
    + injection Hc as <-. rewrite Eb. reflexivity.
    + apply IH; [exact Hc | lia].
  - destruct i as [|i]; [|lia]. simpl in *.
    injection Hc as <-. rewrite Eb. reflexivity.
Qed.

(** A card the loop did not reach is untouched. *)
Lemma for_cards_lookup_ge (cs : list card) (i : nat) :
  ((for_cards sel nf cs).2 <= i)%nat ->
  (for_cards sel nf cs).1.1 !! i = cs !! i.
Proof.
  revert i; induction cs as [|c0 cs IH]; intros i Hi; [reflexivity|].
  simpl in *.
  destruct (loop_body sel nf c0) as [c' [[]|e]] eqn:Eb; simpl in *.
  - destruct (for_cards sel nf cs) as [[cs' r] n] eqn:Ef. simpl in *.
    destruct i as [|i]; [lia|]. simpl. apply IH. lia.
  - destruct i as [|i]; [lia|]. reflexivity.
Qed.

(** The loop completes normally exactly when it iterated over every
    card and no iteration threw. *)
Lemma for_cards_normal (cs : list card) :
  (for_cards sel nf cs).1.2 = Normal tt ->
  (for_cards sel nf cs).2 = length cs /\
  forall i c, cs !! i = Some c -> (loop_body sel nf c).2 = Normal tt.
Proof.
  induction cs as [|c0 cs IH]; simpl.
  - intros _. split; [reflexivity|]. intros i c H. discriminate.
  - destruct (loop_body sel nf c0) as [c' [[]|e]] eqn:Eb; simpl; [|discriminate].
    destruct (for_cards sel nf cs) as [[cs' r] n] eqn:Ef. simpl in *.
    intros Hr. destruct (IH Hr) as [Hn Hall]. split; [f_equal; exact Hn|].
    intros [|i] c Hc; simpl in Hc.
    + injection Hc as <-. rewrite Eb. reflexivity.
    + eapply Hall; exact Hc.
Qed.

(** When the loop throws, the error comes from the last card it
    iterated over, and every earlier iteration completed normally. *)
Lemma for_cards_throw (cs : list card) (e : error) :
  (for_cards sel nf cs).1.2 = Throw e ->
  exists k c,
    (for_cards sel nf cs).2 = S k /\
    cs !! k = Some c /\ (loop_body sel nf c).2 = Throw e /\
    forall i c', (i < k)%nat -> cs !! i = Some c' ->
                 (loop_body sel nf c').2 = Normal tt.
Proof.
  induction cs as [|c0 cs IH]; simpl; [discriminate|].
  destruct (loop_body sel nf c0) as [c' [[]|e0]] eqn:Eb; simpl.
  - destruct (for_cards sel nf cs) as [[cs' r] n] eqn:Ef. simpl in *.
    intros Hr. destruct (IH Hr) as (k & c & Hn & Hk & Ht & Hbefore).
    exists (S k), c. repeat split; [f_equal; exact Hn | exact Hk | exact Ht |].
    intros [|i] c1 Hi Hc1; simpl in Hc1.
    + injection Hc1 as <-. rewrite Eb. reflexivity.
    + eapply Hbefore; [|exact Hc1]. lia.
  - intros [= ->]. exists O, c0. repeat split; [rewrite Eb; reflexivity|].
    intros i c1 Hi. lia.
Qed.

End RefreshPass.

(** The pass in terms of the page. *)
Lemma refresh_try_for_cards (sel : ColorSet) (p : page) :
  refresh_try sel p =
    ({| cards := (for_cards sel (Set_size_is_zero sel) (cards p)).1.1;
        resize_events := S (resize_events p);
        console_errors := console_errors p |},
     (for_cards sel (Set_size_is_zero sel) (cards p)).1.2,
     (for_cards sel (Set_size_is_zero sel) (cards p)).2).
Proof.
  unfold refresh_try. destruct (cards p) as [|c cs] eqn:Ec; [reflexivity|].
  destruct (for_cards sel (Set_size_is_zero sel) (c :: cs)) as [[cs' r] n].
  reflexivity.
Qed.

Lemma refreshed_cards (sel : ColorSet) (p : page) :
  cards (refreshed sel p) = (for_cards sel (Set_size_is_zero sel) (cards p)).1.1.
Proof.
  unfold refreshed, refresh. rewrite refresh_try_for_cards.
  destruct ((for_cards sel (Set_size_is_zero sel) (cards p)).1.2) as [u|e];
    reflexivity.
Qed.

Lemma cards_enumerated_for_cards (sel : ColorSet) (p : page) :
  cards_enumerated sel p = (for_cards sel (Set_size_is_zero sel) (cards p)).2.
Proof. unfold cards_enumerated. rewrite refresh_try_for_cards. reflexivity. Qed.

(** A card the pass enumerated is left as one iteration of the loop body
    leaves it. *)
Lemma refreshed_enumerated (sel : ColorSet) (p : page) (i : nat) (c : card) :
  cards p !! i = Some c -> (i < cards_enumerated sel p)%nat ->
  cards (refreshed sel p) !! i = Some (loop_body sel (Set_size_is_zero sel) c).1.
Proof.
  rewrite refreshed_cards, cards_enumerated_for_cards.
  apply for_cards_lookup_lt.
Qed.

(** A card the pass did not reach is untouched. *)
Lemma refreshed_not_enumerated (sel : ColorSet) (p : page) (i : nat) :
  (cards_enumerated sel p <= i)%nat ->
  cards (refreshed sel p) !! i = cards p !! i.
Proof.
  rewrite refreshed_cards, cards_enumerated_for_cards.
  apply for_cards_lookup_ge.
Qed.

(** The loop body and the card's fields. *)
Lemma loop_body_no_highlighter (sel : ColorSet) (nf : bool) (c : card) :
  highlighter c = None -> loop_body sel nf c = (mark_aired c, Normal tt).
Proof.
  intros H. unfold loop_body.
  replace (highlighter (mark_aired c)) with (highlighter c)
    by (unfold mark_aired; destruct (has_aired c); reflexivity).
  rewrite H. reflexivity.
Qed.

Lemma mark_aired_display (c : card) : display (mark_aired c) = display c.
Proof. unfold mark_aired. destruct (has_aired c); reflexivity. Qed.

Lemma mark_aired_highlighter (c : card) :
  highlighter (mark_aired c) = highlighter c.
Proof. unfold mark_aired. destruct (has_aired c); reflexivity. Qed.

Lemma loop_body_classList (sel : ColorSet) (nf : bool) (c : card) :
  classList (loop_body sel nf c).1 = classList (mark_aired c).
Proof.
  unfold loop_body. destruct (highlighter (mark_aired c)) as [[css|]|];
    [|reflexivity|reflexivity].
  destruct (display (mark_aired c)); reflexivity.
Qed.

Lemma classList_add_contains (l : list jsstring) (x : jsstring) :
  x ∈ classList_add l x.
Proof.
  unfold classList_add, classList_contains. case_bool_decide as H; [exact H|].
  apply elem_of_app. right. apply list_elem_of_singleton. reflexivity.
Qed.

Lemma classList_remove_contains (l : list jsstring) (x : jsstring) :
  x ∉ classList_remove l x.
Proof.
  unfold classList_remove. intros H. apply list_elem_of_filter in H.
  destruct H as [H _]. apply H. reflexivity.
Qed.

(** After the marker step the card carries the marker class exactly when
    its status text contains the word. *)
Lemma mark_aired_spec (c : card) :
  AIRED_CLASS ∈ classList (mark_aired c) <-> has_aired c = true.
Proof.
  unfold mark_aired. destruct (has_aired c); simpl.
  - split; [reflexivity|]. intros _. apply classList_add_contains.
  - split; [|discriminate]. intros H.
    exfalso. exact (classList_remove_contains _ _ H).
Qed.

Lemma has_aired_spec (c : card) :
  has_aired c = true <->
  exists text a b, episode c = Some text /\ text = a ++ lit "aired" ++ b.
Proof.
  unfold has_aired. destruct (episode c) as [text|].
  - rewrite includes_spec. split.
    + intros (a & b & H). exists text, a, b. split; [reflexivity | exact H].
    + intros (t & a & b & [= <-] & H). exists a, b. exact H.
  - split; [discriminate|]. intros (t & a & b & H & _). discriminate.
Qed.

(** ** The debounce timer *)

Local Open Scope Z_scope.

Lemma filter_handle_single (h due : Z) :
  filter (fun e : Z * Z => e.1 ≠ h) [(h, due)] = [].
Proof.
  rewrite filter_cons. simpl. rewrite decide_False by (intros H; apply H; reflexivity).
  reflexivity.
Qed.

Lemma advance_idle (T : Z) (t : timers) :
  scheduled t = [] ->
  advance T t =
    {| now := Z.max (now t) T; next_handle := next_handle t; scheduled := [];
       refreshTimer := refreshTimer t; refresh_runs := refresh_runs t |}.
Proof. intros H. unfold advance. rewrite H. simpl. rewrite H. reflexivity. Qed.

Lemma advance_before_due (T h due : Z) (t : timers) :
  scheduled t = [(h, due)] -> T < due ->
  advance T t =
    {| now := Z.max (now t) T; next_handle := next_handle t;
       scheduled := [(h, due)];
       refreshTimer := refreshTimer t; refresh_runs := refresh_runs t |}.
Proof.
  intros H Hlt. unfold advance. rewrite H. simpl. rewrite H. simpl.
  destruct (Z.leb_spec due T); [lia|]. rewrite H. reflexivity.
Qed.

Lemma advance_fires (T h due : Z) (t : timers) :
  scheduled t = [(h, due)] -> due <= T ->
  advance T t =
    {| now := Z.max (Z.max (now t) due) T; next_handle := next_handle t;
       scheduled := []; refreshTimer := None;
       refresh_runs := refresh_runs t ++ [due] |}.
Proof.
  intros H Hle. unfold advance. rewrite H. simpl. rewrite H. simpl.
  destruct (Z.leb_spec due T); [|lia].
  unfold fire. simpl. rewrite H, filter_handle_single. reflexivity.
Qed.

Lemma debounceRefresh_idle (t : timers) :
  scheduled t = [] -> refreshTimer t = None ->
  debounceRefresh t =
    {| now := now t; next_handle := next_handle t + 1;
       scheduled := [(next_handle t, now t + REFRESH_DEBOUNCE_MS)];
       refreshTimer := Some (next_handle t); refresh_runs := refresh_runs t |}.
Proof. intros H1 H2. unfold debounceRefresh. rewrite H2. simpl. rewrite H1. reflexivity. Qed.

(** A pending timeout is cancelled before the new one is scheduled. *)
Lemma debounceRefresh_pending (h due : Z) (t : timers) :
  scheduled t = [(h, due)] -> refreshTimer t = Some h -> 0 < h ->
  debounceRefresh t =
    {| now := now t; next_handle := next_handle t + 1;
       scheduled := [(next_handle t, now t + REFRESH_DEBOUNCE_MS)];
       refreshTimer := Some (next_handle t); refresh_runs := refresh_runs t |}.
Proof.
  intros H1 H2 Hh. unfold debounceRefresh. rewrite H2.
  destruct (Z.eqb_spec h 0); [lia|]. simpl.
  rewrite H1, filter_handle_single. reflexivity.
Qed.

Lemma timers_ok_step (t : timers) (e : timer_event) :
  timers_ok t -> timers_ok (timer_step t e).
Proof.
  intros [Hs Hr Hn | h due Hs Hr Hh Hn]; destruct e as [T|]; simpl.
  - rewrite advance_idle by exact Hs. apply timers_idle; simpl; auto.
  - rewrite debounceRefresh_idle by assumption.
    eapply timers_pending; simpl; try reflexivity; lia.
  - destruct (Z.lt_ge_cases T due).
    + erewrite advance_before_due by eassumption.
      eapply timers_pending; simpl; eassumption || reflexivity.
    + erewrite advance_fires by eassumption.
      apply timers_idle; simpl; try reflexivity. lia.
  - erewrite debounceRefresh_pending by eassumption.
    eapply timers_pending; simpl; try reflexivity; lia.
Qed.

Lemma timers_ok_run (es : list timer_event) (t : timers) :
  timers_ok t -> timers_ok (timer_run es t).
Proof.
  revert t; induction es as [|e es IH]; intros t Ht; simpl; [exact Ht|].
  apply IH, timers_ok_step, Ht.
Qed.

Lemma timers_ok_start (t0 : Z) : timers_ok (timers_start t0).
Proof. apply timers_idle; simpl; [reflexivity | reflexivity | lia]. Qed.

Lemma timers_ok_at_most_one (t : timers) :
  timers_ok t -> (length (scheduled t) <= 1)%nat.
Proof. intros [Hs _ _ | h due Hs _ _ _]; rewrite Hs; simpl; lia. Qed.

Lemma waiting_next_call (c c' : Z) (t : timers) :
  waiting c t -> c <= c' < c + REFRESH_DEBOUNCE_MS ->
  waiting c' (debounceRefresh (advance c' t)).
Proof.
  intros [Hn Hr (h & Hs & Ht & Hh & Hlt)] Hc.
  erewrite advance_before_due by (try eassumption; lia).
  erewrite debounceRefresh_pending; simpl; try eassumption; try reflexivity.
  split; simpl.
  - lia.
  - exact Hr.
  - eexists. repeat split; try reflexivity; try lia.
    f_equal. f_equal. lia.
Qed.

(** [next_due] finds nothing exactly when nothing is due. *)
Lemma next_due_None (T : Z) (l : list (Z * Z)) :
  next_due T l = None <-> Forall (fun e => T < e.2) l.
Proof.
  induction l as [|[h due] l IH]; simpl.
  - split; [constructor | reflexivity].
  - destruct (next_due T l) as [[h' due']|] eqn:E.
    + split.
      * destruct ((due <=? T) && (due <=? due')); discriminate.
      * intros HF. inversion HF as [|? ? _ Hl]; subst.
        apply IH in Hl. discriminate.
    + destruct (Z.leb_spec due T).
      * split; [discriminate|]. intros HF. inversion HF; subst. simpl in *. lia.
      * split; [|reflexivity]. intros _. constructor; [simpl; lia|].
        apply IH. reflexivity.
Qed.

Lemma next_due_Some (T h due : Z) (l : list (Z * Z)) :
  next_due T l = Some (h, due) -> (h, due) ∈ l /\ due <= T.
Proof.
  induction l as [|[h0 due0] l IH]; simpl; [discriminate|].
  destruct (next_due T l) as [[h' due']|] eqn:E.
  - destruct (Z.leb_spec due0 T); simpl.
    + destruct (due0 <=? due').
      * intros [= <- <-]. split; [apply list_elem_of_here | assumption].
      * intros [= <- <-]. destruct (IH eq_refl) as [Hin Hle].
        split; [apply list_elem_of_further; exact Hin | exact Hle].
    + intros [= <- <-]. destruct (IH eq_refl) as [Hin Hle].
      split; [apply list_elem_of_further; exact Hin | exact Hle].
  - destruct (Z.leb_spec due0 T); [|discriminate].
    intros [= <- <-]. split; [apply list_elem_of_here | assumption].
Qed.

Lemma filter_handle_shorter (h due : Z) (l : list (Z * Z)) :
  (h, due) ∈ l ->
  (length (filter (fun e : Z * Z => e.1 ≠ h) l) < length l)%nat.
Proof.
  intros Hin. apply (length_filter_lt _ _ (h, due) Hin).
  intros Hne. apply Hne. reflexivity.
Qed.

(** One round per pending timeout is enough: when time has passed until
    [T], no timeout that was due by [T] is left in the queue. *)
Lemma run_due_done (fuel : nat) (T : Z) (t : timers) :
  (length (scheduled t) <= fuel)%nat ->
  next_due T (scheduled (run_due fuel T t)) = None.
Proof.
  revert t; induction fuel as [|fuel IH]; intros t Hlen; simpl.
  - destruct (scheduled t); [reflexivity | simpl in Hlen; lia].
  - destruct (next_due T (scheduled t)) as [[h due]|] eqn:E; [|exact E].
    apply IH. apply next_due_Some in E. destruct E as [Hin _].
    pose proof (filter_handle_shorter h due (scheduled t) Hin). simpl. lia.
Qed.

Lemma advance_none_due (T : Z) (t : timers) :
  Forall (fun e => T < e.2) (scheduled (advance T t)).
Proof.
  unfold advance. simpl. apply next_due_None, run_due_done. lia.
Qed.

Lemma last_cons_default (x d : Z) (l : list Z) :
  List.last (x :: l) d = List.last l x.
Proof.
  revert x d; induction l as [|y l IH]; intros x d; [reflexivity|].
  change (List.last (x :: y :: l) d) with (List.last (y :: l) d).
  rewrite (IH y d), (IH y x). reflexivity.
Qed.

Lemma waiting_burst (c : Z) (later : list Z) (t : timers) :
  waiting c t -> burst c later ->
  waiting (List.last later c) (timer_run (requests_at later) t).
Proof.
  revert c t; induction later as [|c' later IH]; intros c t Hw Hb.
  - exact Hw.
  - destruct Hb as [Hc Hb]. rewrite last_cons_default.
    apply (IH c'); [|exact Hb].
    apply (waiting_next_call c c' t Hw Hc).
Qed.

Local Close Scope Z_scope.

(** ** Trees *)

(** Induction on a node with the hypothesis for every child. *)
Lemma node_rect_children (P : node -> Prop) :
  (forall d, P (Text d)) ->
  (forall e ch, Forall P ch -> P (Element e ch)) ->
  forall n, P n.
Proof.
  intros HT HE. fix IH 1. intros [e ch|d]; [|apply HT].
  apply HE. induction ch as [|c ch IHch]; constructor; [apply IH | exact IHch].
Qed.

Lemma subtree_any_spec (p : element -> bool) (n : node) :
  subtree_any p n = true <-> exists x, occurs x n /\ p x = true.
Proof.
  induction n as [d|e ch IH] using node_rect_children; simpl.
  - split; [discriminate|]. intros (x & H & _). inversion H.
  - rewrite orb_true_iff, existsb_exists. split.
    + intros [He | (c & Hc & Hp)].
      * exists e. split; [constructor | exact He].
      * apply list_elem_of_In in Hc.
        rewrite Forall_forall in IH. apply (IH c Hc) in Hp.
        destruct Hp as (x & Hx & Hpx). exists x. split; [|exact Hpx].
        eapply occurs_below; eassumption.
    + intros (x & Hx & Hpx). inversion Hx as [ch' | e' ch' c Hc Hxc]; subst.
      * left. exact Hpx.
      * right. exists c. split; [apply list_elem_of_In; exact Hc|].
        rewrite Forall_forall in IH. apply (IH c Hc). eauto.
Qed.

Lemma querySelector_any_spec (p : element -> bool) (e : element)
    (ch : list node) :
  querySelector_any p (Element e ch) = true <->
  exists c x, c ∈ ch /\ occurs x c /\ p x = true.
Proof.
  simpl. rewrite existsb_exists. split.
  - intros (c & Hc & Hp). apply subtree_any_spec in Hp.
    destruct Hp as (x & Hx & Hpx). exists c, x.
    split; [apply list_elem_of_In; exact Hc | split; assumption].
  - intros (c & x & Hc & Hx & Hpx). exists c.
    split; [apply list_elem_of_In; exact Hc | apply subtree_any_spec; eauto].
Qed.

(** ** The mutation watcher *)

Lemma is_card_spec (e : element) : is_card e = true <-> card_element e.
Proof.
  unfold is_card, card_element, has_class.
  rewrite orb_true_iff, !bool_decide_eq_true. reflexivity.
Qed.

Lemma is_filters_spec (e : element) : is_filters e = true <-> filters_element e.
Proof. unfold is_filters, filters_element, has_class. apply bool_decide_eq_true. Qed.

Lemma existsb_is_card (l : list element) :
  existsb is_card l = true <-> exists a, a ∈ l /\ card_element a.
Proof.
  rewrite existsb_exists. split; intros (a & Ha & Hc); exists a.
  - split; [apply list_elem_of_In; exact Ha | apply is_card_spec; exact Hc].
  - split; [apply list_elem_of_In; exact Ha | apply is_card_spec; exact Hc].
Qed.

Lemma occurs_root_or_below (x e : element) (ch : list node) :
  occurs x (Element e ch) <-> x = e \/ exists c, c ∈ ch /\ occurs x c.
Proof.
  split.
  - intros H. inversion H; subst; [left; reflexivity | right; eauto].
  - intros [-> | (c & Hc & Hx)]; [constructor | eapply occurs_below; eassumption].
Qed.

Lemma touches_filters_spec (n : observed) :
  touches_filters n = true <-> is_or_contains filters_element n.
Proof.
  unfold touches_filters, is_or_contains. destruct (self n) as [e ch|d].
  - rewrite orb_true_iff, is_filters_spec, querySelector_any_spec. split.
    + intros [He | (c & x & Hc & Hx & Hp)].
      * exists e. split; [constructor | exact He].
      * exists x. split; [eapply occurs_below; eassumption|].
        apply is_filters_spec. exact Hp.
    + intros (x & Hx & Hp). apply occurs_root_or_below in Hx.
      destruct Hx as [-> | (c & Hc & Hx)]; [left; exact Hp|].
      right. exists c, x. repeat split; try assumption.
      apply is_filters_spec. exact Hp.
  - split; [discriminate|]. intros (x & Hx & _). inversion Hx.
Qed.

Lemma touches_cards_spec (n : observed) :
  touches_cards n = true <->
  is_or_contains card_element n \/ is_inside card_element n.
Proof.
  unfold touches_cards, is_or_contains, is_inside, matches_inside_card.
  destruct (self n) as [e ch|d].
  - rewrite !orb_true_iff, existsb_is_card, querySelector_any_spec.
    unfold has_class. rewrite !bool_decide_eq_true. split.
    + intros [[[H | H] | H] | (c & x & Hc & Hx & Hp)].
      * left. exists e. split; [constructor | left; exact H].
      * left. exists e. split; [constructor | right; exact H].
      * right. split; [eauto | exact H].
      * left. exists x. split; [eapply occurs_below; eassumption|].
        apply is_card_spec. exact Hp.
    + intros [(x & Hx & Hp) | [_ H]].
      * apply occurs_root_or_below in Hx.
        destruct Hx as [-> | (c & Hc & Hx)].
        -- destruct Hp as [Hp | Hp]; [left; left; left | left; left; right]; exact Hp.
        -- right. exists c, x. repeat split; try assumption.
           apply is_card_spec. exact Hp.
      * left. right. exact H.
  - split; [discriminate|].
    intros [(x & Hx & _) | [(e & ch & H) _]]; [inversion Hx | discriminate].
Qed.

Lemma closest_card_spec (n : observed) :
  closest_card n = true <-> is_or_inside card_element n.
Proof.
  unfold closest_card, is_or_inside. destruct (self n) as [e ch|d].
  - rewrite orb_true_iff, is_card_spec, existsb_is_card. split.
    + intros H. exists e, ch. split; [reflexivity | exact H].
    + intros (e' & ch' & [= <- <-] & H). exact H.
  - split; [discriminate|]. intros (e & ch & H & _). discriminate.
Qed.

Lemma touches_not_element (n : observed) :
  (nodeType (self n) =? 1)%N = false ->
  touches_filters n = false /\ touches_cards n = false.
Proof.
  unfold touches_filters, touches_cards.
  destruct (self n); simpl; [discriminate | split; reflexivity].
Qed.

(** The inner loop raises each flag exactly when some node of the list
    calls for it; breaking off early loses nothing, for both flags are
    then already raised. *)
Lemma for_nodes_flags (st : pending) (l : list observed) :
  pendingFiltersChange (for_nodes st l).1
    = pendingFiltersChange st || existsb touches_filters l /\
  pendingCardsChange (for_nodes st l).1
    = pendingCardsChange st || existsb touches_cards l.
Proof.
  revert st; induction l as [|n l IH]; intros st; simpl.
  - rewrite !orb_false_r. split; reflexivity.
  - destruct (nodeType (self n) =? 1)%N eqn:Et; simpl.
    + set (st1 := if touches_filters n then _ else st).
      set (st2 := if touches_cards n then _ else st1).
      assert (Hf : pendingFiltersChange st2
                   = pendingFiltersChange st || touches_filters n).
      { unfold st2, st1.
        destruct (touches_cards n), (touches_filters n); simpl;
          rewrite ?orb_true_r, ?orb_false_r; reflexivity. }
      assert (Hc : pendingCardsChange st2
                   = pendingCardsChange st || touches_cards n).
      { unfold st2, st1.
        destruct (touches_cards n), (touches_filters n); simpl;
          rewrite ?orb_true_r, ?orb_false_r; reflexivity. }
      destruct (both_pending st2) eqn:Eb.
      * simpl. unfold both_pending in Eb. apply andb_true_iff in Eb.
        destruct Eb as [Eb1 Eb2]. rewrite Eb1, Eb2.
        rewrite Hf in Eb2. rewrite Hc in Eb1.
        rewrite !orb_assoc, Eb1, Eb2. split; reflexivity.
      * destruct (for_nodes st2 l) as [st' k] eqn:Ef. simpl.
        specialize (IH st2). rewrite Ef in IH. simpl in IH.
        destruct IH as [IH1 IH2]. rewrite IH1, IH2, Hf, Hc, !orb_assoc.
        split; reflexivity.
    + destruct (touches_not_element n Et) as [-> ->]. simpl.
      destruct (for_nodes st l) as [st' k] eqn:Ef. simpl.
      specialize (IH st). rewrite Ef in IH. exact IH.
Qed.

Lemma classify_flags (st : pending) (m : MutationRecord) :
  pendingFiltersChange (classify st m)
    = pendingFiltersChange st || record_touches_filters m /\
  pendingCardsChange (classify st m)
    = pendingCardsChange st || record_touches_cards m.
Proof.
  unfold classify, record_touches_filters, record_touches_cards.
  destruct (type m).
  - apply for_nodes_flags.
  - destruct (closest_card (target m)); simpl;
      rewrite ?orb_true_r, ?orb_false_r; split; reflexivity.
  - rewrite !orb_false_r. split; reflexivity.
Qed.

Lemma for_mutations_flags (st : pending) (ms : list MutationRecord) :
  pendingFiltersChange (for_mutations st ms).1
    = pendingFiltersChange st || existsb record_touches_filters ms /\
  pendingCardsChange (for_mutations st ms).1
    = pendingCardsChange st || existsb record_touches_cards ms.
Proof.
  revert st; induction ms as [|m ms IH]; intros st; simpl.
  - rewrite !orb_false_r. split; reflexivity.
  - destruct (both_pending st) eqn:Eb.
    + simpl. unfold both_pending in Eb. apply andb_true_iff in Eb.
      destruct Eb as [-> ->]. split; reflexivity.
    + destruct (for_mutations (classify st m) ms) as [st' k] eqn:Ef. simpl.
      specialize (IH (classify st m)). rewrite Ef in IH. simpl in IH.
      destruct IH as [IH1 IH2].
      destruct (classify_flags st m) as [C1 C2].
      rewrite IH1, IH2, C1, C2, !orb_assoc. split; reflexivity.
Qed.

(** The scan runs the body for every record of a prefix that does not yet
    raise both flags, and for none after a prefix that does. *)
Lemma for_mutations_scans (st : pending) (p : list MutationRecord) :
  both_pending (for_mutations st p).1 = false ->
  (for_mutations st p).2 = length p.
Proof.
  revert st; induction p as [|m p IH]; intros st; simpl; [reflexivity|].
  destruct (both_pending st) eqn:Eb; simpl; [congruence|].
  destruct (for_mutations (classify st m) p) as [st' k] eqn:Ef. simpl.
  intros H. f_equal. specialize (IH (classify st m)). rewrite Ef in IH.
  apply IH. exact H.
Qed.

Lemma for_mutations_stops (st : pending) (p q : list MutationRecord) :
  both_pending (for_mutations st p).1 = true ->
  for_mutations st (p ++ q) = for_mutations st p.
Proof.
  revert st; induction p as [|m p IH]; intros st; simpl.
  - intros H. destruct q as [|m q]; [reflexivity|]. simpl. rewrite H. reflexivity.
  - destruct (both_pending st) eqn:Eb; [reflexivity|].
    destruct (for_mutations (classify st m) p) as [st' k] eqn:Ef. simpl.
    intros H. rewrite IH by (rewrite Ef; exact H). rewrite Ef. reflexivity.
Qed.

(** The callback's calls, from flags that start lowered. *)
Lemma observer_callback_init (ms : list MutationRecord) :
  observer_callback pending_init ms =
    (pending_init,
     (if existsb record_touches_filters ms then [call_initializeHtml] else [])
     ++ (if existsb record_touches_cards ms then [call_debounceRefresh] else [])).
Proof.
  unfold observer_callback.
  destruct (for_mutations_flags pending_init ms) as [Hf Hc]. simpl in Hf, Hc.
  destruct (for_mutations pending_init ms) as [[c f] k]. simpl in *. subst.
  destruct (existsb record_touches_filters ms),
           (existsb record_touches_cards ms); reflexivity.
Qed.

(** Both flags are lowered again whenever the callback returns. *)
Lemma pending_after_init (batches : list (list MutationRecord)) :
  pending_after batches = pending_init.
Proof.
  unfold pending_after.
  assert (H : forall st, st = pending_init ->
            fold_left (fun st b => (observer_callback st b).1) batches st
            = pending_init).
  { induction batches as [|b bs IH]; intros st ->; [reflexivity|].
    simpl. apply IH. rewrite observer_callback_init. reflexivity. }
  apply H. reflexivity.
Qed.

Lemma record_touches_filters_spec (m : MutationRecord) :
  record_touches_filters m = true <->
  exists n, adds_or_removes m n /\ is_or_contains filters_element n.
Proof.
  unfold record_touches_filters, adds_or_removes.
  destruct (type m); try (split; [discriminate | intros (n & [H _] & _); discriminate]).
  rewrite existsb_exists. split.
  - intros (n & Hn & Ht). exists n.
    split; [split; [reflexivity | apply list_elem_of_In; exact Hn]|].
    apply touches_filters_spec. exact Ht.
  - intros (n & [_ Hn] & Ht). exists n.
    split; [apply list_elem_of_In; exact Hn | apply touches_filters_spec; exact Ht].
Qed.

Lemma record_touches_cards_spec (m : MutationRecord) :
  record_touches_cards m = true <->
  (exists n, adds_or_removes m n /\
             (is_or_contains card_element n \/ is_inside card_element n))
  \/ (type m = attributes_change /\ is_or_inside card_element (target m)).
Proof.
  unfold record_touches_cards, adds_or_removes. destruct (type m).
  - rewrite existsb_exists. split.
    + intros (n & Hn & Ht). left. exists n.
      split; [split; [reflexivity | apply list_elem_of_In; exact Hn]|].
      apply touches_cards_spec. exact Ht.
    + intros [(n & [_ Hn] & Ht) | [H _]]; [|discriminate]. exists n.
      split; [apply list_elem_of_In; exact Hn | apply touches_cards_spec; exact Ht].
  - rewrite closest_card_spec. split.
    + intros H. right. split; [reflexivity | exact H].
    + intros [(n & [H _] & _) | [_ H]]; [discriminate | exact H].
  - split; [discriminate|].
    intros [(n & [H _] & _) | [H _]]; discriminate.
Qed.

(** ** The control surface *)

Lemma update_first_Element (p : element -> bool) (f : node -> node)
    (e : element) (ch : list node) :
  update_first p f (Element e ch) =
    if p e then Some (f (Element e ch))
    else option_map (Element e) (update_first_in p f ch).
Proof.
  simpl. destruct (p e); [reflexivity|]. f_equal.
  induction ch as [|c ch IH]; simpl; [reflexivity|].
  rewrite IH. reflexivity.
Qed.

(** Nothing is replaced exactly when nothing matches. *)
Lemma update_first_None (p : element -> bool) (f : node -> node) (n : node) :
  update_first p f n = None <-> subtree_any p n = false.
Proof.
  induction n as [d|e ch IH] using node_rect_children.
  - simpl. split; reflexivity.
  - rewrite update_first_Element. simpl. destruct (p e); simpl.
    + split; discriminate.
    + induction IH as [|c ch Hc Hch IHch]; simpl; [split; reflexivity|].
      destruct (update_first p f c) as [c'|] eqn:Ec.
      * simpl. split; [discriminate|]. intros H.
        apply orb_false_iff in H. destruct H as [H _].
        apply Hc in H. discriminate.
      * assert (Hs : subtree_any p c = false) by (apply Hc; reflexivity).
        rewrite Hs. simpl.
        destruct (update_first_in p f ch); simpl in *.
        -- split; [discriminate|]. intros H. apply IHch in H. discriminate.
        -- split; [intros _; apply IHch; reflexivity | reflexivity].
Qed.

Lemma update_first_in_None (p : element -> bool) (f : node -> node)
    (l : list node) :
  update_first_in p f l = None <-> existsb (subtree_any p) l = false.
Proof.
  induction l as [|c l IH]; simpl; [split; reflexivity|].
  destruct (update_first p f c) as [c'|] eqn:Ec.
  - split; [discriminate|]. intros H. apply orb_false_iff in H.
    destruct H as [H _]. apply (update_first_None p f) in H. congruence.
  - apply update_first_None in Ec. rewrite Ec. simpl.
    destruct (update_first_in p f l); simpl.
    + split; [discriminate|]. intros H. apply IH in H. discriminate.
    + split; [intros _; apply IH; reflexivity | reflexivity].
Qed.

Lemma update_first_document_None (p : element -> bool) (f : node -> node)
    (d : Document) :
  update_first_document p f d = None <-> document_any p d = false.
Proof.
  unfold update_first_document, document_any.
  destruct (update_first_in p f (head_nodes d)) eqn:Eh.
  - split; [discriminate|]. intros H. apply orb_false_iff in H.
    destruct H as [H _]. apply (update_first_in_None p f) in H. congruence.
  - apply update_first_in_None in Eh. rewrite Eh. simpl.
    destruct (update_first_in p f (body_nodes d)) eqn:Eb.
    + split; [discriminate|]. intros H.
      apply (update_first_in_None p f) in H. congruence.
    + split; [intros _; apply (update_first_in_None p f); exact Eb | reflexivity].
Qed.

Section UpdateTwice.

Variable p : element -> bool.
Variable f : node -> node.

(** [f] leaves the element at the root as it is and does nothing more when
    applied again. *)
Hypothesis f_keeps_root :
  forall e ch, exists ch', f (Element e ch) = Element e ch'.
Hypothesis f_idempotent : forall n, f (f n) = f n.

(** Replacing the first match a second time changes nothing: the match is
    found at the same place, and [f] has nothing left to do there. *)
Lemma update_first_twice (n n' : node) :
  update_first p f n = Some n' -> update_first p f n' = Some n'.
Proof.
  revert n'; induction n as [d|e ch IH] using node_rect_children; intros n'.
  - discriminate.
  - rewrite update_first_Element. destruct (p e) eqn:Ep.
    + intros [= <-]. destruct (f_keeps_root e ch) as [ch' E].
      rewrite E, update_first_Element, Ep, <- E, f_idempotent. reflexivity.
    + destruct (update_first_in p f ch) as [ch'|] eqn:Ech; [|discriminate].
      intros [= <-]. rewrite update_first_Element, Ep.
      enough (update_first_in p f ch' = Some ch') as -> by reflexivity.
      revert ch' Ech. induction IH as [|c ch Hc Hch IHch]; intros ch'; simpl;
        [discriminate|].
      destruct (update_first p f c) as [c'|] eqn:Ec.
      * intros [= <-]. simpl. rewrite (Hc c' eq_refl). reflexivity.
      * destruct (update_first_in p f ch) as [l|] eqn:El; [|discriminate].
        intros [= <-]. simpl. rewrite Ec, (IHch l eq_refl). reflexivity.
Qed.

Lemma update_first_in_twice (l l' : list node) :
  update_first_in p f l = Some l' -> update_first_in p f l' = Some l'.
Proof.
  revert l'; induction l as [|c l IH]; intros l'; simpl; [discriminate|].
  destruct (update_first p f c) as [c'|] eqn:Ec.
  - intros [= <-]. simpl. rewrite (update_first_twice c c' Ec). reflexivity.
  - destruct (update_first_in p f l) as [l0|] eqn:El; [|discriminate].
    intros [= <-]. simpl. rewrite Ec, (IH l0 eq_refl). reflexivity.
Qed.

Lemma update_first_document_twice (d d' : Document) :
  update_first_document p f d = Some d' ->
  update_first_document p f d' = Some d'.
Proof.
  unfold update_first_document.
  destruct (update_first_in p f (head_nodes d)) as [h|] eqn:Eh.
  - intros [= <-]. simpl. rewrite (update_first_in_twice _ _ Eh). reflexivity.
  - destruct (update_first_in p f (body_nodes d)) as [b|] eqn:Eb; [|discriminate].
    intros [= <-]. simpl. rewrite Eh, (update_first_in_twice _ _ Eb). reflexivity.
Qed.

End UpdateTwice.

(** The loop body over the inputs has nothing left to do the second
    time. *)
Lemma restore_input_idempotent (sel : ColorSet) (e : element) :
  restore_input sel (restore_input sel e) = restore_input sel e.
Proof.
  unfold restore_input. destruct (anichart_listening e) eqn:El; simpl.
  - rewrite El. simpl. reflexivity.
  - reflexivity.
Qed.

Lemma restore_input_localName (sel : ColorSet) (e : element) :
  localName (restore_input sel e) = localName e.
Proof. unfold restore_input. destruct (anichart_listening e); reflexivity. Qed.

Lemma restore_input_id (sel : ColorSet) (e : element) :
  id (restore_input sel e) = id e.
Proof. unfold restore_input. destruct (anichart_listening e); reflexivity. Qed.

Lemma restore_input_className (sel : ColorSet) (e : element) :
  className (restore_input sel e) = className e.
Proof. unfold restore_input. destruct (anichart_listening e); reflexivity. Qed.

Lemma map_descendants_idempotent (q : element -> bool) (g : element -> element)
    (n : node) :
  (forall e, q (g e) = q e) -> (forall e, g (g e) = g e) ->
  map_descendants q g (map_descendants q g n) = map_descendants q g n.
Proof.
  intros Hq Hg. induction n as [d|e ch IH] using node_rect_children;
    [reflexivity|].
  simpl. f_equal. rewrite List.map_map. apply List.map_ext_in.
  intros c Hc. rewrite Forall_forall in IH.
  specialize (IH c (proj2 (list_elem_of_In _ _) Hc)).
  destruct (map_descendants q g c) as [e' ch'|d'] eqn:Ec.
  - destruct (map_descendants q g (Element (if q e' then g e' else e') ch'))
      as [e2 ch2|d2] eqn:E2.
    + simpl in E2. simpl in IH. injection E2 as <- <-. injection IH as IH.
      rewrite IH. f_equal. destruct (q e') eqn:Eq.
      * rewrite Hq, Eq. apply Hg.
      * rewrite Eq. reflexivity.
    + simpl in E2. discriminate.
  - reflexivity.
Qed.

Lemma restore_inputs_idempotent (sel : ColorSet) (n : node) :
  restore_inputs sel (restore_inputs sel n) = restore_inputs sel n.
Proof.
  apply map_descendants_idempotent.
  - intros e. unfold has_localName. rewrite restore_input_localName. reflexivity.
  - apply restore_input_idempotent.
Qed.

Lemma restore_inputs_keeps_root (sel : ColorSet) (e : element) (ch : list node) :
  exists ch', restore_inputs sel (Element e ch) = Element e ch'.
Proof. eexists. reflexivity. Qed.

(** The root the script creates carries the root's id. *)
Lemma restored_new_root (sel : ColorSet) :
  exists e ch, restore_inputs sel new_root = Element e ch /\ has_id HTML_ID e = true.
Proof. eexists _, _. split; reflexivity. Qed.

Section InsertThenFind.

Variable p q : element -> bool.
Variable f : node -> node.
Variable r : node.
Variable re : element.
Variable rch : list node.
Hypothesis r_root : r = Element re rch.
Hypothesis r_matches : q re = true.
Hypothesis f_r : f r = r.

Lemma update_first_in_inserted (l : list node) :
  update_first_in q f (insert_before_first_element r l)
  = Some (insert_before_first_element r l).
Proof.
  induction l as [|[e ch|d] l IH]; simpl.
  - rewrite r_root, update_first_Element, r_matches, <- r_root, f_r. reflexivity.
  - rewrite r_root, update_first_Element, r_matches, <- r_root, f_r. reflexivity.
  - rewrite IH. reflexivity.
Qed.

(** In a tree where nothing matched [q], once [r] has been inserted into
    the first match of [p], the first match of [q] is [r] itself. *)
Lemma update_first_after_insert (n n' : node) :
  subtree_any q n = false ->
  update_first p (insert_root r) n = Some n' ->
  update_first q f n' = Some n'.
Proof.
  revert n'; induction n as [d|e ch IH] using node_rect_children; intros n'.
  - discriminate.
  - simpl subtree_any. intros Hq. apply orb_false_iff in Hq.
    destruct Hq as [Hqe Hqch].
    rewrite update_first_Element. destruct (p e) eqn:Ep.
    + intros [= <-]. unfold insert_root. rewrite update_first_Element, Hqe.
      rewrite update_first_in_inserted. reflexivity.
    + destruct (update_first_in p (insert_root r) ch) as [ch'|] eqn:Ech;
        [|discriminate].
      intros [= <-]. rewrite update_first_Element, Hqe.
      enough (update_first_in q f ch' = Some ch') as -> by reflexivity.
      revert ch' Ech Hqch.
      induction IH as [|c ch Hc Hch IHch]; intros ch'; simpl; [discriminate|].
      intros Ech Hqch. apply orb_false_iff in Hqch. destruct Hqch as [Hqc Hqch].
      destruct (update_first p (insert_root r) c) as [c'|] eqn:Ec.
      * injection Ech as <-. simpl. rewrite (Hc c' Hqc eq_refl). reflexivity.
      * destruct (update_first_in p (insert_root r) ch) as [l|] eqn:El;
          [|discriminate].
        injection Ech as <-. simpl.
        rewrite (proj2 (update_first_None q f c) Hqc).
        rewrite (IHch l eq_refl Hqch). reflexivity.
Qed.

Lemma update_first_in_after_insert (l l' : list node) :
  existsb (subtree_any q) l = false ->
  update_first_in p (insert_root r) l = Some l' ->
  update_first_in q f l' = Some l'.
Proof.
  revert l'; induction l as [|c l IH]; intros l'; simpl; [discriminate|].
  intros Hq. apply orb_false_iff in Hq. destruct Hq as [Hqc Hql].
  destruct (update_first p (insert_root r) c) as [c'|] eqn:Ec.
  - intros [= <-]. simpl.
    rewrite (update_first_after_insert c c' Hqc Ec). reflexivity.
  - destruct (update_first_in p (insert_root r) l) as [l0|] eqn:El;
      [|discriminate].
    intros [= <-]. simpl. rewrite (proj2 (update_first_None q f c) Hqc).
    rewrite (IH l0 Hql eq_refl). reflexivity.
Qed.

Lemma update_first_document_after_insert (d d' : Document) :
  document_any q d = false ->
  update_first_document p (insert_root r) d = Some d' ->
  update_first_document q f d' = Some d'.
Proof.
  unfold document_any, update_first_document. intros Hq.
  apply orb_false_iff in Hq. destruct Hq as [Hqh Hqb].
  destruct (update_first_in p (insert_root r) (head_nodes d)) as [h|] eqn:Eh.
  - intros [= <-]. simpl.
    rewrite (update_first_in_after_insert _ _ Hqh Eh). reflexivity.
  - destruct (update_first_in p (insert_root r) (body_nodes d)) as [b|] eqn:Eb;
      [|discriminate].
    intros [= <-]. simpl.
    rewrite (proj2 (update_first_in_None q f _) Hqh).
    rewrite (update_first_in_after_insert _ _ Hqb Eb). reflexivity.
Qed.

End InsertThenFind.

(** [initializeHtml] called again right away changes nothing. *)
Lemma initializeHtml_twice (sel : ColorSet) (d : Document) :
  initializeHtml sel (initializeHtml sel d) = initializeHtml sel d.
Proof.
  destruct (update_first_document (has_id HTML_ID) (restore_inputs sel) d)
    as [d1|] eqn:E1.
  - (* the root was there *)
    assert (H : initializeHtml sel d = d1)
      by (unfold initializeHtml; rewrite E1; reflexivity).
    rewrite H. unfold initializeHtml.
    rewrite (update_first_document_twice _ _ (restore_inputs_keeps_root sel)
               (restore_inputs_idempotent sel) d d1 E1).
    reflexivity.
  - destruct (update_first_document (has_class (lit "filters"))
                (insert_root (restore_inputs sel new_root)) d) as [d2|] eqn:E2.
    + (* the root was created *)
      assert (H : initializeHtml sel d = d2)
        by (unfold initializeHtml; rewrite E1, E2; reflexivity).
      rewrite H. unfold initializeHtml.
      destruct (restored_new_root sel) as (re & rch & Hr & Hid).
      rewrite (update_first_document_after_insert
                 (has_class (lit "filters")) (has_id HTML_ID)
                 (restore_inputs sel) (restore_inputs sel new_root) re rch
                 Hr Hid (restore_inputs_idempotent sel new_root) d d2
                 (proj1 (update_first_document_None _ _ d) E1) E2).
      reflexivity.
    + (* no container yet: nothing was done *)
      assert (H : initializeHtml sel d = d)
        by (unfold initializeHtml; rewrite E1, E2; reflexivity).
      rewrite !H. reflexivity.
Qed.

(** [initializeCss] called again right away changes nothing. *)
Lemma initializeCss_present (d : Document) :
  document_any (has_id CSS_ID) (initializeCss d) = true.
Proof.
  unfold initializeCss. destruct (document_any (has_id CSS_ID) d) eqn:E.
  - exact E.
  - unfold document_any. simpl. rewrite existsb_app. simpl.
    rewrite orb_true_r. reflexivity.
Qed.

Lemma initializeCss_when_present (d : Document) :
  document_any (has_id CSS_ID) d = true -> initializeCss d = d.
Proof. intros H. unfold initializeCss. rewrite H. reflexivity. Qed.

Section KeepsMatches.

Variable q : element -> bool.

Lemma map_descendants_any (p : element -> bool) (g : element -> element)
    (n : node) :
  (forall e, q (g e) = q e) ->
  subtree_any q (map_descendants p g n) = subtree_any q n.
Proof.
  intros Hg. induction n as [d|e ch IH] using node_rect_children;
    [reflexivity|].
  simpl. f_equal. induction IH as [|c ch Hc Hch IHch]; [reflexivity|].
  simpl. rewrite IHch. f_equal. rewrite <- Hc.
  destruct (map_descendants p g c) as [e' ch'|d']; [|reflexivity].
  simpl. destruct (p e'); [rewrite Hg|]; reflexivity.
Qed.

Lemma insert_before_first_element_any (r : node) (l : list node) :
  existsb (subtree_any q) (insert_before_first_element r l)
  = subtree_any q r || existsb (subtree_any q) l.
Proof.
  induction l as [|[e ch|d] l IH]; simpl.
  - reflexivity.
  - reflexivity.
  - rewrite IH. reflexivity.
Qed.

Variable p : element -> bool.
Variable f : node -> node.
Hypothesis f_keeps :
  forall n, subtree_any q n = true -> subtree_any q (f n) = true.

Lemma update_first_keeps (n n' : node) :
  update_first p f n = Some n' ->
  subtree_any q n = true -> subtree_any q n' = true.
Proof.
  revert n'; induction n as [d|e ch IH] using node_rect_children; intros n'.
  - discriminate.
  - rewrite update_first_Element. destruct (p e).
    + intros [= <-]. apply f_keeps.
    + destruct (update_first_in p f ch) as [ch'|] eqn:Ech; [|discriminate].
      intros [= <-]. simpl. destruct (q e); [reflexivity|]. simpl.
      revert ch' Ech. induction IH as [|c ch Hc Hch IHch]; intros ch'; simpl;
        [discriminate|].
      destruct (update_first p f c) as [c'|] eqn:Ec.
      * intros [= <-]. simpl. intros H. apply orb_true_iff in H.
        apply orb_true_iff. destruct H as [H|H]; [left | right; exact H].
        apply (Hc c' eq_refl H).
      * destruct (update_first_in p f ch) as [l|] eqn:El; [|discriminate].
        intros [= <-]. simpl. intros H. apply orb_true_iff in H.
        apply orb_true_iff. destruct H as [H|H]; [left; exact H | right].
        apply (IHch l eq_refl H).
Qed.

Lemma update_first_in_keeps (l l' : list node) :
  update_first_in p f l = Some l' ->
  existsb (subtree_any q) l = true -> existsb (subtree_any q) l' = true.
Proof.
  revert l'; induction l as [|c l IH]; intros l'; simpl; [discriminate|].
  destruct (update_first p f c) as [c'|] eqn:Ec.
  - intros [= <-]. simpl. intros H. apply orb_true_iff in H.
    apply orb_true_iff. destruct H as [H|H]; [left | right; exact H].
    apply (update_first_keeps c c' Ec H).
  - destruct (update_first_in p f l) as [l0|] eqn:El; [|discriminate].
    intros [= <-]. simpl. intros H. apply orb_true_iff in H.
    apply orb_true_iff. destruct H as [H|H]; [left; exact H | right].
    apply (IH l0 eq_refl H).
Qed.

Lemma update_first_document_keeps (d d' : Document) :
  update_first_document p f d = Some d' ->
  document_any q d = true -> document_any q d' = true.
Proof.
  unfold update_first_document, document_any.
  destruct (update_first_in p f (head_nodes d)) as [h|] eqn:Eh.
  - intros [= <-]. simpl. intros H. apply orb_true_iff in H.
    apply orb_true_iff. destruct H as [H|H]; [left | right; exact H].
    apply (update_first_in_keeps _ _ Eh H).
  - destruct (update_first_in p f (body_nodes d)) as [b|] eqn:Eb; [|discriminate].
    intros [= <-]. simpl. intros H. apply orb_true_iff in H.
    apply orb_true_iff. destruct H as [H|H]; [left; exact H | right].
    apply (update_first_in_keeps _ _ Eb H).
Qed.

End KeepsMatches.

(** [initializeHtml] removes no element and changes no id. *)
Lemma initializeHtml_keeps_id (sel : ColorSet) (i : jsstring) (d : Document) :
  document_any (has_id i) d = true ->
  document_any (has_id i) (initializeHtml sel d) = true.
Proof.
  intros H. unfold initializeHtml.
  destruct (update_first_document (has_id HTML_ID) (restore_inputs sel) d)
    as [d1|] eqn:E1.
  - eapply update_first_document_keeps; [|exact E1|exact H].
    intros n Hn. unfold restore_inputs. rewrite map_descendants_any; [exact Hn|].
    intros e. unfold has_id. rewrite restore_input_id. reflexivity.
  - destruct (update_first_document (has_class (lit "filters"))
                (insert_root (restore_inputs sel new_root)) d) as [d2|] eqn:E2;
      [|exact H].
    eapply update_first_document_keeps; [|exact E2|exact H].
    intros [e ch|t] Hn; [|discriminate]. simpl in *.
    rewrite insert_before_first_element_any.
    apply orb_true_iff in Hn. destruct Hn as [-> | ->]; [reflexivity|].
    rewrite !orb_true_r. reflexivity.
Qed.

(** The orchestrator, field by field. *)
Lemma initialize_document (w : world) :
  document (initialize w)
  = initializeHtml (SELECTED_COLORS w) (initializeCss (document w)).
Proof. unfold initialize, setupObservers. simpl. destruct (mainObserver w); reflexivity. Qed.

Lemma initialize_SELECTED_COLORS (w : world) :
  SELECTED_COLORS (initialize w) = SELECTED_COLORS w.
Proof. unfold initialize, setupObservers. simpl. destruct (mainObserver w); reflexivity. Qed.

Lemma initialize_clock (w : world) :
  clock (initialize w) = debounceRefresh (clock w).
Proof. unfold initialize, setupObservers. simpl. destruct (mainObserver w); reflexivity. Qed.

Lemma initialize_observing (w : world) :
  exists o, mainObserver (initialize w) = Some o.
Proof.
  unfold initialize, setupObservers. simpl.
  destruct (mainObserver w) as [o|]; eexists; reflexivity.
Qed.

Lemma initialize_observations_fresh (w : world) :
  mainObserver w = None ->
  exists o, observations (initialize w) = observations w ++ [o].
Proof.
  intros H. unfold initialize, setupObservers. simpl. rewrite H. simpl.
  eexists. reflexivity.
Qed.

Lemma initialize_observations_again (w : world) (o : nat) :
  mainObserver w = Some o ->
  observations (initialize w) = observations w /\
  mainObserver (initialize w) = Some o.
Proof.
  intros H. unfold initialize, setupObservers. simpl. rewrite H. simpl.
  split; reflexivity.
Qed.

(** A second call of [initialize] leaves the document, the observer and
    its registrations as the first call left them. *)
Lemma initialize_again (w : world) :
  document (initialize (initialize w)) = document (initialize w) /\
  observations (initialize (initialize w)) = observations (initialize w) /\
  mainObserver (initialize (initialize w)) = mainObserver (initialize w).
Proof.
  split; [|destruct (initialize_observing w) as [o Ho];
           destruct (initialize_observations_again _ o Ho) as [H1 H2];
           split; [exact H1 | rewrite H2, Ho; reflexivity]].
  rewrite (initialize_document (initialize w)), initialize_SELECTED_COLORS.
  rewrite initialize_document.
  rewrite initializeCss_when_present
    by (apply initializeHtml_keeps_id, initializeCss_present).
  apply initializeHtml_twice.
Qed.

Lemma initialize_repeatedly (w : world) (n : nat) :
  document (Nat.iter n initialize (initialize w)) = document (initialize w) /\
  observations (Nat.iter n initialize (initialize w))
    = observations (initialize w) /\
  mainObserver (Nat.iter n initialize (initialize w))
    = mainObserver (initialize w) /\
  SELECTED_COLORS (Nat.iter n initialize (initialize w)) = SELECTED_COLORS w.
Proof.
  induction n as [|n IH].
  - change (Nat.iter 0 initialize (initialize w)) with (initialize w).
    rewrite initialize_SELECTED_COLORS. repeat split; reflexivity.
  - change (Nat.iter (S n) initialize (initialize w))
      with (initialize (Nat.iter n initialize (initialize w))).
    set (x := Nat.iter n initialize (initialize w)) in *.
    destruct IH as (Hd & Ho & Hm & Hs).
    destruct (initialize_again w) as (A1 & _ & _).
    destruct (initialize_observing w) as [o Hw].
    rewrite Hw in Hm.
    destruct (initialize_observations_again x o Hm) as [B1 B2].
    rewrite initialize_SELECTED_COLORS, B1, B2, Hw, Ho, Hs.
    repeat split; try reflexivity.
    rewrite initialize_document, Hd, Hs.
    rewrite <- (initialize_SELECTED_COLORS w), <- initialize_document.
    exact A1.
Qed.

(** A second run of the whole script on the page the first run left
    behind finds the style block and the root by their ids and leaves the
    document as it is; its own [mainObserver] starts as [null], so it
    registers an observer of its own. *)
Remark script_run_again (localStorage : gmap jsstring jsstring) (t : timers)
    (d : Document) (obs : list observation) (w1 w2 : world) :
  script_run localStorage t d obs = Normal w1 ->
  script_run localStorage (clock w1) (document w1) (observations w1) = Normal w2 ->
  document w2 = document w1 /\
  length (observations w2) = S (length (observations w1)).
Proof.
  unfold script_run. destruct (SELECTED_COLORS_init localStorage) as [sel|e];
    [|discriminate].
  intros [= <-] [= <-]. split.
  - rewrite initialize_document. cbn [document SELECTED_COLORS].
    rewrite initialize_document. cbn [document SELECTED_COLORS].
    rewrite initializeCss_when_present
      by (apply initializeHtml_keeps_id, initializeCss_present).
    apply initializeHtml_twice.
  - match goal with
    | |- context [observations (initialize ?w)] =>
        destruct (initialize_observations_fresh w eq_refl) as [o Ho]
    end.
    rewrite Ho, length_app. simpl. lia.
Qed.

(** ** Counting elements *)

Section Counting.

Variable q : element -> bool.

Lemma count_in_Element (e : element) (ch : list node) :
  count_in q (Element e ch)
  = ((if q e then 1 else 0) + list_sum (List.map (count_in q) ch))%nat.
Proof. reflexivity. Qed.

Lemma count_in_zero (n : node) :
  count_in q n = O <-> subtree_any q n = false.
Proof.
  induction n as [d|e ch IH] using node_rect_children; simpl.
  - split; reflexivity.
  - destruct (q e); simpl; [split; discriminate|].
    induction IH as [|c ch Hc Hch IHch]; simpl; [split; reflexivity|].
    rewrite orb_false_iff, <- Hc, <- IHch. lia.
Qed.

Lemma count_forest_zero (l : list node) :
  list_sum (List.map (count_in q) l) = O <-> existsb (subtree_any q) l = false.
Proof.
  induction l as [|c l IH]; simpl; [split; reflexivity|].
  rewrite orb_false_iff, <- count_in_zero, <- IH. lia.
Qed.

Lemma document_count_zero (d : Document) :
  document_count q d = O <-> document_any q d = false.
Proof.
  unfold document_count, document_any.
  rewrite orb_false_iff, <- !count_forest_zero. lia.
Qed.

Lemma map_descendants_count (p : element -> bool) (g : element -> element)
    (n : node) :
  (forall e, q (g e) = q e) ->
  count_in q (map_descendants p g n) = count_in q n.
Proof.
  intros Hg. induction n as [d|e ch IH] using node_rect_children;
    [reflexivity|].
  simpl. f_equal. induction IH as [|c ch Hc Hch IHch]; [reflexivity|].
  simpl. rewrite IHch. f_equal. rewrite <- Hc.
  destruct (map_descendants p g c) as [e' ch'|d']; [|reflexivity].
  simpl. destruct (p e'); [rewrite Hg|]; reflexivity.
Qed.

Lemma insert_before_first_element_count (r : node) (l : list node) :
  list_sum (List.map (count_in q) (insert_before_first_element r l))
  = (count_in q r + list_sum (List.map (count_in q) l))%nat.
Proof.
  induction l as [|[e ch|d] l IH]; simpl.
  - lia.
  - lia.
  - rewrite IH. reflexivity.
Qed.

Variable p : element -> bool.
Variable f : node -> node.
Variable k : nat.
Hypothesis f_adds :
  forall e ch, count_in q (f (Element e ch)) = (count_in q (Element e ch) + k)%nat.

Lemma update_first_count (n n' : node) :
  update_first p f n = Some n' -> count_in q n' = (count_in q n + k)%nat.
Proof.
  revert n'; induction n as [d|e ch IH] using node_rect_children; intros n'.
  - discriminate.
  - rewrite update_first_Element. destruct (p e).
    + intros [= <-]. apply f_adds.
    + destruct (update_first_in p f ch) as [ch'|] eqn:Ech; [|discriminate].
      intros [= <-]. simpl.
      enough (list_sum (List.map (count_in q) ch')
              = (list_sum (List.map (count_in q) ch) + k)%nat) by lia.
      revert ch' Ech. induction IH as [|c ch Hc Hch IHch]; intros ch'; simpl;
        [discriminate|].
      destruct (update_first p f c) as [c'|] eqn:Ec.
      * intros [= <-]. simpl. rewrite (Hc c' eq_refl). lia.
      * destruct (update_first_in p f ch) as [l|] eqn:El; [|discriminate].
        intros [= <-]. simpl. rewrite (IHch l eq_refl). lia.
Qed.

Lemma update_first_in_count (l l' : list node) :
  update_first_in p f l = Some l' ->
  list_sum (List.map (count_in q) l')
  = (list_sum (List.map (count_in q) l) + k)%nat.
Proof.
  revert l'; induction l as [|c l IH]; intros l'; simpl; [discriminate|].
  destruct (update_first p f c) as [c'|] eqn:Ec.
  - intros [= <-]. simpl. rewrite (update_first_count c c' Ec). lia.
  - destruct (update_first_in p f l) as [l0|] eqn:El; [|discriminate].
    intros [= <-]. simpl. rewrite (IH l0 eq_refl). lia.
Qed.

Lemma update_first_document_count (d d' : Document) :
  update_first_document p f d = Some d' ->
  document_count q d' = (document_count q d + k)%nat.
Proof.
  unfold update_first_document, document_count.
  destruct (update_first_in p f (head_nodes d)) as [h|] eqn:Eh.
  - intros [= <-]. simpl. rewrite (update_first_in_count _ _ Eh). lia.
  - destruct (update_first_in p f (body_nodes d)) as [b|] eqn:Eb; [|discriminate].
    intros [= <-]. simpl. rewrite (update_first_in_count _ _ Eb). lia.
Qed.

End Counting.

(** [initializeHtml] adds no element with the id [i], except the one root
    it creates when the document has none. *)
Lemma initializeHtml_count (sel : ColorSet) (i : jsstring) (d : Document) :
  document_count (has_id i) (initializeHtml sel d)
  = if document_any (has_id HTML_ID) d then document_count (has_id i) d
    else if document_any (has_class (lit "filters")) d
         then (document_count (has_id i) d + count_in (has_id i) new_root)%nat
         else document_count (has_id i) d.
Proof.
  assert (Hr : forall n, count_in (has_id i) (restore_inputs sel n)
                         = count_in (has_id i) n).
  { intros n. apply map_descendants_count. intros e. unfold has_id.
    rewrite restore_input_id. reflexivity. }
  unfold initializeHtml.
  destruct (update_first_document (has_id HTML_ID) (restore_inputs sel) d)
    as [d1|] eqn:E1.
  - assert (Ha : document_any (has_id HTML_ID) d = true).
    { destruct (document_any (has_id HTML_ID) d) eqn:E; [reflexivity|].
      apply (update_first_document_None _ (restore_inputs sel)) in E. congruence. }
    rewrite Ha.
    rewrite (update_first_document_count (has_id i) _ _ O
               (fun e ch => eq_trans (Hr _) (eq_sym (Nat.add_0_r _))) d d1 E1).
    lia.
  - rewrite (proj1 (update_first_document_None _ _ d) E1).
    destruct (update_first_document (has_class (lit "filters"))
                (insert_root (restore_inputs sel new_root)) d) as [d2|] eqn:E2.
    + assert (Ha : document_any (has_class (lit "filters")) d = true).
      { destruct (document_any (has_class (lit "filters")) d) eqn:E; [reflexivity|].
        apply (update_first_document_None _
                 (insert_root (restore_inputs sel new_root))) in E. congruence. }
      rewrite Ha.
      apply (update_first_document_count (has_id i) _ _ _) with (2 := E2).
      intros e ch. unfold insert_root.
      rewrite !count_in_Element, insert_before_first_element_count, Hr. lia.
    + rewrite (proj1 (update_first_document_None _ _ d) E2). reflexivity.
Qed.

Lemma initializeCss_count (i : jsstring) (d : Document) :
  document_count (has_id i) (initializeCss d)
  = if document_any (has_id CSS_ID) d then document_count (has_id i) d
    else (document_count (has_id i) d + count_in (has_id i) css_node)%nat.
Proof.
  unfold initializeCss. destruct (document_any (has_id CSS_ID) d); [reflexivity|].
  unfold document_count. simpl. rewrite List.map_app, list_sum_app. simpl. lia.
Qed.

(** One call of [initialize] on a document that has neither the style
    block nor the root: exactly one style block, and at most one root. *)
Lemma initialize_counts (w : world) :
  document_count (has_id CSS_ID) (document w) = O ->
  document_count (has_id HTML_ID) (document w) = O ->
  document_count (has_id CSS_ID) (document (initialize w)) = 1%nat /\
  (document_count (has_id HTML_ID) (document (initialize w)) <= 1)%nat.
Proof.
  intros Hc Hh. rewrite initialize_document, !initializeHtml_count, !initializeCss_count.
  rewrite (proj1 (document_count_zero _ _) Hc), Hc, Hh.
  change (count_in (has_id CSS_ID) css_node) with 1%nat.
  change (count_in (has_id HTML_ID) css_node) with O.
  change (count_in (has_id CSS_ID) new_root) with O.
  change (count_in (has_id HTML_ID) new_root) with 1%nat.
  destruct (document_any (has_id HTML_ID) (initializeCss (document w)));
    destruct (document_any (has_class (lit "filters")) (initializeCss (document w)));
    simpl; lia.
Qed.

(** ** The cards a pass gets to *)

(** An iteration throws exactly on a faulting card, whatever the
    selection. *)
Lemma loop_body_faults (sel : ColorSet) (nf : bool) (c : card) :
  (loop_body sel nf c).2 = if faults c then Throw TypeError else Normal tt.
Proof.
  unfold loop_body, faults. rewrite mark_aired_highlighter, mark_aired_display.
  destruct (highlighter c) as [[css|]|]; destruct (display c); reflexivity.
Qed.

Lemma for_cards_reaches (sel : ColorSet) (nf : bool) (cs : list card) (i : nat) :
  (i < length cs)%nat ->
  (forallb (fun c => negb (faults c)) (take i cs) = true
   <-> (i < (for_cards sel nf cs).2)%nat).
Proof.
  revert i; induction cs as [|c cs IH]; intros i Hi; simpl in Hi; [lia|].
  destruct i as [|i].
  - simpl. destruct (loop_body sel nf c) as [c' [u|e]].
    + destruct (for_cards sel nf cs) as [[cs' r] n]. simpl. split; [lia | reflexivity].
    + simpl. split; [lia | reflexivity].
  - cbn [take firstn forallb for_cards].
    pose proof (loop_body_faults sel nf c) as Hf.
    destruct (loop_body sel nf c) as [c' [u|e]]; simpl in Hf.
    + destruct (faults c); [discriminate|]. simpl.
      specialize (IH i ltac:(lia)).
      destruct (for_cards sel nf cs) as [[cs' r] n]. simpl in *. rewrite IH. lia.
    + destruct (faults c); [|discriminate]. simpl. split; [discriminate | lia].
Qed.

(** The loop gets to a card exactly when the card is among those the
    pass enumerates. *)
Lemma pass_reaches_enumerated (sel : ColorSet) (p : page) (i : nat) :
  (i < length (cards p))%nat ->
  (pass_reaches p i = true <-> (i < cards_enumerated sel p)%nat).
Proof.
  intros Hi. rewrite cards_enumerated_for_cards. apply for_cards_reaches. exact Hi.
Qed.

Lemma pass_reaches_lookup (sel : ColorSet) (p : page) (i : nat) (c : card) :
  cards p !! i = Some c ->
  (pass_reaches p i = true ->
   cards (refreshed sel p) !! i
   = Some (loop_body sel (Set_size_is_zero sel) c).1) /\
  (pass_reaches p i = false -> cards (refreshed sel p) !! i = Some c).
Proof.
  intros Hc.
  assert (Hi : (i < length (cards p))%nat) by (eapply lookup_lt_Some; exact Hc).
  pose proof (pass_reaches_enumerated sel p i Hi) as Hr. split.
  - intros H. apply refreshed_enumerated; [exact Hc | apply Hr, H].
  - intros H. rewrite refreshed_not_enumerated; [exact Hc|].
    destruct (Nat.lt_ge_cases i (cards_enumerated sel p)) as [Hlt|Hge]; [|exact Hge].
    apply Hr in Hlt. congruence.
Qed.

(** ** The script, run again *)

Lemma script_rerun_Normal (localStorage : gmap jsstring jsstring)
    (t : timers) (d : Document) (obs : list observation) (w1 w : world) :
  script_run localStorage t d obs = Normal w1 ->
  document w = document w1 ->
  exists w', script_rerun localStorage (Normal w) = Normal w' /\
             document w' = document w1 /\
             length (observations w') = S (length (observations w)).
Proof.
  unfold script_rerun, script_run.
  destruct (SELECTED_COLORS_init localStorage) as [sel|e]; [|discriminate].
  intros [= <-] Hd. eexists. split; [reflexivity|]. split.
  - rewrite initialize_document. cbn [document SELECTED_COLORS]. rewrite Hd.
    rewrite initialize_document. cbn [document SELECTED_COLORS].
    rewrite initializeCss_when_present
      by (apply initializeHtml_keeps_id, initializeCss_present).
    apply initializeHtml_twice.
  - match goal with
    | |- context [observations (initialize ?w0)] =>
        destruct (initialize_observations_fresh w0 eq_refl) as [o Ho]
    end.
    rewrite Ho, length_app. simpl. lia.
Qed.

Lemma script_reruns (localStorage : gmap jsstring jsstring)
    (t : timers) (d : Document) (obs : list observation) (w1 : world) (n : nat) :
  script_run localStorage t d obs = Normal w1 ->
  exists wn, Nat.iter n (script_rerun localStorage) (Normal w1) = Normal wn /\
             document wn = document w1 /\
             length (observations wn) = (n + length (observations w1))%nat.
Proof.
  intros H1. induction n as [|n IH].
  - exists w1. repeat split; reflexivity.
  - destruct IH as (wn & Hn & Hd & Ho).
    destruct (script_rerun_Normal localStorage t d obs w1 wn H1 Hd)
      as (w' & Hr & Hd' & Ho').
    exists w'. change (Nat.iter (S n) (script_rerun localStorage) (Normal w1))
      with (script_rerun localStorage
              (Nat.iter n (script_rerun localStorage) (Normal w1))).
    rewrite Hn. split; [exact Hr|]. split; [exact Hd'|]. rewrite Ho', Ho. lia.
Qed.

Lemma script_run_first (localStorage : gmap jsstring jsstring)
    (t : timers) (d : Document) (obs : list observation) (w1 : world) :
  script_run localStorage t d obs = Normal w1 ->
  length (observations w1) = S (length obs) /\
  (document_count (has_id CSS_ID) d = O ->
   document_count (has_id HTML_ID) d = O ->
   document_count (has_id CSS_ID) (document w1) = 1%nat /\
   (document_count (has_id HTML_ID) (document w1) <= 1)%nat).
Proof.
  unfold script_run.
  destruct (SELECTED_COLORS_init localStorage) as [sel|e]; [|discriminate].
  intros [= <-]. split.
  - match goal with
    | |- context [observations (initialize ?w0)] =>
        destruct (initialize_observations_fresh w0 eq_refl) as [o Ho]
    end.
    rewrite Ho, length_app. simpl. lia.
  - intros Hc Hh. apply initialize_counts; assumption.
Qed.

(* ===================================================================== *)
(** * The claims of the specification *)
(* ===================================================================== *)

(** ** Loading the persisted selection *)

(** C1, counterexample.  The claim has every malformed stored value load
    as the empty set.  A stored text that is not JSON makes the
    initialiser throw a [SyntaxError], and stored JSON that is an object
    makes it throw a [TypeError]: nothing catches either. *)
Lemma malformed_selection_throws :
  SELECTED_COLORS_init {[ STORAGE_KEY := lit "not json" ]} = Throw SyntaxError /\
  SELECTED_COLORS_init {[ STORAGE_KEY := lit "{}" ]} = Throw TypeError.
Proof. split; vm_compute; reflexivity. Qed.

(** C1, as amended.  Loading the persisted selection yields the empty set
    when there is no stored value or the stored value is the empty string.
    A malformed value is not turned into the empty set: a text that is not
    JSON makes the load throw a [SyntaxError]; JSON that is a number, a
    boolean or an object makes it throw a [TypeError]; and a JSON string
    loads as the set of its characters. *)
Theorem persisted_selection_load (localStorage : gmap jsstring jsstring) :
  (localStorage !! STORAGE_KEY = None \/ localStorage !! STORAGE_KEY = Some [] ->
   SELECTED_COLORS_init localStorage = Normal Set_empty) /\
  (forall s, localStorage !! STORAGE_KEY = Some s -> s <> [] ->
             JSON_parse s = None ->
             SELECTED_COLORS_init localStorage = Throw SyntaxError) /\
  (forall s v, localStorage !! STORAGE_KEY = Some s -> JSON_parse s = Some v ->
               match v with
               | JBool _ | JNum _ | JObj _ => True
               | _ => False
               end ->
               SELECTED_COLORS_init localStorage = Throw TypeError) /\
  (forall s t, localStorage !! STORAGE_KEY = Some s -> JSON_parse s = Some (JStr t) ->
               SELECTED_COLORS_init localStorage
               = Normal {| string_members := list_to_set (code_points t);
                           other_members := false |}).
Proof.
  repeat split.
  - intros [H | H]; unfold SELECTED_COLORS_init; rewrite H; reflexivity.
  - intros s Hs Hne Hp.
    rewrite (SELECTED_COLORS_init_stored _ s Hs Hne), Hp. reflexivity.
  - intros s v Hs Hp Hv.
    assert (Hne : s <> []) by (intros ->; rewrite JSON_parse_empty in Hp; discriminate).
    rewrite (SELECTED_COLORS_init_stored _ s Hs Hne), Hp.
    destruct v; try contradiction; reflexivity.
  - intros s t Hs Hp.
    assert (Hne : s <> []) by (intros ->; rewrite JSON_parse_empty in Hp; discriminate).
    rewrite (SELECTED_COLORS_init_stored _ s Hs Hne), Hp. reflexivity.
Qed.

Lemma persisted_selection_load_witness :
  SELECTED_COLORS_init ∅ = Normal Set_empty /\
  SELECTED_COLORS_init {[ STORAGE_KEY := lit "[1," ]} = Throw SyntaxError /\
  SELECTED_COLORS_init {[ STORAGE_KEY := lit "42" ]} = Throw TypeError.
Proof.
  split; [|split].
  - apply (proj1 (persisted_selection_load ∅)). left. reflexivity.
  - apply (proj1 (proj2 (persisted_selection_load {[ STORAGE_KEY := lit "[1," ]}))
             (lit "[1,")).
    + vm_compute. reflexivity.
    + discriminate.
    + vm_compute. reflexivity.
  - apply (proj1 (proj2 (proj2 (persisted_selection_load {[ STORAGE_KEY := lit "42" ]})))
             (lit "42") (JNum (lit "42"))).
    + vm_compute. reflexivity.
    + vm_compute. reflexivity.
    + exact I.
Defined.

(** ** The visibility predicate *)

(** C2.  For every colour token [c] of a card, absent or present (a
    present token is never the empty string, see
    [COLOR_RE_exec_nonempty]), and every selection: the card is shown when
    the selection is empty; when it is not empty the card is shown exactly
    when the token is present and a member of the selection, or the token
    is absent and [gray] is a member. *)
Theorem visibility_predicate (c : option jsstring) (sel : ColorSet) :
  c <> Some [] ->
  (Set_size_is_zero sel = true -> show (Set_size_is_zero sel) c sel = true) /\
  (Set_size_is_zero sel = false ->
   (show (Set_size_is_zero sel) c sel = true <->
    (exists t, c = Some t /\ t ∈ string_members sel)
    \/ (c = None /\ lit "gray" ∈ string_members sel))).
Proof.
  intros Hc. split.
  - intros ->. reflexivity.
  - intros ->. destruct c as [t|].
    + rewrite show_token by congruence. simpl. rewrite Set_has_true. split.
      * intros H. left. exists t. split; [reflexivity | exact H].
      * intros [(t' & [= <-] & H) | [H _]]; [exact H | discriminate].
    + rewrite show_absent. simpl. rewrite Set_has_true. split.
      * intros H. right. split; [reflexivity | exact H].
      * intros [(t' & H & _) | [_ H]]; [discriminate | exact H].
Qed.

Lemma visibility_predicate_witness :
  show (Set_size_is_zero only_green) (Some (lit "green")) only_green = true.
Proof.
  apply (proj2 (visibility_predicate (Some (lit "green")) only_green
                  ltac:(discriminate))).
  - vm_compute. reflexivity.
  - left. exists (lit "green"). split; [reflexivity|].
    apply elem_of_union_l, elem_of_singleton. reflexivity.
Defined.

(** C3, counterexample.  The claim has a token outside the palette treated
    like no token at all, so that the selection [{gray}] shows the card.
    The pattern extracts [blue] from the style text, [blue] is not in the
    palette, and with the selection [{gray}] the card is hidden, while a
    card whose style yields no token is shown. *)
Lemma blue_hidden_under_gray :
  COLOR_RE_exec (lit "--color-blue:#00f") = Some (lit "blue") /\
  (lit "blue" ∉ KNOWN_COLORS) /\
  show_card (lit "--color-blue:#00f") only_gray = false /\
  show_card (lit "color:red") only_gray = true.
Proof.
  split; [vm_compute; reflexivity|].
  split; [apply (bool_decide_unpack (lit "blue" ∉ KNOWN_COLORS)); vm_compute; exact I|].
  split; vm_compute; reflexivity.
Qed.

(** C3, as amended.  The visibility predicate is total.  A card whose
    highlight style yields no token is treated as the [gray] category.  A
    token outside the palette is not treated as absent: under a non-empty
    selection the card is shown exactly when that very token is a member;
    in particular, with the selection [{gray}], a card carrying a token
    outside the palette is hidden. *)
Theorem out_of_palette_token (t : jsstring) (sel : ColorSet) :
  t <> [] -> t ∉ KNOWN_COLORS ->
  show (Set_size_is_zero sel) (Some t) sel
    = (Set_size_is_zero sel || Set_has sel t) /\
  show (Set_size_is_zero sel) None sel
    = (Set_size_is_zero sel || Set_has sel (lit "gray")) /\
  show (Set_size_is_zero only_gray) (Some t) only_gray = false.
Proof.
  intros Ht Hk. split; [apply show_token; exact Ht|].
  split; [apply show_absent|].
  rewrite show_token by exact Ht.
  replace (Set_size_is_zero only_gray) with false by (vm_compute; reflexivity).
  simpl. apply Set_has_false. unfold only_gray, Set_add, Set_empty. simpl.
  intros H. apply elem_of_union in H. destruct H as [H|H].
  - apply elem_of_singleton in H. subst t. apply Hk.
    apply (bool_decide_unpack (lit "gray" ∈ KNOWN_COLORS)). vm_compute. exact I.
  - exact (not_elem_of_empty _ H).
Qed.

Lemma out_of_palette_token_witness :
  show (Set_size_is_zero only_gray) (Some (lit "blue")) only_gray = false.
Proof.
  apply (out_of_palette_token (lit "blue") only_gray).
  - discriminate.
  - apply (bool_decide_unpack (lit "blue" ∉ KNOWN_COLORS)). vm_compute. exact I.
Defined.

(** ** The refresh pass *)

(** C4, counterexample.  The claim has the cards after a faulting card
    still processed.  With the selection [{green}] and a first card whose
    highlighter has no [style], the pass throws on the first card, logs the
    error and ends: the red card after it is left as it was, visible and
    unmarked, although processing it would hide and mark it. *)
Lemma fault_aborts_pass :
  refresh only_green (page_of [card_without_style; red_card])
  = ({| cards := [card_without_style; red_card]; resize_events := 1;
        console_errors := [TypeError] |}, Normal tt) /\
  (loop_body only_green false red_card).1
  = {| classList := [AIRED_CLASS]; episode := episode red_card;
       highlighter := highlighter red_card; display := Some (lit "none") |}.
Proof. split; vm_compute; reflexivity. Qed.

(** C4, as amended.  [refresh()] never propagates an exception to its
    caller: a fault during the pass is caught, logged once and suppressed.
    A fault raised while processing one card aborts the pass: the error
    comes from the last card the loop iterated over, the cards up to that
    one are left as their iteration left them, and every card after it is
    left untouched.  A pass without fault iterates over every card and
    logs nothing. *)
Theorem refresh_catches_and_aborts (sel : ColorSet) (p : page) :
  (refresh sel p).2 = Normal tt /\
  (forall i c, (i < cards_enumerated sel p)%nat -> cards p !! i = Some c ->
               cards (refreshed sel p) !! i
               = Some (loop_body sel (Set_size_is_zero sel) c).1) /\
  (forall i, (cards_enumerated sel p <= i)%nat ->
             cards (refreshed sel p) !! i = cards p !! i) /\
  (forall e, (refresh_try sel p).1.2 = Throw e ->
             console_errors (refreshed sel p) = console_errors p ++ [e] /\
             exists k c, cards_enumerated sel p = S k /\ cards p !! k = Some c /\
                         (loop_body sel (Set_size_is_zero sel) c).2 = Throw e) /\
  ((refresh_try sel p).1.2 = Normal tt ->
   console_errors (refreshed sel p) = console_errors p /\
   cards_enumerated sel p = length (cards p)).
Proof.
  split; [|split; [|split; [|split]]].
  - unfold refresh. destruct (refresh_try sel p) as [[p' [u|e]] n]; reflexivity.
  - intros i c Hi Hc. apply refreshed_enumerated; assumption.
  - apply refreshed_not_enumerated.
  - intros e He. split.
    + unfold refreshed, refresh. rewrite refresh_try_for_cards in *.
      simpl in He. rewrite He. reflexivity.
    + rewrite cards_enumerated_for_cards. rewrite refresh_try_for_cards in He.
      simpl in He.
      destruct (for_cards_throw _ _ _ _ He) as (k & c & Hn & Hk & Ht & _).
      exists k, c. repeat split; assumption.
  - intros Hn. split.
    + unfold refreshed, refresh. rewrite refresh_try_for_cards in *.
      simpl in Hn. rewrite Hn. reflexivity.
    + rewrite cards_enumerated_for_cards. rewrite refresh_try_for_cards in Hn.
      simpl in Hn. apply (for_cards_normal _ _ _ Hn).
Qed.

Lemma refresh_catches_and_aborts_witness :
  console_errors (refreshed only_green (page_of [card_without_style; red_card]))
  = [TypeError] /\
  cards (refreshed only_green (page_of [card_without_style; red_card])) !! 1%nat
  = Some red_card.
Proof.
  pose proof (refresh_catches_and_aborts only_green
                (page_of [card_without_style; red_card]))
    as (_ & _ & Hge & Hthrow & _).
  split.
  - apply (Hthrow TypeError). vm_compute. reflexivity.
  - apply (Hge 1%nat). vm_compute. lia.
Defined.

(** The pass iterates over every card of a page whose elements all have a
    [style]. *)
Lemma cards_enumerated_all (sel : ColorSet) (p : page) :
  (forall c, c ∈ cards p ->
             highlighter c <> Some None /\ display c <> None) ->
  cards_enumerated sel p = length (cards p).
Proof.
  intros Hall. rewrite cards_enumerated_for_cards.
  induction (cards p) as [|c cs IH]; simpl; [reflexivity|].
  destruct (Hall c (list_elem_of_here _ _)) as [Hh Hd].
  assert (Hb : (loop_body sel (Set_size_is_zero sel) c).2 = Normal tt).
  { unfold loop_body. rewrite mark_aired_highlighter, mark_aired_display.
    destruct (highlighter c) as [[css|]|]; [|congruence|reflexivity].
    destruct (display c); [reflexivity | congruence]. }
  destruct (loop_body sel (Set_size_is_zero sel) c) as [c' [[]|e]]; [|discriminate].
  destruct (for_cards sel (Set_size_is_zero sel) cs) as [[cs' r] n] eqn:Ef.
  simpl in *. f_equal. apply IH. intros c0 Hc0. apply Hall.
  apply list_elem_of_further. exact Hc0.
Qed.

(** C7, counterexample.  The claim has the aired-marker step applied to
    every card without highlighter that the pass enumerates.  On a page
    whose first card has a highlighter without [style], the pass ends on
    the first card: the second card, which has no highlighter and whose
    status text has the word, is left without the marker. *)
Lemma marker_step_skipped_after_fault :
  highlighter plain_aired_card = None /\
  has_aired plain_aired_card = true /\
  AIRED_CLASS ∈ classList (mark_aired plain_aired_card) /\
  exists c',
    cards (refreshed only_green (page_of [card_without_style; plain_aired_card]))
      !! 1%nat = Some c' /\
    AIRED_CLASS ∉ classList c'.
Proof.
  split; [reflexivity|]. split; [reflexivity|].
  split; [apply (bool_decide_unpack _); vm_compute; exact I|].
  exists plain_aired_card. split; [vm_compute; reflexivity|].
  apply (bool_decide_unpack _). vm_compute. exact I.
Qed.

(** C7, as amended.  For every card that has no highlight sub-element, a
    refresh pass leaves the card's [display] unchanged; when the loop gets
    to the card, that is, when no card before it in document order
    faults, the aired-marker step is applied to it, and the card then
    carries the marker exactly when its status text has the word; a card
    the loop does not get to is left as it was, marker included. *)
Theorem card_without_highlighter (sel : ColorSet) (p : page) (i : nat) (c : card) :
  cards p !! i = Some c -> highlighter c = None ->
  (exists c', cards (refreshed sel p) !! i = Some c' /\ display c' = display c) /\
  (pass_reaches p i = true ->
   cards (refreshed sel p) !! i = Some (mark_aired c) /\
   (AIRED_CLASS ∈ classList (mark_aired c) <-> has_aired c = true)) /\
  (pass_reaches p i = false -> cards (refreshed sel p) !! i = Some c).
Proof.
  intros Hc Hh. destruct (pass_reaches_lookup sel p i c Hc) as [Hyes Hno].
  rewrite loop_body_no_highlighter in Hyes by exact Hh.
  split; [|split].
  - destruct (pass_reaches p i).
    + exists (mark_aired c). split; [apply Hyes; reflexivity | apply mark_aired_display].
    + exists c. split; [apply Hno; reflexivity | reflexivity].
  - intros Hr. split; [apply Hyes; exact Hr | apply mark_aired_spec].
  - exact Hno.
Qed.

Lemma card_without_highlighter_witness :
  cards (refreshed only_green (page_of [red_card; plain_aired_card])) !! 1%nat
    = Some (mark_aired plain_aired_card) /\
  cards (refreshed only_green (page_of [card_without_style; plain_aired_card]))
    !! 1%nat = Some plain_aired_card.
Proof.
  split.
  - apply (proj1 (proj2 (card_without_highlighter only_green
                    (page_of [red_card; plain_aired_card]) 1 plain_aired_card
                    eq_refl eq_refl))).
    reflexivity.
  - apply (proj2 (proj2 (card_without_highlighter only_green
                    (page_of [card_without_style; plain_aired_card]) 1
                    plain_aired_card eq_refl eq_refl))).
    reflexivity.
Defined.

(** C8, counterexample.  The claim has no enumerated card left with a
    stale marker.  On a page whose first card has a highlighter without
    [style], the pass ends on the first card: the second card, whose
    status text does not have the word, keeps the marker it carried. *)
Lemma stale_marker_after_fault :
  has_aired stale_card = false /\
  exists c',
    cards (refreshed Set_empty (page_of [card_without_style; stale_card]))
      !! 1%nat = Some c' /\
    AIRED_CLASS ∈ classList c'.
Proof.
  split; [reflexivity|].
  exists stale_card. split; [vm_compute; reflexivity|].
  apply (bool_decide_unpack _). vm_compute. exact I.
Qed.

(** C8, as amended.  The aired marker is recomputed on every pass for
    the cards the loop gets to: after a pass, every card with no faulting
    card before it carries the marker class exactly when it has a status
    sub-element whose text contains [aired], whatever its classes were
    before, so a marker that no longer applies is removed; a card after a
    faulting card keeps the classes it had. *)
Theorem aired_marker_fresh (sel : ColorSet) (p : page) (i : nat) (c : card) :
  cards p !! i = Some c ->
  exists c', cards (refreshed sel p) !! i = Some c' /\
             (pass_reaches p i = true ->
              (AIRED_CLASS ∈ classList c' <->
               exists text a b, episode c = Some text /\
                                text = a ++ lit "aired" ++ b)) /\
             (pass_reaches p i = false -> classList c' = classList c).
Proof.
  intros Hc. destruct (pass_reaches_lookup sel p i c Hc) as [Hyes Hno].
  destruct (pass_reaches p i).
  - eexists. split; [apply Hyes; reflexivity|]. split; [|discriminate].
    intros _. rewrite loop_body_classList, mark_aired_spec. apply has_aired_spec.
  - exists c. split; [apply Hno; reflexivity|]. split; [discriminate | reflexivity].
Qed.

Lemma aired_marker_fresh_witness :
  exists c',
    cards (refreshed Set_empty (page_of [red_card; stale_card])) !! 1%nat
      = Some c' /\
    AIRED_CLASS ∉ classList c'.
Proof.
  destruct (aired_marker_fresh Set_empty (page_of [red_card; stale_card]) 1
              stale_card eq_refl) as (c' & Hc' & Hyes & _).
  exists c'. split; [exact Hc'|]. intros Hin.
  apply (Hyes eq_refl) in Hin. apply has_aired_spec in Hin. discriminate Hin.
Defined.

(** ** The debounce *)

(** C5.  Trailing-edge debounce.  For calls of [debounceRefresh()] at
    times [first :: later], each less than the debounce interval after the
    one before, the refresh body runs exactly once, 180 time units after
    the last call, and not before.  Whatever the calls and however time
    passes, at most one scheduled refresh is outstanding: a new request
    cancels the pending one before it reschedules. *)
Theorem debounce_trailing_edge (t0 first : Z) (later : list Z) (T : Z) :
  (t0 <= first)%Z -> burst first later ->
  let t := timer_run (requests_at (first :: later)) (timers_start t0) in
  let last := List.last later first in
  ((last + 180 <= T)%Z -> refresh_runs (advance T t) = [(last + 180)%Z]) /\
  ((T < last + 180)%Z -> refresh_runs (advance T t) = []) /\
  (forall es : list timer_event,
     (length (scheduled (timer_run es (timers_start t0))) <= 1)%nat).
Proof.
  intros Ht0 Hb t last.
  assert (Hw : waiting last t).
  { subst t last. change (requests_at (first :: later))
      with ([Elapse first; Request] ++ requests_at later).
    unfold timer_run. rewrite fold_left_app.
    apply waiting_burst; [|exact Hb]. simpl.
    rewrite advance_idle by reflexivity.
    rewrite debounceRefresh_idle by reflexivity. simpl.
    split; simpl.
    - lia.
    - reflexivity.
    - exists 1%Z. repeat split; try lia. f_equal. f_equal. lia. }
  destruct Hw as [Hn Hr (h & Hs & Hvar & Hh & Hlt)].
  split; [|split].
  - intros HT. erewrite advance_fires by (try exact Hs; exact HT). simpl.
    rewrite Hr. reflexivity.
  - intros HT. erewrite advance_before_due by (try exact Hs; exact HT). simpl.
    exact Hr.
  - intros es. apply timers_ok_at_most_one, timers_ok_run, timers_ok_start.
Qed.

(** Three batches 50 time units apart: one refresh, 180 units after the
    third. *)
Lemma debounce_trailing_edge_witness :
  refresh_runs (advance 1000 (timer_run (requests_at [0; 50; 100]%Z)
                                        (timers_start 0)))
  = [280%Z].
Proof.
  apply (proj1 (debounce_trailing_edge 0 0 [50; 100]%Z 1000
                  ltac:(lia) ltac:(vm_compute; intuition discriminate))).
  vm_compute. discriminate.
Defined.

(** ** The watcher *)

(** C6, counterexample.  The claim has a refresh requested when a record
    removes an element that is inside a card.  The record of the removal
    of a cover from a card names the card as its target and the cover as
    removed; when the callback runs the cover is detached, it is no card
    and contains none, and the callback makes no call. *)
Lemma removal_inside_card_requests_nothing :
  type cover_removed_from_card = childList /\
  closest_card (target cover_removed_from_card) = true /\
  List.map nodeType (List.map self (removedNodes cover_removed_from_card)) = [1] /\
  (observer_callback (pending_after []) [cover_removed_from_card]).2 = [].
Proof. repeat split; vm_compute; reflexivity. Qed.

(** C6, as amended.  For every batch the watcher callback handles, after
    any number of earlier batches: [initializeHtml] is called exactly when
    some child-list record adds or removes an element that is or contains
    the controls container; [debounceRefresh] is called exactly when some
    child-list record adds or removes an element that is a card, contains
    a card or has a card among its ancestors when the callback runs, or
    some attributes record targets an element that is a card or inside
    one; each is called at most once; the scan over the records runs the
    body for every record until both flags are raised and for none after
    that; both flags are lowered when the callback returns.  The parent a
    node was removed from is not looked at: a batch of child-list records
    whose nodes are all detached and neither are nor contain a card
    requests no refresh. *)
Theorem watcher_classification (earlier : list (list MutationRecord))
    (batch : list MutationRecord) :
  let st := pending_after earlier in
  let calls := (observer_callback st batch).2 in
  (call_initializeHtml ∈ calls <->
   exists m n, m ∈ batch /\ adds_or_removes m n /\
               is_or_contains filters_element n) /\
  (call_debounceRefresh ∈ calls <->
   exists m, m ∈ batch /\
     ((exists n, adds_or_removes m n /\
                 (is_or_contains card_element n \/ is_inside card_element n))
      \/ (type m = attributes_change /\ is_or_inside card_element (target m)))) /\
  NoDup calls /\
  (forall p q, batch = p ++ q ->
     (both_pending (for_mutations st p).1 = false ->
      (for_mutations st p).2 = length p) /\
     (both_pending (for_mutations st p).1 = true ->
      (for_mutations st batch).2 = (for_mutations st p).2)) /\
  (observer_callback st batch).1 = pending_init /\
  ((forall m, m ∈ batch ->
      type m = childList /\
      forall n, n ∈ addedNodes m ++ removedNodes m ->
                ancestors n = [] /\ ~ is_or_contains card_element n) ->
   call_debounceRefresh ∉ calls).
Proof.
  intros st calls. subst st calls. rewrite pending_after_init.
  rewrite observer_callback_init. simpl.
  split; [|split; [|split; [|split; [|split]]]].
  - split.
    + intros H.
      destruct (existsb record_touches_filters batch) eqn:E.
      * apply existsb_exists in E. destruct E as (m & Hm & Ht).
        apply record_touches_filters_spec in Ht. destruct Ht as (n & Hn & Hp).
        exists m, n. split; [apply list_elem_of_In; exact Hm | split; assumption].
      * simpl in H. destruct (existsb record_touches_cards batch); simpl in H.
        -- apply list_elem_of_singleton in H. discriminate.
        -- inversion H.
    + intros (m & n & Hm & Hn & Hp).
      assert (E : existsb record_touches_filters batch = true).
      { apply existsb_exists. exists m. split; [apply list_elem_of_In; exact Hm|].
        apply record_touches_filters_spec. eauto. }
      rewrite E. simpl. apply list_elem_of_here.
  - split.
    + intros H.
      destruct (existsb record_touches_cards batch) eqn:E.
      * apply existsb_exists in E. destruct E as (m & Hm & Ht).
        apply record_touches_cards_spec in Ht.
        exists m. split; [apply list_elem_of_In; exact Hm | exact Ht].
      * rewrite app_nil_r in H.
        destruct (existsb record_touches_filters batch); simpl in H.
        -- apply list_elem_of_singleton in H. discriminate.
        -- inversion H.
    + intros (m & Hm & Hp).
      assert (E : existsb record_touches_cards batch = true).
      { apply existsb_exists. exists m. split; [apply list_elem_of_In; exact Hm|].
        apply record_touches_cards_spec. exact Hp. }
      rewrite E. apply elem_of_app. right. apply list_elem_of_here.
  - destruct (existsb record_touches_filters batch),
             (existsb record_touches_cards batch); simpl;
      apply (bool_decide_unpack _); vm_compute; exact I.
  - intros p q ->. split.
    + apply for_mutations_scans.
    + intros H. rewrite (for_mutations_stops _ p q H). reflexivity.
  - reflexivity.
  - intros Hall.
    assert (E : existsb record_touches_cards batch = false).
    { destruct (existsb record_touches_cards batch) eqn:E; [|reflexivity].
      apply existsb_exists in E. destruct E as (m & Hm & Ht).
      apply record_touches_cards_spec in Ht.
      destruct (Hall m (proj2 (list_elem_of_In _ _) Hm)) as [Hty Hnodes].
      destruct Ht as [(n & [_ Hn] & Hcard) | [Hattr _]]; [|congruence].
      destruct (Hnodes n Hn) as [Hanc Hnot].
      destruct Hcard as [Hcard | (_ & a & Ha & _)]; [contradiction|].
      rewrite Hanc in Ha. inversion Ha. }
    rewrite E, app_nil_r.
    destruct (existsb record_touches_filters batch); intros H.
    + apply list_elem_of_singleton in H. discriminate.
    + inversion H.
Qed.

Lemma watcher_classification_witness :
  call_initializeHtml ∈ (observer_callback (pending_after [])
                           [style_change_in_card; header_added]).2 /\
  call_debounceRefresh ∉ (observer_callback (pending_after [])
                            [cover_removed_from_card]).2.
Proof.
  split.
  - apply (proj1 (watcher_classification [] [style_change_in_card; header_added])).
    exists header_added, {| ancestors := [];
                            self := div_with [lit "header"]
                                      [div_with [lit "filters"] []] |}.
    split; [apply list_elem_of_further, list_elem_of_here|].
    split.
    + split; [reflexivity | apply list_elem_of_here].
    + exists (new_element (lit "div") [] [lit "filters"] [] []). split.
      * eapply occurs_below; [apply list_elem_of_here | apply occurs_here].
      * apply list_elem_of_here.
  - apply (proj2 (proj2 (proj2 (proj2 (proj2
             (watcher_classification [] [cover_removed_from_card])))))).
    intros m Hm. apply list_elem_of_singleton in Hm. subst m.
    split; [reflexivity|]. intros n Hn.
    apply list_elem_of_singleton in Hn. subst n.
    split; [reflexivity|]. intros (x & Hx & Hcard).
    apply occurs_root_or_below in Hx. destruct Hx as [-> | (c & Hc & _)].
    + destruct Hcard as [H|H]; revert H;
        apply (bool_decide_unpack (_ ∉ _)); vm_compute; exact I.
    + inversion Hc.
Defined.

(** ** Initialisation *)

(** C9, counterexample.  The claim has the observer never duplicated
    when the script is injected again.  The script run on a page with a
    controls container, and run again on the page the first run left,
    leaves two registrations of an observer on the body. *)
Lemma second_run_second_observer :
  exists w1 w2,
    script_run ∅ (timers_start 0) (document fresh_world) [] = Normal w1 /\
    script_rerun ∅ (Normal w1) = Normal w2 /\
    length (observations w1) = 1%nat /\
    length (observations w2) = 2%nat.
Proof. eexists _, _. repeat split. Qed.

(** C9, as amended.  Initialisation is idempotent where it goes through
    the document.  [initializeHtml] called twice in a row leaves the
    document, with its nodes, listeners and checked states, exactly as one
    call leaves it.  The whole script, run again any number of times on
    the page a run left behind, leaves the document as the first run left
    it, so that a page that started without style block and root has
    exactly one style block and at most one root.  The observer is not
    covered: every run registers one more. *)
Theorem initialization_idempotent :
  (forall sel d, initializeHtml sel (initializeHtml sel d) = initializeHtml sel d) /\
  (forall localStorage t d obs w1 n,
     script_run localStorage t d obs = Normal w1 ->
     exists wn,
       Nat.iter n (script_rerun localStorage) (Normal w1) = Normal wn /\
       document wn = document w1 /\
       length (observations wn) = (n + S (length obs))%nat /\
       (document_count (has_id CSS_ID) d = O ->
        document_count (has_id HTML_ID) d = O ->
        document_count (has_id CSS_ID) (document wn) = 1%nat /\
        (document_count (has_id HTML_ID) (document wn) <= 1)%nat)).
Proof.
  split; [exact initializeHtml_twice|].
  intros localStorage t d obs w1 n H1.
  destruct (script_reruns localStorage t d obs w1 n H1) as (wn & Hn & Hd & Ho).
  destruct (script_run_first localStorage t d obs w1 H1) as [Hobs Hcount].
  exists wn. split; [exact Hn|]. split; [exact Hd|]. split.
  - rewrite Ho, Hobs. reflexivity.
  - rewrite Hd. exact Hcount.
Qed.

Lemma initialization_idempotent_witness :
  exists w1 wn,
    script_run ∅ (timers_start 0) (document fresh_world) [] = Normal w1 /\
    Nat.iter 2 (script_rerun ∅) (Normal w1) = Normal wn /\
    document wn = document w1 /\
    length (observations wn) = 3%nat /\
    document_count (has_id CSS_ID) (document wn) = 1%nat /\
    (document_count (has_id HTML_ID) (document wn) <= 1)%nat.
Proof.
  assert (E : exists w1, script_run ∅ (timers_start 0) (document fresh_world) []
                         = Normal w1)
    by (eexists; vm_compute; reflexivity).
  destruct E as [w1 E1].
  destruct (proj2 initialization_idempotent ∅ (timers_start 0)
              (document fresh_world) [] w1 2%nat E1)
    as (wn & Hn & Hd & Ho & Hc).
  exists w1, wn. split; [exact E1|]. split; [exact Hn|]. split; [exact Hd|].
  split; [exact Ho|]. apply Hc; reflexivity.
Defined.

(** ** The selection and the palette *)






(** ** The scenarios of the specification *)

(** Scenario 1: with no filter selected every card is shown, whatever its
    colour. *)
Example scenario_no_filter (cssText : jsstring) :
  show_card cssText Set_empty = true.
Proof. reflexivity. Qed.

(** Scenario 2: with [{green}] selected a green card is shown and a red
    card is hidden. *)
Example scenario_green_selected :
  show_card (lit "--color-green: #5dc12f;") only_green = true /\
  show_card (lit "--color-red: #e85d75;") only_green = false.
Proof. split; vm_compute; reflexivity. Qed.

(** Scenario 3: with [{gray}] selected a card whose highlight style cannot
    be parsed is shown and a yellow card is hidden. *)
Example scenario_gray_selected :
  show_card (lit "opacity: 0.5;") only_gray = true /\
  show_card (lit "--color-yellow: #f7bf63;") only_gray = false.
Proof. split; vm_compute; reflexivity. Qed.

(** Scenario 4: the marker follows the status text from one pass to the
    next, in both directions. *)
Example scenario_marker_follows_text :
  let airing := {| classList := []; episode := Some (lit "airing");
                   highlighter := None; display := Some [] |} in
  let pass1 := refreshed Set_empty (page_of [airing]) in
  let aired := List.map (fun c => {| classList := classList c;
                                     episode := Some (lit "has aired");
                                     highlighter := None;
                                     display := display c |}) (cards pass1) in
  let pass2 := refreshed Set_empty (page_of aired) in
  let back := List.map (fun c => {| classList := classList c;
                                    episode := Some (lit "airing");
                                    highlighter := None;
                                    display := display c |}) (cards pass2) in
  let pass3 := refreshed Set_empty (page_of back) in
  List.map classList (cards pass1) = [[]] /\
  List.map classList (cards pass2) = [[AIRED_CLASS]] /\
  List.map classList (cards pass3) = [[]].
Proof. repeat split; vm_compute; reflexivity. Qed.

(* ===================================================================== *)
(** * Further properties of the code *)
(* ===================================================================== *)

(** ** [JSON.stringify] and [JSON.parse] *)

Lemma hex_value_hex_digit (d : N) : d < 16 -> hex_value (hex_digit d) = Some d.
Proof.
  intros H.
  assert (Hd : d = 0 \/ d = 1 \/ d = 2 \/ d = 3 \/ d = 4 \/ d = 5 \/ d = 6 \/ d = 7
               \/ d = 8 \/ d = 9 \/ d = 10 \/ d = 11 \/ d = 12 \/ d = 13
               \/ d = 14 \/ d = 15) by lia.
  repeat (destruct Hd as [-> | Hd]; [reflexivity|]). subst d. reflexivity.
Qed.

Lemma hex4_unicode_escape (c : N) (rest : jsstring) :
  c < 65536 ->
  exists h1 h2 h3 h4,
    unicode_escape c ++ rest = 92 :: 117 :: h1 :: h2 :: h3 :: h4 :: rest /\
    hex4 h1 h2 h3 h4 = Some c.
Proof.
  intros Hc. eexists _, _, _, _. split; [reflexivity|].
  unfold hex4.
  assert (H3 : c / 4096 < 16) by (apply N.Div0.div_lt_upper_bound; lia).
  assert (H2 : (c / 256) mod 16 < 16) by (apply N.mod_lt; lia).
  assert (H1 : (c / 16) mod 16 < 16) by (apply N.mod_lt; lia).
  assert (H0 : c mod 16 < 16) by (apply N.mod_lt; lia).
  rewrite !hex_value_hex_digit by assumption. f_equal.
  pose proof (N.div_mod c 16 ltac:(lia)) as E0.
  pose proof (N.div_mod (c / 16) 16 ltac:(lia)) as E1.
  pose proof (N.div_mod (c / 256) 16 ltac:(lia)) as E2.
  assert (Ea : c / 16 / 16 = c / 256) by (rewrite N.Div0.div_div; reflexivity).
  assert (Eb : c / 256 / 16 = c / 4096) by (rewrite N.Div0.div_div; reflexivity).
  rewrite Ea in E1. rewrite Eb in E2. lia.
Qed.

Lemma short_escape_parse (c e : N) :
  short_escape c = Some e -> (e =? 117) = false /\ simple_escape e = Some c.
Proof.
  unfold short_escape.
  repeat match goal with
         | |- context [?x =? ?k] =>
             destruct (N.eqb_spec x k); [subst; intros [= <-]; split; reflexivity|]
         end.
  discriminate.
Qed.

Lemma short_escape_None (c : N) :
  short_escape c = None -> (c =? 34) = false /\ (c =? 92) = false.
Proof.
  unfold short_escape.
  repeat match goal with
         | |- context [?x =? ?k] =>
             destruct (N.eqb_spec x k); [discriminate|]
         end.
  intros _. split; reflexivity.
Qed.

Lemma parse_string_unicode_escape (c : N) (tail : jsstring)
    (v rest : jsstring) :
  c < 65536 -> parse_string tail = Some (v, rest) ->
  parse_string (unicode_escape c ++ tail) = Some (c :: v, rest).
Proof.
  intros Hc Ht.
  destruct (hex4_unicode_escape c tail Hc) as (h1 & h2 & h3 & h4 & -> & Hh).
  simpl. rewrite Hh, Ht. reflexivity.
Qed.

Lemma parse_string_copy (c : N) (tail v rest : jsstring) :
  (c =? 34) = false -> (c =? 92) = false -> (c <? 32) = false ->
  parse_string tail = Some (v, rest) ->
  parse_string (c :: tail) = Some (c :: v, rest).
Proof. intros H1 H2 H3 Ht. simpl. rewrite H1, H2, H3, Ht. reflexivity. Qed.

Lemma surrogate_bounds (c : N) :
  is_lead_surrogate c = true \/ is_trail_surrogate c = true ->
  c < 65536 /\ (c =? 34) = false /\ (c =? 92) = false /\ (c <? 32) = false.
Proof.
  unfold is_lead_surrogate, is_trail_surrogate.
  intros [H | H]; apply andb_true_iff in H; destruct H as [H1 H2];
    apply N.leb_le in H1, H2;
    repeat split; try lia; try (apply N.eqb_neq; lia); apply N.ltb_ge; lia.
Qed.

(** What [JSON.stringify] writes for a string, [JSON.parse] reads back as
    that string. *)
Lemma parse_string_quote_units (s rest : jsstring) :
  parse_string (quote_units s ++ 34 :: rest) = Some (s, rest).
Proof.
  remember (length s) as n eqn:Hn. revert s Hn.
  induction n as [n IH] using lt_wf_ind. intros s Hn.
  destruct s as [|c r]; [reflexivity|]. simpl in Hn.
  assert (IHr : parse_string (quote_units r ++ 34 :: rest) = Some (r, rest))
    by (apply (IH (length r)); [lia | reflexivity]).
  cbn [quote_units].
  destruct (short_escape c) as [e|] eqn:Es.
  - destruct (short_escape_parse c e Es) as [Hu He].
    change ((92 :: e :: quote_units r) ++ 34 :: rest)
      with (92 :: e :: (quote_units r ++ 34 :: rest)).
    cbn [parse_string]. rewrite Hu, He, IHr.
    change (92 =? 34) with false. change (92 =? 92) with true. reflexivity.
  - destruct (short_escape_None c Es) as [Hq Hb].
    destruct (c <? 32) eqn:Hlow.
    + rewrite <- app_assoc. apply parse_string_unicode_escape; [|exact IHr].
      apply N.ltb_lt in Hlow. lia.
    + destruct (is_lead_surrogate c) eqn:Hlead.
      * destruct (surrogate_bounds c (or_introl Hlead)) as (Hc & _).
        destruct r as [|d r'].
        -- apply parse_string_unicode_escape; [exact Hc | reflexivity].
        -- destruct (is_trail_surrogate d) eqn:Htrail.
           ++ destruct (surrogate_bounds d (or_intror Htrail)) as (_ & Dq & Db & Dl).
              change ((c :: d :: quote_units r') ++ 34 :: rest)
                with (c :: d :: (quote_units r' ++ 34 :: rest)).
              apply parse_string_copy; try assumption.
              apply parse_string_copy; try assumption.
              apply (IH (length r')); [simpl in Hn; lia | reflexivity].
           ++ rewrite <- app_assoc.
              apply parse_string_unicode_escape; [exact Hc | exact IHr].
      * destruct (is_trail_surrogate c) eqn:Htrail.
        -- destruct (surrogate_bounds c (or_intror Htrail)) as (Hc & _).
           rewrite <- app_assoc.
           apply parse_string_unicode_escape; [exact Hc | exact IHr].
        -- change ((c :: quote_units r) ++ 34 :: rest)
             with (c :: (quote_units r ++ 34 :: rest)).
           apply parse_string_copy; assumption.
Qed.

Lemma quoted_elements_cons (x : jsstring) (l : list jsstring) (rest : jsstring) :
  quoted_elements (x :: l) ++ 93 :: rest
  = 34 :: quote_units x ++ 34 ::
      match l with
      | [] => 93 :: rest
      | _ :: _ => 44 :: (quoted_elements l ++ 93 :: rest)
      end.
Proof.
  destruct l as [|y l]; unfold quoted_elements; fold quoted_elements;
    unfold QuoteJSONString; simpl; rewrite <- ?app_assoc; reflexivity.
Qed.

(** A quoted string is read as one value by any parser with fuel left. *)
Lemma parse_value_quoted (fuel : nat) (x tail : jsstring) :
  parse_value (S fuel) (34 :: quote_units x ++ 34 :: tail) = Some (JStr x, tail).
Proof.
  cbn [parse_value skip_ws]. change (is_ws 34) with false. cbn iota.
  change (34 =? 91) with false. change (34 =? 123) with false.
  change (34 =? 34) with true. cbn iota.
  rewrite parse_string_quote_units. reflexivity.
Qed.

Lemma parse_elements_quoted (l : list jsstring) (rest : jsstring) (fuel : nat) :
  l <> [] -> (length l < fuel)%nat ->
  parse_elements fuel (quoted_elements l ++ 93 :: rest)
  = Some (List.map JStr l, rest).
Proof.
  revert fuel; induction l as [|x l IH]; intros fuel Hne Hf; [congruence|].
  destruct fuel as [|fuel]; [simpl in Hf; lia|].
  rewrite quoted_elements_cons. cbn [parse_elements].
  destruct fuel as [|fuel]; [simpl in Hf; lia|].
  rewrite parse_value_quoted.
  destruct l as [|y l].
  - reflexivity.
  - cbn [skip_ws]. change (is_ws 44) with false. cbn iota.
    change (44 =? 44) with true. cbn iota.
    rewrite IH by (try discriminate; simpl in *; lia). reflexivity.
Qed.

Lemma QuoteJSONString_length (x : jsstring) :
  (2 <= length (QuoteJSONString x))%nat.
Proof. unfold QuoteJSONString. simpl. rewrite length_app. simpl. lia. Qed.

Lemma quoted_elements_length (l : list jsstring) :
  (2 * length l <= length (quoted_elements l))%nat.
Proof.
  induction l as [|x l IH]; [simpl; lia|].
  pose proof (QuoteJSONString_length x) as Hx.
  destruct l as [|y l].
  - simpl length at 1. change (quoted_elements [x]) with (QuoteJSONString x). lia.
  - change (quoted_elements (x :: y :: l))
      with (QuoteJSONString x ++ 44 :: quoted_elements (y :: l)).
    rewrite length_app.
    change (length (44 :: quoted_elements (y :: l)))
      with (S (length (quoted_elements (y :: l)))).
    change (length (x :: y :: l)) with (S (length (y :: l))). lia.
Qed.

(** [JSON.parse(JSON.stringify(array))] is the array again, for every
    array of strings. *)
Lemma JSON_parse_stringify (l : list jsstring) :
  JSON_parse (JSON_stringify l) = Some (JArr (List.map JStr l)).
Proof.
  unfold JSON_parse, JSON_stringify, parse_fuel.
  pose proof (quoted_elements_length l) as Hlen.
  remember (2 * length ((91 : N) :: quoted_elements l ++ [(93 : N)]) + 2)%nat as F eqn:HF.
  simpl length in HF. rewrite length_app in HF. simpl length in HF.
  destruct F as [|fuel]; [lia|].
  destruct l as [|x l].
  - reflexivity.
  - cbn [parse_value skip_ws]. change (is_ws 91) with false. cbn iota.
    change (91 =? 91) with true. cbn iota.
    rewrite (quoted_elements_cons x l []).
    cbn [skip_ws]. change (is_ws 34) with false. cbn iota.
    change (34 =? 93) with false. cbn iota.
    rewrite <- (quoted_elements_cons x l []).
    rewrite parse_elements_quoted by (try discriminate; simpl length in *; lia).
    reflexivity.
Qed.

(** ** The selection as an ordered set *)

Lemma Set_add_string_elem (v u : jsstring) (l : list jsstring) :
  u ∈ Set_add_string v l <-> u = v \/ u ∈ l.
Proof.
  unfold Set_add_string. case_bool_decide as H.
  - split; [intros Hu; right; exact Hu | intros [-> | Hu]; assumption].
  - rewrite elem_of_app, list_elem_of_singleton. tauto.
Qed.

Lemma Set_delete_string_elem (v u : jsstring) (l : list jsstring) :
  u ∈ Set_delete_string v l <-> u <> v /\ u ∈ l.
Proof. unfold Set_delete_string. rewrite list_elem_of_filter. tauto. Qed.

Lemma Set_add_string_NoDup (v : jsstring) (l : list jsstring) :
  NoDup l -> NoDup (Set_add_string v l).
Proof.
  intros Hl. unfold Set_add_string. case_bool_decide as H; [exact Hl|].
  apply NoDup_app. repeat split.
  - exact Hl.
  - intros x Hx Hv. apply list_elem_of_singleton in Hv. subst. contradiction.
  - apply NoDup_singleton.
Qed.

Lemma Set_delete_string_NoDup (v : jsstring) (l : list jsstring) :
  NoDup l -> NoDup (Set_delete_string v l).
Proof. intros Hl. unfold Set_delete_string. apply NoDup_filter, Hl. Qed.

Lemma Set_delete_string_absent (v : jsstring) (l : list jsstring) :
  v ∉ l -> Set_delete_string v l = l.
Proof.
  intros Hv. unfold Set_delete_string. induction l as [|x l IH]; [reflexivity|].
  rewrite filter_cons. apply not_elem_of_cons in Hv. destruct Hv as [Hx Hl].
  rewrite decide_True by congruence. f_equal. apply IH, Hl.
Qed.

Lemma Set_delete_add_string (v : jsstring) (l : list jsstring) :
  v ∉ l -> Set_delete_string v (Set_add_string v l) = l.
Proof.
  intros Hv. unfold Set_add_string. rewrite bool_decide_eq_false_2 by exact Hv.
  unfold Set_delete_string. rewrite filter_app, filter_cons, filter_nil.
  rewrite decide_False by (intros H; apply H; reflexivity).
  rewrite app_nil_r. apply (Set_delete_string_absent v l Hv).
Qed.

Lemma Set_has_ColorSet_of (l : list jsstring) (v : jsstring) :
  Set_has (ColorSet_of l) v = bool_decide (v ∈ l).
Proof.
  unfold Set_has, ColorSet_of. simpl. apply bool_decide_ext.
  apply elem_of_list_to_set.
Qed.

Lemma Set_size_is_zero_ColorSet_of (l : list jsstring) :
  Set_size_is_zero (ColorSet_of l) = bool_decide (l = []).
Proof.
  unfold Set_size_is_zero, ColorSet_of. simpl. rewrite andb_true_r.
  apply bool_decide_ext. split.
  - intros He. destruct l as [|x l]; [reflexivity|].
    assert (Hx : x ∈ (list_to_set (x :: l) : gset jsstring))
      by (apply elem_of_list_to_set, list_elem_of_here).
    rewrite He in Hx. exfalso. exact (not_elem_of_empty _ Hx).
  - intros ->. reflexivity.
Qed.

(** [new Set(array)] keeps the first occurrence of every element, in
    order. *)
Lemma Set_of_strings_from (acc array : list jsstring) :
  NoDup acc ->
  let r := fold_left (fun members v => Set_add_string v members) array acc in
  NoDup r /\ (forall u, u ∈ r <-> u ∈ acc \/ u ∈ array) /\
  (NoDup (acc ++ array) -> r = acc ++ array).
Proof.
  revert acc; induction array as [|x array IH]; intros acc Hacc; simpl.
  - split; [exact Hacc|]. split.
    + intros u. rewrite elem_of_nil. tauto.
    + intros _. rewrite app_nil_r. reflexivity.
  - destruct (IH (Set_add_string x acc) (Set_add_string_NoDup x acc Hacc))
      as (H1 & H2 & H3).
    split; [exact H1|]. split.
    + intros u. rewrite H2, Set_add_string_elem, elem_of_cons. tauto.
    + intros Hnd.
      assert (Hx : x ∉ acc).
      { apply NoDup_app in Hnd. destruct Hnd as (_ & Hd & _).
        intros Hin. apply (Hd x Hin). apply list_elem_of_here. }
      assert (Ea : Set_add_string x acc = acc ++ [x]).
      { unfold Set_add_string. rewrite bool_decide_eq_false_2 by exact Hx.
        reflexivity. }
      rewrite Ea in *. rewrite H3; rewrite <- app_assoc; [reflexivity|exact Hnd].
Qed.

(** Saving, then evaluating the initialiser of [SELECTED_COLORS]. *)
Lemma SELECTED_COLORS_init_saveState (members : list jsstring)
    (localStorage : gmap jsstring jsstring) :
  SELECTED_COLORS_init (saveState members localStorage)
  = Normal (ColorSet_of members).
Proof.
  assert (Hs : saveState members localStorage !! STORAGE_KEY
               = Some (JSON_stringify members))
    by (unfold saveState; apply lookup_insert_eq).
  assert (Hne : JSON_stringify members <> []) by discriminate.
  rewrite (SELECTED_COLORS_init_stored _ _ Hs Hne), JSON_parse_stringify.
  simpl. rewrite json_strings_JStr, no_other_member_JStr. reflexivity.
Qed.

(** ** The colour pattern, position by position *)

Lemma strip_prefix_ci_spec (p s rest : jsstring) :
  strip_prefix_ci p s = Some rest <->
  exists p', s = p' ++ rest /\ same_ignoring_case p' p.
Proof.
  unfold same_ignoring_case.
  revert s; induction p as [|a p IH]; intros s; simpl.
  - split.
    + intros [= ->]. exists []. split; reflexivity.
    + intros (p' & -> & Hp). destruct p'; [reflexivity | discriminate].
  - destruct s as [|b s].
    + split; [discriminate|]. intros (p' & Hs & Hp).
      destruct p'; discriminate.
    + destruct (N.eqb_spec (canonicalize a) (canonicalize b)) as [E|E].
      * rewrite IH. split.
        -- intros (p' & -> & Hp). exists (b :: p'). split; [reflexivity|].
           simpl. rewrite Hp, E. reflexivity.
        -- intros (p' & Hs & Hp). destruct p' as [|b' p']; [discriminate|].
           simpl in Hs, Hp. injection Hs as <- ->. injection Hp as _ Hp.
           exists p'. split; [reflexivity | exact Hp].
      * split; [discriminate|]. intros (p' & Hs & Hp).
        destruct p' as [|b' p']; [discriminate|].
        simpl in Hs, Hp. injection Hs as <- ->. injection Hp as Hb _. congruence.
Qed.

Lemma span_spec (f : N -> bool) (s a b : jsstring) :
  span f s = (a, b) <->
  s = a ++ b /\ Forall (fun c => f c = true) a /\
  match b with c :: _ => f c = false | [] => True end.
Proof.
  revert a b; induction s as [|c s IH]; intros a b; simpl.
  - split.
    + intros [= <- <-]. repeat split. constructor.
    + intros (Hs & _ & _). symmetry in Hs. apply app_eq_nil in Hs.
      destruct Hs as [-> ->]. reflexivity.
  - destruct (f c) eqn:Ec.
    + destruct (span f s) as [a0 b0] eqn:Es.
      split.
      * intros [= <- <-]. destruct (proj1 (IH a0 b0) eq_refl) as (-> & Ha & Hb).
        repeat split; [constructor; assumption | exact Hb].
      * intros (Hs & Ha & Hb). destruct a as [|c' a].
        -- simpl in Hs. subst b. congruence.
        -- simpl in Hs. injection Hs as <- Hs. inversion Ha; subst.
           assert (E : (a0, b0) = (a, b))
             by (apply IH; repeat split; assumption).
           injection E as -> ->. reflexivity.
    + split.
      * intros [= <- <-]. repeat split; [constructor | exact Ec].
      * intros (Hs & Ha & Hb). destruct a as [|c' a].
        -- simpl in Hs. subst b. reflexivity.
        -- simpl in Hs. injection Hs as <- Hs. inversion Ha; subst. congruence.
Qed.

(** The attempt at one position succeeds exactly when the prefix, in some
    case, is followed by a letter; the capture is then the whole run of
    letters. *)
Lemma COLOR_RE_at_Some (s m : jsstring) :
  COLOR_RE_at s = Some m <->
  exists p rest, s = p ++ m ++ rest /\ same_ignoring_case p (lit "--color-") /\
                 m <> [] /\ Forall (fun c => is_letter c = true) m /\
                 ~ starts_with_letter rest.
Proof.
  unfold COLOR_RE_at. split.
  - destruct (strip_prefix_ci (lit "--color-") s) as [r|] eqn:Ep; [|discriminate].
    apply strip_prefix_ci_spec in Ep. destruct Ep as (p & -> & Hp).
    destruct (span is_letter r) as [a b] eqn:Es.
    apply span_spec in Es. destruct Es as (-> & Ha & Hb).
    destruct a as [|c a]; [discriminate|]. intros [= <-].
    exists p, b. repeat split; try assumption; [discriminate|].
    destruct b as [|d b]; simpl; [tauto | congruence].
  - intros (p & rest & -> & Hp & Hm & Hl & Hr).
    rewrite (proj2 (strip_prefix_ci_spec (lit "--color-") (p ++ m ++ rest) (m ++ rest)))
      by (exists p; split; [reflexivity | exact Hp]).
    rewrite (proj2 (span_spec is_letter (m ++ rest) m rest)).
    + destruct m; [congruence | reflexivity].
    + repeat split; [exact Hl|]. destruct rest as [|d rest]; [exact I|].
      simpl in Hr. destruct (is_letter d); [exfalso; apply Hr; reflexivity | reflexivity].
Qed.

Lemma COLOR_RE_at_None (s : jsstring) :
  COLOR_RE_at s = None <-> ~ color_property_at_start s.
Proof.
  unfold COLOR_RE_at, color_property_at_start. split.
  - intros H (p & c & rest & -> & Hp & Hc).
    rewrite (proj2 (strip_prefix_ci_spec (lit "--color-") (p ++ c :: rest) (c :: rest)))
      in H by (exists p; split; [reflexivity | exact Hp]).
    simpl in H. rewrite Hc in H. destruct (span is_letter rest); discriminate.
  - intros H.
    destruct (strip_prefix_ci (lit "--color-") s) as [r|] eqn:Ep; [|reflexivity].
    apply strip_prefix_ci_spec in Ep. destruct Ep as (p & -> & Hp).
    destruct (span is_letter r) as [[|c a] b] eqn:Es; [reflexivity|].
    apply span_spec in Es. destruct Es as (-> & Ha & _). inversion Ha; subst.
    exfalso. apply H. exists p, c, (a ++ b). repeat split; assumption.
Qed.

(** [exec] returns the capture at the first position where the attempt
    succeeds, and [null] when there is none. *)
Lemma COLOR_RE_exec_Some (s m : jsstring) :
  COLOR_RE_exec s = Some m <->
  exists pre tail, s = pre ++ tail /\ COLOR_RE_at tail = Some m /\
    forall pre' tail', s = pre' ++ tail' -> (length pre' < length pre)%nat ->
                       COLOR_RE_at tail' = None.
Proof.
  revert m; induction s as [|c s IH]; intros m; simpl.
  - destruct (COLOR_RE_at []) eqn:E0; [discriminate E0|].
    split; [discriminate|]. intros (pre & tail & Hs & Ht & _).
    symmetry in Hs. apply app_eq_nil in Hs. destruct Hs as [-> ->]. congruence.
  - destruct (COLOR_RE_at (c :: s)) as [m0|] eqn:E0.
    + split.
      * intros [= <-]. exists [], (c :: s). repeat split; [exact E0|].
        intros pre' tail' _ Hl. simpl in Hl. lia.
      * intros (pre & tail & Hs & Ht & Hleft). destruct pre as [|c' pre].
        -- simpl in Hs. subst tail. congruence.
        -- specialize (Hleft [] (c :: s) eq_refl ltac:(simpl; lia)). congruence.
    + rewrite IH. split.
      * intros (pre & tail & -> & Ht & Hleft). exists (c :: pre), tail.
        repeat split; [exact Ht|]. intros pre' tail' Hs Hl.
        destruct pre' as [|c' pre'].
        -- simpl in Hs. subst tail'. exact E0.
        -- simpl in Hs. injection Hs as <- Hs. apply (Hleft pre' tail' Hs).
           simpl in Hl. lia.
      * intros (pre & tail & Hs & Ht & Hleft). destruct pre as [|c' pre].
        -- simpl in Hs. subst tail. congruence.
        -- simpl in Hs. injection Hs as <- ->. exists pre, tail.
           repeat split; [exact Ht|]. intros pre' tail' Hs Hl.
           apply (Hleft (c :: pre') tail'); [simpl; rewrite Hs; reflexivity|].
           simpl. lia.
Qed.

Lemma COLOR_RE_exec_None (s : jsstring) :
  COLOR_RE_exec s = None <->
  forall pre tail, s = pre ++ tail -> COLOR_RE_at tail = None.
Proof.
  induction s as [|c s IH]; simpl.
  - destruct (COLOR_RE_at []) eqn:E0; [discriminate E0|].
    split; [|reflexivity]. intros _ pre tail Hs.
    symmetry in Hs. apply app_eq_nil in Hs. destruct Hs as [-> ->]. exact E0.
  - destruct (COLOR_RE_at (c :: s)) as [m0|] eqn:E0.
    + split; [discriminate|]. intros H. specialize (H [] (c :: s) eq_refl). congruence.
    + rewrite IH. split.
      * intros H pre tail Hs. destruct pre as [|c' pre].
        -- simpl in Hs. subst tail. exact E0.
        -- simpl in Hs. injection Hs as <- Hs. apply (H pre tail Hs).
      * intros H pre tail ->. apply (H (c :: pre) tail). reflexivity.
Qed.

(** ** A second pass *)

Lemma classList_add_twice (l : list jsstring) (x : jsstring) :
  classList_add (classList_add l x) x = classList_add l x.
Proof.
  unfold classList_add at 1. unfold classList_contains.
  rewrite bool_decide_eq_true_2 by apply classList_add_contains. reflexivity.
Qed.

Lemma classList_remove_twice (l : list jsstring) (x : jsstring) :
  classList_remove (classList_remove l x) x = classList_remove l x.
Proof.
  unfold classList_remove. induction l as [|y l IH]; [reflexivity|].
  rewrite filter_cons. destruct (decide (y ≠ x)) as [Hy|Hy].
  - rewrite filter_cons, decide_True by exact Hy. f_equal. exact IH.
  - exact IH.
Qed.

Lemma has_aired_mark_aired (c : card) : has_aired (mark_aired c) = has_aired c.
Proof.
  unfold mark_aired. destruct (has_aired c) eqn:E; unfold has_aired in *;
    simpl; exact E.
Qed.

Lemma mark_aired_twice (c : card) : mark_aired (mark_aired c) = mark_aired c.
Proof.
  unfold mark_aired at 1. rewrite has_aired_mark_aired.
  unfold mark_aired. destruct (has_aired c); unfold set_classList; simpl;
    [rewrite classList_add_twice | rewrite classList_remove_twice]; reflexivity.
Qed.

Lemma mark_aired_episode (c : card) : episode (mark_aired c) = episode c.
Proof. unfold mark_aired. destruct (has_aired c); reflexivity. Qed.

Lemma mark_aired_set_display (c : card) (d : jsstring) :
  mark_aired (set_display c d) = set_display (mark_aired c) d.
Proof.
  unfold mark_aired, has_aired. simpl.
  destruct (match episode c with Some t => includes t (lit "aired") | None => false end);
    reflexivity.
Qed.

(** The loop body by the fields of the card it is given. *)
Lemma loop_body_cases (sel : ColorSet) (nf : bool) (c : card) :
  loop_body sel nf c =
    match highlighter c with
    | None => (mark_aired c, Normal tt)
    | Some None => (mark_aired c, Throw TypeError)
    | Some (Some cssText) =>
        match display c with
        | None => (mark_aired c, Throw TypeError)
        | Some _ =>
            (set_display (mark_aired c)
               (if show nf (COLOR_RE_exec cssText) sel then [] else lit "none"),
             Normal tt)
        end
    end.
Proof.
  unfold loop_body. rewrite mark_aired_highlighter, mark_aired_display.
  reflexivity.
Qed.

(** The loop body, run again on the card it left, leaves the same card
    and completes the same way. *)
Lemma loop_body_twice (sel : ColorSet) (nf : bool) (c : card) :
  loop_body sel nf (loop_body sel nf c).1 = loop_body sel nf c.
Proof.
  rewrite (loop_body_cases sel nf c).
  destruct (highlighter c) as [[css|]|] eqn:Eh.
  - destruct (display c) as [d|] eqn:Ed; cbn [fst].
    + rewrite loop_body_cases. cbn [highlighter display set_display].
      rewrite mark_aired_highlighter, Eh, mark_aired_set_display, mark_aired_twice.
      reflexivity.
    + rewrite loop_body_cases, mark_aired_highlighter, mark_aired_display, Eh, Ed.
      rewrite mark_aired_twice. reflexivity.
  - cbn [fst]. rewrite loop_body_cases, mark_aired_highlighter, Eh, mark_aired_twice.
    reflexivity.
  - cbn [fst]. rewrite loop_body_cases, mark_aired_highlighter, Eh, mark_aired_twice.
    reflexivity.
Qed.

Lemma for_cards_twice (sel : ColorSet) (nf : bool) (cs : list card) :
  for_cards sel nf (for_cards sel nf cs).1.1 = for_cards sel nf cs.
Proof.
  induction cs as [|c cs IH]; [reflexivity|].
  cbn [for_cards].
  destruct (loop_body sel nf c) as [c' r] eqn:Eb.
  assert (Eb' : loop_body sel nf c' = (c', r)).
  { pose proof (loop_body_twice sel nf c) as H. rewrite Eb in H. exact H. }
  destruct r as [[]|e].
  - destruct (for_cards sel nf cs) as [[cs' r'] n] eqn:Ef. cbn [fst snd] in *.
    cbn [for_cards]. rewrite Eb', IH. reflexivity.
  - cbn [fst]. cbn [for_cards]. rewrite Eb'. reflexivity.
Qed.

(** ** What a pass leaves alone *)

Lemma classList_add_other (l : list jsstring) (x y : jsstring) :
  y <> x -> (y ∈ classList_add l x <-> y ∈ l).
Proof.
  intros Hy. unfold classList_add. destruct (classList_contains l x); [reflexivity|].
  rewrite elem_of_app, list_elem_of_singleton. tauto.
Qed.

Lemma classList_remove_other (l : list jsstring) (x y : jsstring) :
  y <> x -> (y ∈ classList_remove l x <-> y ∈ l).
Proof.
  intros Hy. unfold classList_remove. rewrite list_elem_of_filter. tauto.
Qed.

Lemma mark_aired_classes (c : card) (y : jsstring) :
  y <> AIRED_CLASS -> (y ∈ classList (mark_aired c) <-> y ∈ classList c).
Proof.
  intros Hy. unfold mark_aired. destruct (has_aired c); simpl.
  - apply classList_add_other, Hy.
  - apply classList_remove_other, Hy.
Qed.

Lemma loop_body_frame (sel : ColorSet) (nf : bool) (c : card) :
  episode (loop_body sel nf c).1 = episode c /\
  highlighter (loop_body sel nf c).1 = highlighter c /\
  (forall y, y <> AIRED_CLASS ->
             (y ∈ classList (loop_body sel nf c).1 <-> y ∈ classList c)) /\
  (display (loop_body sel nf c).1 = display c \/
   display (loop_body sel nf c).1 = Some [] \/
   display (loop_body sel nf c).1 = Some (lit "none")) /\
  (display c = None -> display (loop_body sel nf c).1 = None).
Proof.
  rewrite loop_body_classList, loop_body_cases.
  pose proof (mark_aired_episode c) as He.
  pose proof (mark_aired_highlighter c) as Hh.
  pose proof (mark_aired_display c) as Hd.
  pose proof (mark_aired_classes c) as Hc.
  destruct (highlighter c) as [[css|]|] eqn:Eh;
    [destruct (display c) as [d|] eqn:Ed|..]; cbn [fst].
  - split; [exact He|]. split; [exact Hh|]. split; [exact Hc|]. split.
    + cbn [display set_display].
      destruct (show nf (COLOR_RE_exec css) sel);
        [right; left | right; right]; reflexivity.
    + discriminate.
  - split; [exact He|]. split; [exact Hh|]. split; [exact Hc|]. split.
    + left. exact Hd.
    + intros _. exact Hd.
  - split; [exact He|]. split; [exact Hh|]. split; [exact Hc|]. split.
    + left. exact Hd.
    + intros H. rewrite Hd. exact H.
  - split; [exact He|]. split; [exact Hh|]. split; [exact Hc|]. split.
    + left. exact Hd.
    + intros H. rewrite Hd. exact H.
Qed.

(** ** Finding the root *)

Lemma find_first_Element (p : element -> bool) (e : element) (ch : list node) :
  find_first p (Element e ch) =
    if p e then Some (Element e ch) else find_first_in p ch.
Proof.
  simpl. destruct (p e); [reflexivity|].
  induction ch as [|c ch IH]; simpl; [reflexivity|].
  rewrite IH. reflexivity.
Qed.

Lemma find_first_None (p : element -> bool) (n : node) :
  find_first p n = None <-> subtree_any p n = false.
Proof.
  induction n as [d|e ch IH] using node_rect_children.
  - simpl. split; reflexivity.
  - rewrite find_first_Element. simpl. destruct (p e); simpl.
    + split; discriminate.
    + induction IH as [|c ch Hc Hch IHch]; simpl; [split; reflexivity|].
      destruct (find_first p c) as [r|] eqn:Ec.
      * split; [discriminate|]. intros H. apply orb_false_iff in H.
        destruct H as [H _]. apply Hc in H. discriminate.
      * rewrite (proj1 Hc eq_refl). simpl. exact IHch.
Qed.

Lemma find_first_in_None (p : element -> bool) (l : list node) :
  find_first_in p l = None <-> existsb (subtree_any p) l = false.
Proof.
  induction l as [|c l IH]; simpl; [split; reflexivity|].
  destruct (find_first p c) as [r|] eqn:Ec.
  - split; [discriminate|]. intros H. apply orb_false_iff in H.
    destruct H as [H _]. apply find_first_None in H. congruence.
  - rewrite (proj1 (find_first_None p c) Ec). simpl. exact IH.
Qed.

Lemma getElementById_None (i : jsstring) (d : Document) :
  getElementById i d = None <-> document_any (has_id i) d = false.
Proof.
  unfold getElementById, document_any.
  destruct (find_first_in (has_id i) (head_nodes d)) as [r|] eqn:Eh.
  - split; [discriminate|]. intros H. apply orb_false_iff in H.
    destruct H as [H _]. apply find_first_in_None in H. congruence.
  - rewrite (proj1 (find_first_in_None _ _) Eh). simpl. apply find_first_in_None.
Qed.

Section FindUpdated.

Variable p : element -> bool.
Variable f : node -> node.
Hypothesis f_keeps_root :
  forall e ch, exists ch', f (Element e ch) = Element e ch'.

(** The element replaced by [update_first] is the one [find_first] finds,
    and afterwards [find_first] finds its image. *)
Lemma find_first_updated (n n' : node) :
  update_first p f n = Some n' ->
  exists r, find_first p n = Some r /\ find_first p n' = Some (f r).
Proof.
  revert n'; induction n as [d|e ch IH] using node_rect_children; intros n'.
  - discriminate.
  - rewrite update_first_Element, find_first_Element. destruct (p e) eqn:Ep.
    + intros [= <-]. exists (Element e ch). split; [reflexivity|].
      destruct (f_keeps_root e ch) as [ch' E]. rewrite E, find_first_Element, Ep.
      reflexivity.
    + destruct (update_first_in p f ch) as [ch'|] eqn:Ech; [|discriminate].
      intros [= <-]. rewrite find_first_Element, Ep.
      revert ch' Ech. induction IH as [|c ch Hc Hch IHch]; intros ch'; simpl;
        [discriminate|].
      destruct (update_first p f c) as [c'|] eqn:Ec.
      * intros [= <-]. destruct (Hc c' eq_refl) as (r & H1 & H2).
        exists r. simpl. rewrite H1, H2. split; reflexivity.
      * destruct (update_first_in p f ch) as [l|] eqn:El; [|discriminate].
        intros [= <-]. destruct (IHch l eq_refl) as (r & H1 & H2).
        exists r. simpl.
        rewrite (proj2 (find_first_None p c)
                   (proj1 (update_first_None p f c) Ec)).
        split; assumption.
Qed.

Lemma find_first_in_updated (l l' : list node) :
  update_first_in p f l = Some l' ->
  exists r, find_first_in p l = Some r /\ find_first_in p l' = Some (f r).
Proof.
  revert l'; induction l as [|c l IH]; intros l'; simpl; [discriminate|].
  destruct (update_first p f c) as [c'|] eqn:Ec.
  - intros [= <-]. destruct (find_first_updated c c' Ec) as (r & H1 & H2).
    exists r. simpl. rewrite H1, H2. split; reflexivity.
  - destruct (update_first_in p f l) as [l0|] eqn:El; [|discriminate].
    intros [= <-]. destruct (IH l0 eq_refl) as (r & H1 & H2).
    exists r. simpl.
    rewrite (proj2 (find_first_None p c) (proj1 (update_first_None p f c) Ec)).
    split; assumption.
Qed.

End FindUpdated.

Section FindInserted.

Variable p q : element -> bool.
Variable r : node.
Variable re : element.
Variable rch : list node.
Hypothesis r_root : r = Element re rch.
Hypothesis r_matches : q re = true.

Lemma find_first_in_inserted (l : list node) :
  find_first_in q (insert_before_first_element r l) = Some r.
Proof.
  induction l as [|[e ch|d] l IH]; simpl.
  - rewrite r_root, find_first_Element, r_matches. reflexivity.
  - rewrite r_root, find_first_Element, r_matches. reflexivity.
  - exact IH.
Qed.

(** Where nothing matched [q], the first match of [q] after the
    insertion of [r] is [r]. *)
Lemma find_first_after_insert (n n' : node) :
  subtree_any q n = false ->
  update_first p (insert_root r) n = Some n' ->
  find_first q n' = Some r.
Proof.
  revert n'; induction n as [d|e ch IH] using node_rect_children; intros n'.
  - discriminate.
  - simpl subtree_any. intros Hq. apply orb_false_iff in Hq.
    destruct Hq as [Hqe Hqch].
    rewrite update_first_Element. destruct (p e) eqn:Ep.
    + intros [= <-]. unfold insert_root. rewrite find_first_Element, Hqe.
      apply find_first_in_inserted.
    + destruct (update_first_in p (insert_root r) ch) as [ch'|] eqn:Ech;
        [|discriminate].
      intros [= <-]. rewrite find_first_Element, Hqe.
      revert ch' Ech Hqch.
      induction IH as [|c ch Hc Hch IHch]; intros ch'; simpl; [discriminate|].
      intros Ech Hqch. apply orb_false_iff in Hqch. destruct Hqch as [Hqc Hqch].
      destruct (update_first p (insert_root r) c) as [c'|] eqn:Ec.
      * injection Ech as <-. simpl. rewrite (Hc c' Hqc eq_refl). reflexivity.
      * destruct (update_first_in p (insert_root r) ch) as [l|] eqn:El;
          [|discriminate].
        injection Ech as <-. simpl.
        rewrite (proj2 (find_first_None q c) Hqc).
        apply (IHch l eq_refl Hqch).
Qed.

Lemma find_first_in_after_insert (l l' : list node) :
  existsb (subtree_any q) l = false ->
  update_first_in p (insert_root r) l = Some l' ->
  find_first_in q l' = Some r.
Proof.
  revert l'; induction l as [|c l IH]; intros l'; simpl; [discriminate|].
  intros Hq. apply orb_false_iff in Hq. destruct Hq as [Hqc Hql].
  destruct (update_first p (insert_root r) c) as [c'|] eqn:Ec.
  - intros [= <-]. simpl. rewrite (find_first_after_insert c c' Hqc Ec). reflexivity.
  - destruct (update_first_in p (insert_root r) l) as [l0|] eqn:El; [|discriminate].
    intros [= <-]. simpl. rewrite (proj2 (find_first_None q c) Hqc).
    apply (IH l0 Hql eq_refl).
Qed.

End FindInserted.

(** ** The inputs of the root *)

Lemma descendants_root (e e' : element) (ch : list node) :
  descendants (Element e ch) = descendants (Element e' ch).
Proof. reflexivity. Qed.

Lemma descendants_map_descendants (p : element -> bool) (g : element -> element)
    (n : node) :
  descendants (map_descendants p g n)
  = List.map (fun e => if p e then g e else e) (descendants n).
Proof.
  induction n as [d|e ch IH] using node_rect_children; [reflexivity|].
  simpl. induction IH as [|c ch Hc Hch IHch]; [reflexivity|].
  cbn [List.map flat_map]. rewrite List.map_app, <- IHch. f_equal.
  destruct c as [e' ch'|d']; [|reflexivity].
  cbn [map_descendants] in Hc |- *. cbn [List.map]. f_equal.
  rewrite <- Hc. apply descendants_root.
Qed.

Lemma filter_map_if (p : element -> bool) (g : element -> element)
    (l : list element) :
  (forall e, p (g e) = p e) ->
  List.filter p (List.map (fun e => if p e then g e else e) l)
  = List.map g (List.filter p l).
Proof.
  intros Hg. induction l as [|e l IH]; [reflexivity|]. simpl.
  destruct (p e) eqn:Ep.
  - rewrite Hg, Ep. simpl. f_equal. exact IH.
  - rewrite Ep. exact IH.
Qed.

(** The loop over the inputs visits exactly the inputs below the root and
    leaves each as [restore_input] leaves it. *)
Lemma getElementsByTagName_restore_inputs (sel : ColorSet) (root : node) :
  getElementsByTagName (lit "input") (restore_inputs sel root)
  = List.map (restore_input sel) (getElementsByTagName (lit "input") root).
Proof.
  unfold getElementsByTagName, restore_inputs.
  rewrite descendants_map_descendants. apply filter_map_if.
  intros e. unfold has_localName. rewrite restore_input_localName. reflexivity.
Qed.

Lemma restore_input_value (sel : ColorSet) (e : element) :
  value (restore_input sel e) = value e.
Proof. unfold restore_input. destruct (anichart_listening e); reflexivity. Qed.

Lemma restore_input_listening (sel : ColorSet) (e : element) :
  anichart_listening (restore_input sel e) = true.
Proof. unfold restore_input. destruct (anichart_listening e) eqn:E; simpl; [exact E | reflexivity]. Qed.

(** The root that [getElementById] finds after [initializeHtml], if any,
    is the one the call has restored. *)
Lemma initializeHtml_root (sel : ColorSet) (d : Document) (r' : node) :
  getElementById HTML_ID (initializeHtml sel d) = Some r' ->
  exists r, r' = restore_inputs sel r /\
            (getElementById HTML_ID d = Some r \/
             (getElementById HTML_ID d = None /\ r = new_root)).
Proof.
  unfold initializeHtml.
  destruct (update_first_document (has_id HTML_ID) (restore_inputs sel) d)
    as [d1|] eqn:E1.
  - unfold update_first_document in E1. unfold getElementById.
    destruct (update_first_in (has_id HTML_ID) (restore_inputs sel) (head_nodes d))
      as [h|] eqn:Eh.
    + injection E1 as <-. simpl.
      destruct (find_first_in_updated _ _ (restore_inputs_keeps_root sel) _ _ Eh)
        as (r & H1 & H2).
      rewrite H1, H2. intros [= <-]. exists r. split; [reflexivity | left; reflexivity].
    + destruct (update_first_in (has_id HTML_ID) (restore_inputs sel) (body_nodes d))
        as [b|] eqn:Eb; [|discriminate].
      injection E1 as <-. simpl.
      apply update_first_in_None in Eh.
      rewrite (proj2 (find_first_in_None _ _) Eh).
      destruct (find_first_in_updated _ _ (restore_inputs_keeps_root sel) _ _ Eb)
        as (r & H1 & H2).
      rewrite H1, H2. intros [= <-]. exists r. split; [reflexivity | left; reflexivity].
  - assert (Hnone : getElementById HTML_ID d = None).
    { apply getElementById_None. apply (update_first_document_None _ (restore_inputs sel) d). exact E1. }
    destruct (update_first_document (has_class (lit "filters"))
                (insert_root (restore_inputs sel new_root)) d) as [d2|] eqn:E2.
    + intros H. exists new_root.
      split; [|right; split; [exact Hnone | reflexivity]]. revert H.
      assert (Hany := proj1 (update_first_document_None _ (restore_inputs sel) d) E1).
      unfold document_any in Hany. apply orb_false_iff in Hany.
      destruct Hany as [Hh Hb].
      destruct (restored_new_root sel) as (re & rch & Hr & Hid).
      unfold update_first_document in E2. unfold getElementById.
      destruct (update_first_in (has_class (lit "filters"))
                  (insert_root (restore_inputs sel new_root)) (head_nodes d))
        as [h|] eqn:Eh.
      * injection E2 as <-. simpl.
        rewrite (find_first_in_after_insert _ _ _ re rch Hr Hid _ _ Hh Eh).
        intros [= <-]. reflexivity.
      * destruct (update_first_in (has_class (lit "filters"))
                    (insert_root (restore_inputs sel new_root)) (body_nodes d))
          as [b|] eqn:Eb; [|discriminate].
        injection E2 as <-. simpl.
        rewrite (proj2 (find_first_in_None _ _) Hh).
        rewrite (find_first_in_after_insert _ _ _ re rch Hr Hid _ _ Hb Eb).
        intros [= <-]. reflexivity.
    + rewrite Hnone. discriminate.
Qed.

(** ** Saving and the check boxes *)

(** [debounceRefresh()] from any state the script can be in: whatever was
    pending is gone, one timeout is scheduled a debounce interval from
    now, and nothing has run. *)
Lemma debounceRefresh_reschedules (t : timers) :
  timers_ok t ->
  debounceRefresh t =
    {| now := now t; next_handle := (next_handle t + 1)%Z;
       scheduled := [(next_handle t, (now t + REFRESH_DEBOUNCE_MS)%Z)];
       refreshTimer := Some (next_handle t); refresh_runs := refresh_runs t |}.
Proof.
  intros [Hs Hr _ | h due Hs Hr Hh _].
  - apply debounceRefresh_idle; assumption.
  - eapply debounceRefresh_pending; eassumption.
Qed.

(** X1.  Round trip of the persisted selection.  For every selection of
    strings, whatever characters they hold, what [saveState] stores is
    parsed back as the same array, so the initialiser of [SELECTED_COLORS]
    run on it yields the same members, in the same order; [saveState]
    changes no other key of the storage. *)
Theorem save_then_load (members : list jsstring)
    (localStorage : gmap jsstring jsstring) :
  NoDup members ->
  SELECTED_COLORS_init (saveState members localStorage)
  = Normal (ColorSet_of members) /\
  JSON_parse (JSON_stringify members) = Some (JArr (List.map JStr members)) /\
  Set_of_strings members = members /\
  (forall k, k <> STORAGE_KEY ->
             saveState members localStorage !! k = localStorage !! k).
Proof.
  intros Hnd. split; [apply SELECTED_COLORS_init_saveState|].
  split; [apply JSON_parse_stringify|]. split.
  - apply (Set_of_strings_from [] members (NoDup_nil_2)). exact Hnd.
  - intros k Hk. unfold saveState. apply lookup_insert_ne. congruence.
Qed.

Lemma save_then_load_witness :
  SELECTED_COLORS_init (saveState awkward_members ∅)
  = Normal (ColorSet_of awkward_members).
Proof.
  assert (Hnd : NoDup awkward_members)
    by (apply (bool_decide_unpack _); vm_compute; exact I).
  exact (proj1 (save_then_load awkward_members ∅ Hnd)).
Defined.

(** X2.  A click moves exactly one member.  After [onCheckboxClicked] the
    value of the check box is a member of the selection exactly when the
    box is checked; every other value is a member exactly when it was
    before; and no member occurs twice. *)
Theorem checkbox_click_selection (target : element) (s : script_state) :
  NoDup (selection s) ->
  let s' := onCheckboxClicked_call target s in
  NoDup (selection s') /\
  (value target ∈ selection s' <-> checked target = true) /\
  (forall u, u <> value target -> (u ∈ selection s' <-> u ∈ selection s)).
Proof.
  intros Hnd s'. subst s'. unfold onCheckboxClicked_call. simpl.
  destruct (checked target).
  - split; [apply Set_add_string_NoDup, Hnd|]. split.
    + rewrite Set_add_string_elem. split; [reflexivity | intros _; left; reflexivity].
    + intros u Hu. rewrite Set_add_string_elem. tauto.
  - split; [apply Set_delete_string_NoDup, Hnd|]. split.
    + rewrite Set_delete_string_elem. split; [intros [H _]; congruence | discriminate].
    + intros u Hu. rewrite Set_delete_string_elem. tauto.
Qed.

Lemma checkbox_click_selection_witness :
  lit "green" ∈ selection (onCheckboxClicked_call (green_box true)
                             (idle_state [lit "red"])).
Proof.
  assert (Hnd : NoDup (selection (idle_state [lit "red"])))
    by (apply (bool_decide_unpack _); vm_compute; exact I).
  apply (proj1 (proj2 (checkbox_click_selection (green_box true)
                         (idle_state [lit "red"]) Hnd))).
  reflexivity.
Defined.

(** X3.  The storage follows the selection.  For a selection of
    strings, after any number of clicks, at least one, the stored text
    loads as exactly the current selection, whatever the storage held
    before (malformed text included); no other key of the storage is
    touched. *)
Theorem checkbox_clicks_persist (targets : list element) (s : script_state) :
  targets <> [] ->
  let s' := fold_left (fun st t => onCheckboxClicked_call t st) targets s in
  SELECTED_COLORS_init (stored s') = Normal (ColorSet_of (selection s')) /\
  (forall k, k <> STORAGE_KEY -> stored s' !! k = stored s !! k).
Proof.
  intros Hne s'. subst s'.
  assert (Hkeep : forall ts st k, k <> STORAGE_KEY ->
            stored (fold_left (fun st t => onCheckboxClicked_call t st) ts st) !! k
            = stored st !! k).
  { induction ts as [|t ts IH]; intros st k Hk; [reflexivity|].
    simpl. rewrite IH by exact Hk. unfold onCheckboxClicked_call, saveState.
    simpl. apply lookup_insert_ne. congruence. }
  split; [|intros k Hk; apply Hkeep; exact Hk].
  revert s Hne. induction targets as [|t ts IH]; intros s Hne; [congruence|].
  simpl. destruct ts as [|t' ts].
  - simpl. apply SELECTED_COLORS_init_saveState.
  - apply IH. discriminate.
Qed.

Lemma checkbox_clicks_persist_witness :
  SELECTED_COLORS_init
    (stored (onCheckboxClicked_call (green_box true)
               {| selection := []; stored := {[ STORAGE_KEY := lit "not json" ]};
                  timer_state := timers_start 0 |}))
  = Normal (ColorSet_of [lit "green"]).
Proof.
  apply (proj1 (checkbox_clicks_persist [green_box true]
                  {| selection := []; stored := {[ STORAGE_KEY := lit "not json" ]};
                     timer_state := timers_start 0 |} ltac:(discriminate))).
Defined.

(** X4.  A click filters nothing by itself.  [onCheckboxClicked] runs no
    refresh; it leaves exactly one timeout pending, due a debounce
    interval after the click, in place of any that was pending; and once
    that time has passed the refresh has run exactly once more. *)
Theorem checkbox_click_requests_refresh (target : element) (s : script_state)
    (T : Z) :
  timers_ok (timer_state s) ->
  let s' := onCheckboxClicked_call target s in
  refresh_runs (timer_state s') = refresh_runs (timer_state s) /\
  scheduled (timer_state s')
  = [(next_handle (timer_state s), (now (timer_state s) + 180)%Z)] /\
  ((now (timer_state s) + 180 <= T)%Z ->
   refresh_runs (advance T (timer_state s'))
   = refresh_runs (timer_state s) ++ [(now (timer_state s) + 180)%Z]).
Proof.
  intros Hok s'. subst s'. unfold onCheckboxClicked_call. cbn [timer_state].
  rewrite (debounceRefresh_reschedules _ Hok).
  split; [reflexivity|]. split; [reflexivity|].
  intros HT. erewrite advance_fires; [reflexivity | reflexivity | exact HT].
Qed.

Lemma checkbox_click_requests_refresh_witness :
  refresh_runs (advance 500 (timer_state (onCheckboxClicked_call (green_box true)
                                            (idle_state []))))
  = [180%Z].
Proof.
  apply (proj2 (proj2 (checkbox_click_requests_refresh (green_box true)
                         (idle_state []) 500 (timers_ok_start 0)))).
  vm_compute. discriminate.
Defined.

(** X5.  Checking a box and unchecking it again gives back the selection
    there was, member for member and in the same order, when the value
    was not selected before. *)
Theorem checkbox_toggle_round_trip (on off : element) (s : script_state) :
  value on = value off -> checked on = true -> checked off = false ->
  value on ∉ selection s ->
  selection (onCheckboxClicked_call off (onCheckboxClicked_call on s))
  = selection s /\
  stored (onCheckboxClicked_call off (onCheckboxClicked_call on s)) !! STORAGE_KEY
  = Some (JSON_stringify (selection s)).
Proof.
  intros Hv Hon Hoff Hnot.
  assert (E : selection (onCheckboxClicked_call off (onCheckboxClicked_call on s))
              = selection s).
  { unfold onCheckboxClicked_call. simpl. rewrite Hon, Hoff, <- Hv.
    apply Set_delete_add_string, Hnot. }
  split; [exact E|].
  unfold onCheckboxClicked_call in *. simpl in *. rewrite E.
  unfold saveState. apply lookup_insert_eq.
Qed.

Lemma checkbox_toggle_round_trip_witness :
  selection (onCheckboxClicked_call (green_box false)
               (onCheckboxClicked_call (green_box true) (idle_state [lit "red"])))
  = [lit "red"].
Proof.
  assert (Hnot : value (green_box true) ∉ selection (idle_state [lit "red"]))
    by (apply (bool_decide_unpack _); vm_compute; exact I).
  exact (proj1 (checkbox_toggle_round_trip (green_box true) (green_box false)
                  (idle_state [lit "red"]) eq_refl eq_refl eq_refl Hnot)).
Defined.

(** ** The colour token *)

(** X6.  What [COLOR_RE.exec] captures.  [exec] returns [m] exactly when
    the text has, at its first position where the property prefix (in any
    case) is followed by a letter, that prefix followed by [m], and [m]
    is the whole run of letters there: not empty, letters only, not
    followed by a letter, and copied as written, case included. *)
Theorem color_token_extracted (s m : jsstring) :
  COLOR_RE_exec s = Some m <->
  exists pre p rest,
    s = pre ++ p ++ m ++ rest /\
    same_ignoring_case p (lit "--color-") /\
    m <> [] /\ Forall (fun c => is_letter c = true) m /\
    ~ starts_with_letter rest /\
    forall pre' tail', s = pre' ++ tail' -> (length pre' < length pre)%nat ->
                       ~ color_property_at_start tail'.
Proof.
  rewrite COLOR_RE_exec_Some. split.
  - intros (pre & tail & -> & Ht & Hleft).
    apply COLOR_RE_at_Some in Ht. destruct Ht as (p & rest & -> & Hp & Hm & Hl & Hr).
    exists pre, p, rest. repeat split; try assumption.
    intros pre' tail' Hs Hlen. apply COLOR_RE_at_None. apply (Hleft pre' tail' Hs Hlen).
  - intros (pre & p & rest & -> & Hp & Hm & Hl & Hr & Hleft).
    exists pre, (p ++ m ++ rest). repeat split.
    + apply COLOR_RE_at_Some. exists p, rest. repeat split; assumption.
    + intros pre' tail' Hs Hlen. apply COLOR_RE_at_None. apply (Hleft pre' tail' Hs Hlen).
Qed.

(** X7.  [COLOR_RE.exec] returns [null] exactly when the text has the
    property prefix followed by a letter nowhere; a prefix followed by a
    digit, a hyphen or nothing does not count. *)
Theorem color_token_absent (s : jsstring) :
  COLOR_RE_exec s = None <->
  forall pre tail, s = pre ++ tail -> ~ color_property_at_start tail.
Proof.
  rewrite COLOR_RE_exec_None. split.
  - intros H pre tail Hs. apply COLOR_RE_at_None, (H pre tail Hs).
  - intros H pre tail Hs. apply COLOR_RE_at_None, (H pre tail Hs).
Qed.

(** X8.  Selecting more never hides.  Once the selection is not empty, a
    card that is shown stays shown under every selection with at least
    the same string members. *)
Theorem selection_growth_keeps_shown (cssText : jsstring) (sel sel' : ColorSet) :
  Set_size_is_zero sel = false ->
  string_members sel ⊆ string_members sel' ->
  show_card cssText sel = true -> show_card cssText sel' = true.
Proof.
  intros Hsel Hsub. unfold show_card. rewrite Hsel.
  pose proof (COLOR_RE_exec_nonempty cssText) as Hne.
  destruct (COLOR_RE_exec cssText) as [t|].
  - rewrite !show_token by congruence. simpl. intros Ht.
    apply Set_has_true in Ht. apply orb_true_iff. right.
    apply Set_has_true, Hsub, Ht.
  - rewrite !show_absent. simpl. intros Ht.
    apply Set_has_true in Ht. apply orb_true_iff. right.
    apply Set_has_true, Hsub, Ht.
Qed.

Lemma selection_growth_keeps_shown_witness :
  show_card (lit "--color-green: #5dc12f;")
    (ColorSet_of [lit "green"; lit "red"]) = true.
Proof.
  apply (selection_growth_keeps_shown (lit "--color-green: #5dc12f;")
           only_green (ColorSet_of [lit "green"; lit "red"])).
  - vm_compute. reflexivity.
  - apply (bool_decide_unpack _). vm_compute. exact I.
  - vm_compute. reflexivity.
Defined.

(** ** The pass over the cards *)

(** X9.  A second pass changes nothing.  [refresh()] run again on the
    page it left, with the same selection, leaves every card as the first
    pass left it and gets exactly as far; only another [resize] event is
    dispatched.  The script's own writes therefore settle after one
    pass. *)
Theorem refresh_twice (sel : ColorSet) (p : page) :
  cards (refreshed sel (refreshed sel p)) = cards (refreshed sel p) /\
  cards_enumerated sel (refreshed sel p) = cards_enumerated sel p /\
  resize_events (refreshed sel (refreshed sel p)) = S (S (resize_events p)).
Proof.
  rewrite !cards_enumerated_for_cards, !refreshed_cards, for_cards_twice.
  split; [reflexivity|]. split; [reflexivity|].
  unfold refreshed, refresh. rewrite !refresh_try_for_cards.
  destruct ((for_cards sel (Set_size_is_zero sel) (cards p)).1.2) as [u|e];
    cbn [fst resize_events console_error cards];
    rewrite ?for_cards_twice;
    destruct ((for_cards sel (Set_size_is_zero sel) (cards p)).1.2) as [u'|e'];
    reflexivity.
Qed.

(** X10.  What a pass never touches.  [refresh()] keeps the number and
    order of the cards and dispatches exactly one [resize] event; on each
    card it leaves the status text and the highlighter as they were,
    changes no class other than the aired marker, and leaves [display] as
    it was or sets it to the empty string or to [none]. *)
Theorem refresh_frame (sel : ColorSet) (p : page) :
  length (cards (refreshed sel p)) = length (cards p) /\
  resize_events (refreshed sel p) = S (resize_events p) /\
  forall i c, cards p !! i = Some c ->
    exists c', cards (refreshed sel p) !! i = Some c' /\
      episode c' = episode c /\ highlighter c' = highlighter c /\
      (forall y, y <> AIRED_CLASS -> (y ∈ classList c' <-> y ∈ classList c)) /\
      (display c' = display c \/ display c' = Some [] \/
       display c' = Some (lit "none")).
Proof.
  split; [rewrite refreshed_cards; apply for_cards_length|]. split.
  - unfold refreshed, refresh. rewrite refresh_try_for_cards.
    destruct ((for_cards sel (Set_size_is_zero sel) (cards p)).1.2); reflexivity.
  - intros i c Hc.
    destruct (Nat.lt_ge_cases i (cards_enumerated sel p)) as [Hi|Hi].
    + eexists. split; [apply (refreshed_enumerated sel p i c Hc Hi)|].
      destruct (loop_body_frame sel (Set_size_is_zero sel) c) as (H1 & H2 & H3 & H4 & _).
      repeat split; try assumption; apply H3; assumption.
    + exists c. split; [rewrite refreshed_not_enumerated by exact Hi; exact Hc|].
      repeat split; try reflexivity; try tauto.
Qed.



Local Open Scope Z_scope.

(** ** The debounce, for calls at any distance *)

Lemma waiting_since_next_call (runs : list Z) (c c' : Z) (t : timers) :
  waiting_since runs c t -> c <= c' ->
  waiting_since
    (if c + REFRESH_DEBOUNCE_MS <=? c' then runs ++ [c + REFRESH_DEBOUNCE_MS]
     else runs)
    c' (debounceRefresh (advance c' t)).
Proof.
  intros [Hn Hr (h & Hs & Ht & Hh & Hlt)] Hc.
  destruct (Z.leb_spec (c + REFRESH_DEBOUNCE_MS) c') as [Hq|Hq].
  - erewrite advance_fires by eassumption.
    rewrite debounceRefresh_idle by reflexivity. cbn.
    split; cbn.
    + unfold REFRESH_DEBOUNCE_MS in *. lia.
    + rewrite Hr. reflexivity.
    + exists (next_handle t). repeat split; try lia.
      f_equal. f_equal. unfold REFRESH_DEBOUNCE_MS in *. lia.
  - erewrite advance_before_due by eassumption.
    erewrite debounceRefresh_pending; cbn; try eassumption; try reflexivity.
    split; cbn.
    + lia.
    + exact Hr.
    + exists (next_handle t). repeat split; try lia. f_equal. f_equal. lia.
Qed.

Lemma waiting_since_runs (later : list Z) (runs : list Z) (c : Z) (t : timers)
    (T : Z) :
  waiting_since runs c t -> nondecreasing c later ->
  List.last later c + REFRESH_DEBOUNCE_MS <= T ->
  refresh_runs (advance T (timer_run (requests_at later) t))
  = runs ++ List.map (fun q => q + REFRESH_DEBOUNCE_MS) (quiet_calls c later).
Proof.
  revert runs c t; induction later as [|c' later IH]; intros runs c t Hw Hnd HT.
  - destruct Hw as [Hn Hr (h & Hs & Ht & Hh & Hlt)]. simpl in HT.
    erewrite advance_fires by eassumption. cbn. rewrite Hr. reflexivity.
  - destruct Hnd as [Hc Hnd]. rewrite last_cons_default in HT.
    change (timer_run (requests_at (c' :: later)) t)
      with (timer_run (requests_at later) (debounceRefresh (advance c' t))).
    rewrite (IH _ c' _ (waiting_since_next_call runs c c' t Hw Hc) Hnd HT).
    cbn [quiet_calls].
    destruct (c + REFRESH_DEBOUNCE_MS <=? c'); [|reflexivity].
    rewrite <- app_assoc. reflexivity.
Qed.

Lemma timers_consistent_step (t : timers) (e : timer_event) :
  timers_consistent t -> timers_consistent (timer_step t e).
Proof.
  unfold timers_consistent. intros [Hn H].
  destruct (scheduled t) as [|[h due] [|x l]] eqn:Hs; [| |contradiction].
  - destruct e as [T|]; cbn [timer_step].
    + rewrite advance_idle by exact Hs. cbn. split; assumption.
    + rewrite debounceRefresh_idle by assumption. cbn.
      unfold REFRESH_DEBOUNCE_MS. repeat split; lia.
  - destruct H as (Hr & Hh & Hd). destruct e as [T|]; cbn [timer_step].
    + destruct (Z.lt_ge_cases T due).
      * erewrite advance_before_due by eassumption. cbn.
        repeat split; try assumption; lia.
      * erewrite advance_fires by eassumption. cbn. split; [assumption | reflexivity].
    + erewrite debounceRefresh_pending by (try eassumption; lia). cbn.
      unfold REFRESH_DEBOUNCE_MS. repeat split; lia.
Qed.

(** X12.  The debounce for calls at any distance.  For calls of
    [debounceRefresh()] at non-decreasing times, the refresh runs once for
    every call that is followed by a full debounce interval without
    another call, the last call included, each time 180 units after that
    call, and never otherwise. *)
Theorem debounce_runs (t0 first : Z) (later : list Z) (T : Z) :
  t0 <= first -> nondecreasing first later ->
  List.last later first + 180 <= T ->
  refresh_runs (advance T (timer_run (requests_at (first :: later))
                             (timers_start t0)))
  = List.map (fun q => q + 180) (quiet_calls first later).
Proof.
  intros Ht0 Hnd HT.
  change (timer_run (requests_at (first :: later)) (timers_start t0))
    with (timer_run (requests_at later)
            (debounceRefresh (advance first (timers_start t0)))).
  assert (Hw : waiting_since [] first
                 (debounceRefresh (advance first (timers_start t0)))).
  { rewrite advance_idle by reflexivity.
    rewrite debounceRefresh_idle by reflexivity. cbn. split; cbn.
    - lia.
    - reflexivity.
    - exists 1. repeat split; try lia. f_equal. f_equal. lia. }
  apply (waiting_since_runs later [] first _ T Hw Hnd HT).
Qed.

(** Two bursts: calls at 0, 50 and 100, then at 400 and 450. *)
Lemma debounce_runs_witness :
  refresh_runs (advance 1000 (timer_run (requests_at [0; 50; 100; 400; 450])
                                (timers_start 0)))
  = [280; 630].
Proof.
  apply (debounce_runs 0 0 [50; 100; 400; 450] 1000).
  - lia.
  - vm_compute. intuition discriminate.
  - vm_compute. discriminate.
Defined.

(** X13.  The variable and the queue agree.  In every state the timer
    side can reach, whatever the calls and however time passes,
    [refreshTimer] is [null] exactly when no timeout is pending;
    otherwise it holds the handle of the only pending timeout, which is
    not overdue and at most 180 units away. *)
Theorem timer_variable_consistent (t0 : Z) (es : list timer_event) :
  timers_consistent (timer_run es (timers_start t0)).
Proof.
  assert (H : forall t, timers_consistent t -> timers_consistent (timer_run es t)).
  { induction es as [|e es IH]; intros t Ht; [exact Ht|].
    apply IH, timers_consistent_step, Ht. }
  apply H. unfold timers_consistent. cbn. split; [lia | reflexivity].
Qed.

Local Close Scope Z_scope.

(** ** The controls *)

Lemma initializeHtml_inputs (sel : ColorSet) (d : Document) (root : node) :
  getElementById HTML_ID (initializeHtml sel d) = Some root ->
  Forall (input_restored sel) (getElementsByTagName (lit "input") root).
Proof.
  intros H. destruct (initializeHtml_root sel d root H) as (r & -> & _).
  rewrite getElementsByTagName_restore_inputs.
  apply List.Forall_map, Forall_forall. intros e _.
  split; [|apply restore_input_listening].
  unfold restore_input. destruct (anichart_listening e); reflexivity.
Qed.

Lemma initializeHtml_finds_root (sel : ColorSet) (d : Document) :
  document_any (has_id HTML_ID) d || document_any (has_class (lit "filters")) d
    = true ->
  exists root, getElementById HTML_ID (initializeHtml sel d) = Some root.
Proof.
  intros H.
  destruct (getElementById HTML_ID (initializeHtml sel d)) as [root|] eqn:E;
    [exists root; reflexivity|].
  apply getElementById_None, document_count_zero in E.
  rewrite initializeHtml_count in E.
  destruct (document_any (has_id HTML_ID) d) eqn:Ei.
  - apply document_count_zero in E. congruence.
  - simpl in H. rewrite H in E.
    change (count_in (has_id HTML_ID) new_root) with 1%nat in E. lia.
Qed.

Lemma initializeHtml_creates_root (sel : ColorSet) (d : Document) :
  getElementById HTML_ID d = None ->
  document_any (has_class (lit "filters")) d = true ->
  getElementById HTML_ID (initializeHtml sel d)
  = Some (restore_inputs sel new_root).
Proof.
  intros Hn Hf.
  destruct (initializeHtml_finds_root sel d) as [root Hr].
  { rewrite Hf. apply orb_true_r. }
  rewrite Hr. destruct (initializeHtml_root sel d root Hr) as (r & -> & [H|[_ ->]]).
  - congruence.
  - reflexivity.
Qed.

Lemma initializeCss_keeps (q : element -> bool) (d : Document) :
  document_any q d = true -> document_any q (initializeCss d) = true.
Proof.
  unfold initializeCss. destruct (document_any (has_id CSS_ID) d); [tauto|].
  unfold document_any. simpl. rewrite existsb_app. intros H.
  apply orb_true_iff in H. destruct H as [H|H]; rewrite H; simpl;
    [reflexivity | apply orb_true_r].
Qed.

(** X14.  After [initializeHtml], whatever element [getElementById] finds
    under the root's id has every [input] below it restored: its box is
    checked exactly when its value is in the selection, and it is marked
    as listening. *)
Theorem control_surface_in_sync (sel : ColorSet) (d : Document) (root : node) :
  getElementById HTML_ID (initializeHtml sel d) = Some root ->
  Forall (input_restored sel) (getElementsByTagName (lit "input") root).
Proof. apply initializeHtml_inputs. Qed.

Lemma control_surface_in_sync_witness :
  getElementById HTML_ID (initializeHtml only_green (document fresh_world))
    = Some (restore_inputs only_green new_root) /\
  Forall (input_restored only_green)
    (getElementsByTagName (lit "input") (restore_inputs only_green new_root)).
Proof.
  assert (H : getElementById HTML_ID
                (initializeHtml only_green (document fresh_world))
              = Some (restore_inputs only_green new_root))
    by (vm_compute; reflexivity).
  split; [exact H|].
  exact (control_surface_in_sync only_green (document fresh_world) _ H).
Defined.

(** X15.  On a page that has no element with the root's id but has a
    controls container, [initializeHtml] creates the root: afterwards
    exactly one element has the root's id, it is the one [getElementById]
    finds, its inputs are one per palette colour in the palette's order,
    each checked exactly when its colour is selected, and each with the
    [change] listener attached once.  The container gets the root as its
    first element child. *)
Theorem control_surface_created (sel : ColorSet) (d : Document) :
  getElementById HTML_ID d = None ->
  document_any (has_class (lit "filters")) d = true ->
  exists root,
    getElementById HTML_ID (initializeHtml sel d) = Some root /\
    document_count (has_id HTML_ID) (initializeHtml sel d) = 1%nat /\
    List.map value (getElementsByTagName (lit "input") root) = KNOWN_COLORS /\
    Forall (fun input =>
              checked input = Set_has sel (value input) /\
              listeners input = [(lit "change", onCheckboxClicked)])
           (getElementsByTagName (lit "input") root).
Proof.
  intros Hn Hf. exists (restore_inputs sel new_root).
  split; [apply initializeHtml_creates_root; assumption|].
  split.
  - rewrite initializeHtml_count.
    apply getElementById_None in Hn. rewrite Hn, Hf.
    apply (document_count_zero (has_id HTML_ID)) in Hn. rewrite Hn. reflexivity.
  - rewrite getElementsByTagName_restore_inputs.
    split; [reflexivity|].
    repeat constructor.
Qed.

Lemma control_surface_created_witness :
  exists root,
    getElementById HTML_ID (initializeHtml only_green (document fresh_world))
      = Some root /\
    document_count (has_id HTML_ID)
      (initializeHtml only_green (document fresh_world)) = 1%nat /\
    List.map value (getElementsByTagName (lit "input") root) = KNOWN_COLORS /\
    Forall (fun input =>
              checked input = Set_has only_green (value input) /\
              listeners input = [(lit "change", onCheckboxClicked)])
           (getElementsByTagName (lit "input") root).
Proof.
  apply (control_surface_created only_green (document fresh_world));
    vm_compute; reflexivity.
Defined.

(** X16.  When the observer callback receives a batch in which some
    child-list record adds or removes an element that is or contains a
    controls container, and the page has a controls container at that
    moment, then after the callback the page has the root of the
    controls, with every input restored from the selection; the root is a
    new one when the page had none.  The selection is not changed, and
    both flags are lowered. *)
Theorem watcher_repairs_control_surface (w : world)
    (batch : list MutationRecord) :
  (exists m n, m ∈ batch /\ adds_or_removes m n /\
               is_or_contains filters_element n) ->
  document_any (has_class (lit "filters")) (document w) = true ->
  exists root,
    getElementById HTML_ID (document (observer_deliver pending_init batch w).2)
      = Some root /\
    Forall (input_restored (SELECTED_COLORS w))
      (getElementsByTagName (lit "input") root) /\
    (getElementById HTML_ID (document w) = None ->
     root = restore_inputs (SELECTED_COLORS w) new_root) /\
    SELECTED_COLORS (observer_deliver pending_init batch w).2
      = SELECTED_COLORS w /\
    (observer_deliver pending_init batch w).1 = pending_init.
Proof.
  intros (m & n & Hm & Hn & Hc) Hf.
  assert (Ht : existsb record_touches_filters batch = true).
  { apply existsb_exists. exists m. split; [apply list_elem_of_In; exact Hm|].
    apply record_touches_filters_spec. exists n. split; assumption. }
  unfold observer_deliver. rewrite observer_callback_init, Ht.
  assert (Hdoc : forall b : bool,
            document (fold_left (fun w c => run_call c w)
                        ([call_initializeHtml]
                         ++ (if b then [call_debounceRefresh] else [])) w)
            = initializeHtml (SELECTED_COLORS w) (document w)
            /\ SELECTED_COLORS (fold_left (fun w c => run_call c w)
                        ([call_initializeHtml]
                         ++ (if b then [call_debounceRefresh] else [])) w)
               = SELECTED_COLORS w)
    by (intros [|]; split; reflexivity).
  destruct (Hdoc (existsb record_touches_cards batch)) as [Hd Hs].
  cbn [fst snd]. rewrite Hd, Hs.
  destruct (initializeHtml_finds_root (SELECTED_COLORS w) (document w))
    as [root Hr].
  { rewrite Hf. apply orb_true_r. }
  exists root. split; [exact Hr|]. split; [exact (initializeHtml_inputs _ _ _ Hr)|].
  split; [|split; reflexivity].
  intros Hnone.
  rewrite (initializeHtml_creates_root _ _ Hnone Hf) in Hr. congruence.
Qed.

Lemma watcher_repairs_control_surface_witness :
  exists root,
    getElementById HTML_ID
      (document (observer_deliver pending_init [header_added] rerendered_world).2)
      = Some root /\
    Forall (input_restored only_green)
      (getElementsByTagName (lit "input") root) /\
    (getElementById HTML_ID (document rerendered_world) = None ->
     root = restore_inputs only_green new_root) /\
    SELECTED_COLORS (observer_deliver pending_init [header_added] rerendered_world).2
      = only_green /\
    (observer_deliver pending_init [header_added] rerendered_world).1
      = pending_init.
Proof.
  apply (watcher_repairs_control_surface rerendered_world [header_added]).
  - exists header_added,
      {| ancestors := [];
         self := div_with [lit "header"] [div_with [lit "filters"] []] |}.
    split; [apply list_elem_of_here|].
    split; [split; [reflexivity | apply list_elem_of_here]|].
    exists (new_element (lit "div") [] [lit "filters"] [] []).
    split; [|apply list_elem_of_here].
    eapply occurs_below; [apply list_elem_of_here | apply occurs_here].
  - vm_compute; reflexivity.
Defined.

(** X17.  A run of the script on a storage into which [saveState] has
    written a selection of strings does not throw; it starts from that
    selection, whatever the other keys hold; every input of the root it
    finds on the page afterwards is checked exactly when its value is
    among the saved strings; and the root is there whenever the page has a
    controls container. *)
Theorem selection_survives_reload (members : list jsstring)
    (localStorage : gmap jsstring jsstring) (t : timers) (d : Document)
    (obs : list observation) :
  exists w,
    script_run (saveState members localStorage) t d obs = Normal w /\
    SELECTED_COLORS w = ColorSet_of members /\
    (forall root, getElementById HTML_ID (document w) = Some root ->
       Forall (fun input =>
                 checked input = bool_decide (value input ∈ members) /\
                 anichart_listening input = true)
              (getElementsByTagName (lit "input") root)) /\
    (document_any (has_class (lit "filters")) d = true ->
     exists root, getElementById HTML_ID (document w) = Some root).
Proof.
  unfold script_run. rewrite SELECTED_COLORS_init_saveState.
  eexists. split; [reflexivity|].
  rewrite initialize_SELECTED_COLORS, initialize_document. cbn [SELECTED_COLORS document].
  split; [reflexivity|]. split.
  - intros root Hr. apply initializeHtml_inputs in Hr.
    eapply Forall_impl; [exact Hr|]. intros x [Hc Hl]. split; [|exact Hl].
    rewrite Hc. apply Set_has_ColorSet_of.
  - intros Hf. apply initializeHtml_finds_root.
    rewrite (initializeCss_keeps _ _ Hf). apply orb_true_r.
Qed.

